(** * LinguaSync: the orchestration layer of [services/geminiService.ts]

    A shallow embedding of the helpers of [geminiService.ts] (the retry
    executor, the segment merger, the response normalizer, the MIME resolver
    and the define-word router) together with the properties the
    specification states about them.

    The development then covers the code around these helpers: the audio
    tasks of the same file, the file check of the upload component, the error
    report, the favourites and the state of the application, and the history
    database.

    Conventions of the embedding.
    - A JavaScript string is a sequence of UTF-16 code units; the model covers
      the strings whose code units are all below 256 (ASCII and Latin-1) and
      writes one [ascii] per code unit.
    - A JavaScript number that holds a time in seconds is an IEEE 754 binary64
      value, Rocq's primitive [float]; counters and millisecond delays, which
      the code only ever increments or doubles, are [nat] and [Z].
    - Asynchronous code is written in a state-and-exception monad over the
      outside world and a trace of observable events. *)

From Stdlib Require Import ZArith List String Ascii Bool Lia Floats SpecFloat DecimalString Sorted.
From Stdlib Require Import DecimalPos DecimalZ.
From stdpp Require Import base tactics option list strings gmap sorting.

Open Scope string_scope.
Open Scope list_scope.

#[local] Set Warnings "-register-all".

(** ** JavaScript strings *)

Module Js.

(** [c] as a code unit. *)
Definition code (c : ascii) : N := N_of_ascii c.

(** The class [\s] of a regular expression, below code unit 256: TAB, LF, VT,
    FF, CR, SPACE and NO-BREAK SPACE. *)
Definition is_space (c : ascii) : bool :=
  let n := code c in
  ((9 <=? n) && (n <=? 13) || (n =? 32) || (n =? 160))%N.

(** [String.prototype.toLowerCase] on one code unit: A-Z, and the Latin-1
    capitals U+00C0-U+00DE without the multiplication sign U+00D7. *)
Definition lower_char (c : ascii) : ascii :=
  let n := code c in
  if ((65 <=? n) && (n <=? 90)
      || (192 <=? n) && (n <=? 222) && negb (n =? 215))%N
  then ascii_of_N (n + 32) else c.

Fixpoint toLowerCase (s : string) : string :=
  match s with
  | EmptyString => EmptyString
  | String c s' => String (lower_char c) (toLowerCase s')
  end.

(** [s.startsWith(p)]. *)
Fixpoint startsWith (s p : string) {struct p} : bool :=
  match p, s with
  | EmptyString, _ => true
  | String _ _, EmptyString => false
  | String b p', String a s' => if Ascii.eqb a b then startsWith s' p' else false
  end.

(** [s.includes(p)]. *)
Fixpoint includes (s p : string) : bool :=
  startsWith s p ||
  match s with
  | EmptyString => false
  | String _ s' => includes s' p
  end.

(** [s.split(sep)] for a separator of one code unit; the result is never
    empty ([""] splits into one empty piece). *)
Fixpoint split (sep : ascii) (s : string) : list string :=
  match s with
  | EmptyString => [EmptyString]
  | String c s' =>
      if Ascii.eqb c sep then EmptyString :: split sep s'
      else match split sep s' with
           | p :: ps => String c p :: ps
           | [] => [String c EmptyString]
           end
  end.

(** [s.split(/\s+/)]: the separators are the maximal runs of [\s]; [in_run]
    tells that the code unit before [s] belongs to the current run. *)
Fixpoint split_spaces_from (in_run : bool) (s : string) : list string :=
  match s with
  | EmptyString => [EmptyString]
  | String c s' =>
      if is_space c then
        if in_run then split_spaces_from true s'
        else EmptyString :: split_spaces_from true s'
      else match split_spaces_from false s' with
           | p :: ps => String c p :: ps
           | [] => [String c EmptyString]
           end
  end.

Definition split_spaces (s : string) : list string := split_spaces_from false s.

(** [s.slice(n)]: [s] without its first [n] code units. *)
Fixpoint slice (n : nat) (s : string) : string :=
  match n, s with
  | S n', String _ s' => slice n' s'
  | _, _ => s
  end.

(** The rest of [s] after its longest prefix in [\s]: what a greedy [\s*]
    leaves. *)
Fixpoint skip_spaces (s : string) : string :=
  match s with
  | String c s' => if is_space c then skip_spaces s' else s
  | EmptyString => s
  end.

(** The double quote and the line feed, as strings. *)
Definition dq : string := String "034" EmptyString.
Definition nl : string := String "010" EmptyString.

(** Truthiness of a string: every string but the empty one. *)
Definition truthy (s : string) : bool := negb (String.eqb s EmptyString).

(** [a || b] on strings. *)
Definition or_else (a b : string) : string := if truthy a then a else b.

End Js.

(** ** MimeResolver: [getCorrectMimeType] *)

(** The two fields of a DOM [File] the resolver reads. *)
Record File := mkFile { name : string; type : string }.

(** The object literal [knownMimeTypes]: its own properties. *)
Definition knownMimeTypes : gmap string string :=
  list_to_map
    [ ("mp3", "audio/mp3"); ("wav", "audio/wav"); ("flac", "audio/flac");
      ("m4a", "audio/mp4"); ("aac", "audio/aac"); ("ogg", "audio/ogg");
      ("oga", "audio/ogg"); ("webm", "audio/webm"); ("mp4", "audio/mp4") ].

(** The properties every object literal inherits from [Object.prototype];
    each is a function, or for [__proto__] the prototype object itself. *)
Definition Object_prototype : list string :=
  [ "constructor"; "__proto__"; "hasOwnProperty"; "isPrototypeOf";
    "propertyIsEnumerable"; "toLocaleString"; "toString"; "valueOf";
    "__defineGetter__"; "__defineSetter__"; "__lookupGetter__";
    "__lookupSetter__" ].

(** What reading a property of [knownMimeTypes] can yield. *)
Inductive PropValue :=
| PString (s : string)
| PInherited (key : string).

(** [obj[key]]: an own property first, then the prototype; [None] is
    [undefined]. *)
Definition get_property (own : gmap string string) (key : string) : option PropValue :=
  match own !! key with
  | Some v => Some (PString v)
  | None =>
      if bool_decide (key ∈ Object_prototype) then Some (PInherited key) else None
  end.

Definition truthy_property (v : option PropValue) : bool :=
  match v with
  | Some (PString s) => Js.truthy s
  | Some (PInherited _) => true
  | None => false
  end.

(** [file.name.split('.').pop()?.toLowerCase()]. *)
Definition extension (file : File) : option string :=
  Js.toLowerCase <$> last (Js.split "." (name file)).

(** The guard of the first [if]: the browser gave an audio or video type. *)
Definition declared_audio_or_video (file : File) : bool :=
  Js.truthy (type file)
  && (Js.startsWith (type file) "audio/" || Js.startsWith (type file) "video/").

Definition getCorrectMimeType (file : File) : PropValue :=
  if declared_audio_or_video file then PString (type file)
  else
    match extension file with
    | Some ext =>
        if Js.truthy ext && truthy_property (get_property knownMimeTypes ext)
        then match get_property knownMimeTypes ext with
             | Some v => v
             | None => PString "audio/mp3"
             end
        else PString "audio/mp3"
    | None => PString "audio/mp3"
    end.

(** ** SegmentMerger: [mergeShortSegments] *)

(** Modelled from the spec: the [TranscriptionSegment] type is declared in
    [types.ts], which is not among the sources; the fields are those of the
    data model ([end] is spelled [end_]). *)
Record TranscriptionSegment := mkSegment {
  start : float;
  end_ : float;
  text : string;
  translation : string;
  idiomatic : string;
  idiomExplanation : string;
  isFavorite : bool
}.

Definition MIN_WORDS : nat := 4.

(** [current.text.split(/\s+/).length]. *)
Definition currentWordCount (current : TranscriptionSegment) : nat :=
  length (Js.split_spaces (text current)).

(** [current.end - current.start]. *)
Definition duration (current : TranscriptionSegment) : float :=
  (end_ current - start current)%float.

(** The guard [currentWordCount < MIN_WORDS && duration < 2.0]. *)
Definition is_filler (current : TranscriptionSegment) : bool :=
  (currentWordCount current <? MIN_WORDS)%nat && (duration current <? 2)%float.

(** The object spread that folds [next] into [current]. *)
Definition absorb (current next : TranscriptionSegment) : TranscriptionSegment :=
  {| start := start current;
     end_ := end_ next;
     text := text current +:+ " " +:+ text next;
     translation := translation current +:+ " " +:+ translation next;
     idiomatic := Js.or_else (idiomatic next) (idiomatic current);
     idiomExplanation := Js.or_else (idiomExplanation next) (idiomExplanation current);
     isFavorite := isFavorite current |}.

(** The [for] loop over [segments[1..]]: [merged] is the array pushed to,
    [current] the accumulator. *)
Fixpoint merge_loop (merged : list TranscriptionSegment) (current : TranscriptionSegment)
    (rest : list TranscriptionSegment) : list TranscriptionSegment :=
  match rest with
  | [] => merged ++ [current]
  | next :: rest' =>
      if is_filler current then merge_loop merged (absorb current next) rest'
      else merge_loop (merged ++ [current]) next rest'
  end.

Definition mergeShortSegments (segments : list TranscriptionSegment) : list TranscriptionSegment :=
  match segments with
  | [] => []
  | first :: rest => merge_loop [] first rest
  end.

(** The words of a text as the specification counts them: the maximal runs
    of code units outside [\s]. [in_word] tells that the code unit before [s]
    belongs to a word. *)
Fixpoint count_words_from (in_word : bool) (s : string) : nat :=
  match s with
  | EmptyString => 0
  | String c s' =>
      if Js.is_space c then count_words_from false s'
      else (if in_word then 0 else 1) + count_words_from true s'
  end.

Definition word_count (s : string) : nat := count_words_from false s.

Fixpoint ends_with_space (s : string) : bool :=
  match s with
  | EmptyString => false
  | String c EmptyString => Js.is_space c
  | String _ s' => ends_with_space s'
  end.

Definition starts_with_space (s : string) : bool :=
  match s with
  | EmptyString => false
  | String c _ => Js.is_space c
  end.

(** [x <= y] on binary64. *)
Definition float_le (x y : float) : Prop := (x <=? y)%float = true.

(** Non-decreasing [start]. *)
Definition starts_nondecreasing (segments : list TranscriptionSegment) : Prop :=
  Sorted float_le (start <$> segments).

(** Each segment ends no later than the next one starts. *)
Definition non_overlapping (segments : list TranscriptionSegment) : Prop :=
  Sorted (fun a b => float_le (end_ a) (start b)) segments.

(** ** Effects: the outside world and what a call leaves behind *)

(** A thrown [Error] object, as far as the code reads it: [error.message]. *)
Record JsError := mkError { message : option string }.

(** [new Error(msg)]. *)
Definition Error (msg : string) : JsError := mkError (Some msg).

(** What [withRetry] and the router can throw: an error object, or
    [undefined] ([None]) when [lastError] was never assigned. *)
Definition Thrown : Type := option JsError.

(** The second argument of a [console] call. *)
Inductive LogArg :=
| LogText (text : option string)
| LogError (error : Thrown).

Inductive ConsoleLevel := LevelLog | LevelWarn | LevelError.

(** The POST to the chat-completions endpoint. *)
Record DeepSeekRequest := mkRequest {
  url : string;
  authorization : string;
  model : string;
  systemPrompt : string;
  userPrompt : string
}.

(** What the caller of the module can observe besides the result. [Invoked]
    is only emitted by [probe], which marks the calls of an operation handed
    to [withRetry]. *)
Inductive Event :=
| Console (level : ConsoleLevel) (msg : string) (arg : option LogArg)
| SetTimeout (ms : Z)
| GenerateContent (apiKey modelName contents : string)
| Fetch (request : DeepSeekRequest)
| Invoked.

Inductive Completion (E A : Type) :=
| Normal (a : A)
| Abrupt (e : E).
Arguments Normal {E A} a.
Arguments Abrupt {E A} e.

(** An asynchronous computation over the world [W]: it returns or throws,
    leaves a new world, and emits events in the order they happen. *)
Definition Eff (W E A : Type) : Type := W -> Completion E A * W * list Event.

Definition ret {W E A} (a : A) : Eff W E A := fun w => (Normal a, w, []).

Definition throw {W E A} (e : E) : Eff W E A := fun w => (Abrupt e, w, []).

Definition bind {W E A B} (m : Eff W E A) (k : A -> Eff W E B) : Eff W E B :=
  fun w =>
    match m w with
    | (Normal a, w1, t1) => let '(r, w2, t2) := k a w1 in (r, w2, t1 ++ t2)
    | (Abrupt e, w1, t1) => (Abrupt e, w1, t1)
    end.

(** [try { m } catch (e) { handler e }]. *)
Definition try_catch {W E E' A} (m : Eff W E A) (handler : E -> Eff W E' A) : Eff W E' A :=
  fun w =>
    match m w with
    | (Normal a, w1, t1) => (Normal a, w1, t1)
    | (Abrupt e, w1, t1) => let '(r, w2, t2) := handler e w1 in (r, w2, t1 ++ t2)
    end.

Definition emit {W E} (ev : Event) : Eff W E unit := fun w => (Normal tt, w, [ev]).

(** A call that only touches the world. *)
Definition perform {W E A} (op : W -> Completion E A * W) : Eff W E A :=
  fun w => let '(r, w') := op w in (r, w', []).

Declare Scope eff_scope.
Delimit Scope eff_scope with eff.
Notation "x <- m ;; k" := (bind m (fun x => k))
  (at level 100, m at next level, right associativity) : eff_scope.
Notation "m ;; k" := (bind m (fun _ => k))
  (at level 100, right associativity) : eff_scope.

(** An operation on the world, with each of its calls marked in the trace. *)
Definition probe {W E A} (op : W -> Completion E A * W) : Eff W E A :=
  (emit Invoked ;; perform op)%eff.

(** The three components of a run. *)
Definition outcome {E A W} (r : Completion E A * W * list Event) : Completion E A := r.1.1.
Definition world_after {E A W} (r : Completion E A * W * list Event) : W := r.1.2.
Definition trace {E A W} (r : Completion E A * W * list Event) : list Event := r.2.

(** The process environment, fixed when the bundle is built. *)
Record Env := mkEnv { API_KEY : option string; DEEPSEEK_API_KEY : option string }.

(** [!!key] for an environment entry: set and not empty. *)
Definition configured (key : option string) : bool :=
  match key with
  | Some k => Js.truthy k
  | None => false
  end.

(** What [fetch] resolves to: [ok], [statusText], and the result of reading
    [(await response.json()).choices[0].message.content], which throws when
    the body is not JSON or has no such path, and is [None] when what is there
    is not a string. *)
Record HttpResponse := mkResponse {
  ok : bool;
  statusText : string;
  content : Completion JsError (option string)
}.

(** The two remote providers and the environment. [generateContent] yields
    [response.text], [undefined] ([None]) when the reply has no text part. *)
Class Platform (W : Type) := {
  process_env : Env;
  generateContent : string -> string -> string -> W -> Completion JsError (option string) * W;
  fetch : DeepSeekRequest -> W -> Completion JsError HttpResponse * W
}.

(** ** RetryExecutor: [withRetry] *)

(** Decimal text of a number in a template literal. *)
Definition decimal (z : Z) : string := NilZero.string_of_int (Z.to_int z).

(** [error.message?.toLowerCase().includes("internal error") ||
    error.message?.includes("500") || error.message?.includes("503")];
    without a message each disjunct is [undefined]. *)
Definition isInternalError (error : JsError) : bool :=
  match message error with
  | Some m =>
      Js.includes (Js.toLowerCase m) "internal error"
      || Js.includes m "500" || Js.includes m "503"
  | None => false
  end.

(** The doubling of [delayMs *= 2]. *)
Definition backoffMultiplier : Z := 2.

Section RetryExecutor.
Context {W T : Type}.

(** The [console.warn] before a retry. *)
Definition retry_warning (i retries : nat) (delayMs : Z) (error : JsError) : Event :=
  Console LevelWarn
    ("API call failed (attempt " +:+ decimal (Z.of_nat (i + 1)) +:+ "/"
     +:+ decimal (Z.of_nat retries) +:+ "). Retrying in "
     +:+ decimal delayMs +:+ "ms...")
    (Some (LogError (Some error))).

(** The [for] loop from index [i] on; [remaining] is [retries - i], the
    iterations the loop condition still allows. *)
Fixpoint retry_loop (fn : Eff W JsError T) (retries remaining i : nat) (delayMs : Z)
    (lastError : Thrown) : Eff W Thrown T :=
  match remaining with
  | O => throw lastError
  | S remaining' =>
      try_catch fn (fun error =>
        if isInternalError error && (i <? retries - 1)%nat then
          (emit (retry_warning i retries delayMs error) ;;
           emit (SetTimeout delayMs) ;;
           retry_loop fn retries remaining' (S i) (delayMs * backoffMultiplier)%Z (Some error))%eff
        else throw (Some error))
  end.

Definition withRetry (fn : Eff W JsError T) (retries : nat) (delayMs : Z) : Eff W Thrown T :=
  retry_loop fn retries retries 0 delayMs None.

End RetryExecutor.

(** The default parameters [retries = 3, delayMs = 1000]. *)
Definition default_retries : nat := 3.
Definition default_delayMs : Z := 1000.

(** *** What the specification says of a run *)

Definition is_attempt (ev : Event) : bool :=
  match ev with Invoked => true | _ => false end.

(** The calls of the probed operation. *)
Definition attempts (t : list Event) : nat := length (List.filter is_attempt t).

Definition is_scheduling (ev : Event) : bool :=
  match ev with Invoked | SetTimeout _ => true | _ => false end.

(** The calls and the waits, in order. *)
Definition schedule (t : list Event) : list Event := List.filter is_scheduling t.

(** The waits, in order. *)
Fixpoint delays (t : list Event) : list Z :=
  match t with
  | [] => []
  | SetTimeout ms :: t' => ms :: delays t'
  | _ :: t' => delays t'
  end.

Section Calls.
Context {W T : Type} (op : W -> Completion JsError T * W).

(** The world after [n] successive calls of [op]. *)
Definition world_after_calls (w : W) (n : nat) : W := Nat.iter n (fun w' => (op w').2) w.

(** The result of call [k] (from 1) when [op] is called again and again. *)
Definition call_result (w : W) (k : nat) : Completion JsError T :=
  (op (world_after_calls w (k - 1))).1.

Definition first_success_at (w : W) (k : nat) : Prop :=
  1 <= k /\ (exists v, call_result w k = Normal v)
  /\ forall j, 1 <= j < k -> exists e, call_result w j = Abrupt e.

Definition no_success_within (w : W) (n : nat) : Prop :=
  forall j, 1 <= j <= n -> exists e, call_result w j = Abrupt e.

(** Every failure among the calls is one the executor retries. *)
Definition failures_retryable (w : W) : Prop :=
  forall j e, 1 <= j -> call_result w j = Abrupt e -> isInternalError e = true.

(** The calls made when every failure is retried: up to the first success,
    at most [budget]. *)
Fixpoint calls_until_success (budget : nat) (w : W) : nat :=
  match budget with
  | O => O
  | S budget' =>
      match op w with
      | (Normal _, _) => 1
      | (Abrupt _, w') => S (calls_until_success budget' w')
      end
  end.

End Calls.

(** Attempts and waits in order: attempt 1, then before attempt [i + 1] a
    wait of [delayMs * backoffMultiplier ^ (i - 1)]. *)
Definition backoff_schedule (n : nat) (delayMs : Z) : list Event :=
  match n with
  | O => []
  | S m =>
      Invoked ::
      flat_map (fun i => [SetTimeout (delayMs * backoffMultiplier ^ (Z.of_nat i - 1)); Invoked])
        (seq 1 m)
  end.




(** A result of the operation as [withRetry] hands it on. *)
Definition settle {E A} (r : Completion E A) : Completion (option E) A :=
  match r with
  | Normal v => Normal v
  | Abrupt e => Abrupt (Some e)
  end.

(** ** JSON.parse *)

Module Json.

(** The value [JSON.parse] builds, as the document gives it: a number by its
    literal, a string by its code units, an object by its members in document
    order. *)
Inductive value :=
| Null
| Bool (b : bool)
| Number (literal : string)
| Str (units : list N)
| Array (elements : list value)
| Object (members : list (list N * value)).

(** The code units of a string of the model. *)
Definition units (s : string) : list N := Js.code <$> list_ascii_of_string s.

Definition is_ws (c : ascii) : bool :=
  let n := Js.code c in ((n =? 9) || (n =? 10) || (n =? 13) || (n =? 32))%N.

Fixpoint skip_ws (s : string) : string :=
  match s with
  | String c s' => if is_ws c then skip_ws s' else s
  | EmptyString => s
  end.

Definition is_digit (c : ascii) : bool :=
  let n := Js.code c in ((48 <=? n) && (n <=? 57))%N.

Definition hex_digit (c : ascii) : option N :=
  let n := Js.code c in
  if ((48 <=? n) && (n <=? 57))%N then Some (n - 48)%N
  else if ((65 <=? n) && (n <=? 70))%N then Some (n - 55)%N
  else if ((97 <=? n) && (n <=? 102))%N then Some (n - 87)%N
  else None.

(** The characters of a string after its opening quote, up to the closing
    one, and what follows it. *)
Fixpoint string_chars (s : string) : option (list N * string) :=
  match s with
  | EmptyString => None
  | String c s1 =>
      if Ascii.eqb c "034" then Some ([], s1)
      else if Ascii.eqb c "\" then
        match s1 with
        | String e s2 =>
            let simple (u : N) := '(us, r) ← string_chars s2; Some (u :: us, r) in
            if Ascii.eqb e "034" then simple 34%N
            else if Ascii.eqb e "\" then simple 92%N
            else if Ascii.eqb e "/" then simple 47%N
            else if Ascii.eqb e "b" then simple 8%N
            else if Ascii.eqb e "f" then simple 12%N
            else if Ascii.eqb e "n" then simple 10%N
            else if Ascii.eqb e "r" then simple 13%N
            else if Ascii.eqb e "t" then simple 9%N
            else if Ascii.eqb e "u" then
              match s2 with
              | String h1 (String h2 (String h3 (String h4 s3))) =>
                  a ← hex_digit h1; b ← hex_digit h2; c ← hex_digit h3; d ← hex_digit h4;
                  '(us, r) ← string_chars s3;
                  Some ((((a * 16 + b) * 16 + c) * 16 + d)%N :: us, r)
              | _ => None
              end
            else None
        | EmptyString => None
        end
      else if (Js.code c <? 32)%N then None
      else '(us, r) ← string_chars s1; Some (Js.code c :: us, r)
  end.

(** The longest prefix of digits, and the rest. *)
Fixpoint digits (s : string) : string * string :=
  match s with
  | String c s' =>
      if is_digit c then let '(d, r) := digits s' in (String c d, r) else (EmptyString, s)
  | EmptyString => (EmptyString, s)
  end.

(** One or more digits. *)
Definition digits1 (s : string) : option (string * string) :=
  match digits s with
  | (EmptyString, _) => None
  | (d, r) => Some (d, r)
  end.

(** A number of the JSON grammar, part by part; each part gives its text and
    the rest. An optional minus sign. *)
Definition sign_part (s : string) : string * string :=
  match s with
  | String c s' => if Ascii.eqb c "-" then ("-", s') else ("", s)
  | EmptyString => ("", s)
  end.

(** [0], or a digit from 1 to 9 and any digits. *)
Definition int_part (s : string) : option (string * string) :=
  match s with
  | String c s' =>
      if Ascii.eqb c "0" then Some ("0", s')
      else if is_digit c then digits1 s
      else None
  | EmptyString => None
  end.

(** Optionally a point and one or more digits. *)
Definition frac_part (s : string) : option (string * string) :=
  match s with
  | String c s' =>
      if Ascii.eqb c "." then '(d, r) ← digits1 s'; Some ("." +:+ d, r)
      else Some ("", s)
  | EmptyString => Some ("", s)
  end.

(** Optionally [e] or [E], an optional sign and one or more digits. *)
Definition exp_part (s : string) : option (string * string) :=
  match s with
  | String c s' =>
      if Ascii.eqb c "e" || Ascii.eqb c "E" then
        let '(esign, s'') :=
          match s' with
          | String g t =>
              if Ascii.eqb g "+" then ("+", t)
              else if Ascii.eqb g "-" then ("-", t) else ("", s')
          | EmptyString => ("", s')
          end in
        '(d, r) ← digits1 s''; Some (String c esign +:+ d, r)
      else Some ("", s)
  | EmptyString => Some ("", s)
  end.

(** The literal of a number and the rest. *)
Definition number (s : string) : option (string * string) :=
  let '(sign, s0) := sign_part s in
  '(int, s1) ← int_part s0;
  '(frac, s2) ← frac_part s1;
  '(exp, s3) ← exp_part s2;
  Some (sign +:+ int +:+ frac +:+ exp, s3).

(** A value at the start of [s] (no leading white space), and the rest.
    [fuel] bounds the calls; every call consumes a character. *)
Fixpoint parse_value (fuel : nat) (s : string) : option (value * string) :=
  match fuel with
  | O => None
  | S fuel' =>
      match s with
      | EmptyString => None
      | String c s1 =>
          if Ascii.eqb c "{" then
            match skip_ws s1 with
            | String c2 s2 =>
                if Ascii.eqb c2 "}" then Some (Object [], s2)
                else '(ms, r) ← parse_members fuel' (String c2 s2); Some (Object ms, r)
            | EmptyString => None
            end
          else if Ascii.eqb c "[" then
            match skip_ws s1 with
            | String c2 s2 =>
                if Ascii.eqb c2 "]" then Some (Array [], s2)
                else '(es, r) ← parse_elements fuel' (String c2 s2); Some (Array es, r)
            | EmptyString => None
            end
          else if Ascii.eqb c "034" then
            '(us, r) ← string_chars s1; Some (Str us, r)
          else if Js.startsWith s "true" then Some (Bool true, Js.slice 4 s)
          else if Js.startsWith s "false" then Some (Bool false, Js.slice 5 s)
          else if Js.startsWith s "null" then Some (Null, Js.slice 4 s)
          else '(lit, r) ← number s; Some (Number lit, r)
      end
  end
with parse_members (fuel : nat) (s : string) : option (list (list N * value) * string) :=
  match fuel with
  | O => None
  | S fuel' =>
      match s with
      | String c s1 =>
          if Ascii.eqb c "034" then
            '(k, s2) ← string_chars s1;
            match skip_ws s2 with
            | String c3 s3 =>
                if Ascii.eqb c3 ":" then
                  '(v, s4) ← parse_value fuel' (skip_ws s3);
                  match skip_ws s4 with
                  | String c5 s5 =>
                      if Ascii.eqb c5 "}" then Some ([(k, v)], s5)
                      else if Ascii.eqb c5 "," then
                        '(ms, r) ← parse_members fuel' (skip_ws s5); Some ((k, v) :: ms, r)
                      else None
                  | EmptyString => None
                  end
                else None
            | EmptyString => None
            end
          else None
      | EmptyString => None
      end
  end
with parse_elements (fuel : nat) (s : string) : option (list value * string) :=
  match fuel with
  | O => None
  | S fuel' =>
      '(v, s1) ← parse_value fuel' s;
      match skip_ws s1 with
      | String c2 s2 =>
          if Ascii.eqb c2 "]" then Some ([v], s2)
          else if Ascii.eqb c2 "," then
            '(es, r) ← parse_elements fuel' (skip_ws s2); Some (v :: es, r)
          else None
      | EmptyString => None
      end
  end.

(** [JSON.parse(text)]; [None] is the [SyntaxError]. *)
Definition parse (text : string) : option value :=
  '(v, r) ← parse_value (S (String.length text)) (skip_ws text);
  match skip_ws r with
  | EmptyString => Some v
  | String _ _ => None
  end.

End Json.

(** ** ResponseNormalizer: [cleanAndParseJson] *)

(** [text.replace(/^```json\s*/, '')]: the pattern can only match at the
    start of the text. *)
Definition strip_opening_fence (text : string) : string :=
  if Js.startsWith text "```json" then Js.skip_spaces (Js.slice 7 text) else text.

(** Whether [/\s*```$/] matches from the start of [s]: the greedy [\s*] takes
    every leading space, and giving some back cannot help, for a space is no
    backtick. *)
Definition closing_fence_here (s : string) : bool :=
  String.eqb (Js.skip_spaces s) "```".

(** [text.replace(/\s*```$/, '')]: the leftmost match is removed, and it
    reaches the end of the text. *)
Fixpoint strip_closing_fence (text : string) : string :=
  if closing_fence_here text then EmptyString
  else match text with
       | EmptyString => EmptyString
       | String c text' => String c (strip_closing_fence text')
       end.

Definition cleanText (text : string) : string :=
  strip_closing_fence (strip_opening_fence text).

Definition parse_failure : JsError :=
  Error "Failed to parse AI response. Ensure content is valid JSON.".

(** [text] is [None] when the caller passes [undefined] (the non-null
    assertion [response.text!] is erased at run time): [text.replace] then
    throws inside the [try], and the [catch] handles it like a syntax error. *)
Definition cleanAndParseJson {W} (text : option string) : Eff W JsError Json.value :=
  match text ≫= (fun t => Json.parse (cleanText t)) with
  | Some v => ret v
  | None =>
      (emit (Console LevelError "JSON Parse Error on text:" (Some (LogText text))) ;;
       throw parse_failure)%eff
  end.

(** *** What the specification says of a reply *)

(** Only code units of [\s]. *)
Fixpoint all_spaces (s : string) : bool :=
  match s with
  | EmptyString => true
  | String c s' => Js.is_space c && all_spaces s'
  end.

Fixpoint last_char (s : string) : option ascii :=
  match s with
  | EmptyString => None
  | String c EmptyString => Some c
  | String _ s' => last_char s'
  end.

(** The opening marker the code removes: the fence with the [json] tag and
    the white space after it. *)
Definition opening_fence (s : string) : Prop :=
  exists ws, all_spaces ws = true /\ s = "```json" +:+ ws.

(** The closing marker: the fence and the white space before it. *)
Definition closing_fence (s : string) : Prop :=
  exists ws, all_spaces ws = true /\ s = ws +:+ "```".

(** [r] is what is left of [s] after a prefix. *)
Definition suffix_of (r s : string) : Prop := exists pre, s = pre +:+ r.

(** [r] is what is left of [s] after a prefix whose last code unit is no
    backtick. *)
Definition ends_before (s r : string) : Prop :=
  exists pre c, s = pre +:+ String c r /\ c <> "`"%char.

(** The structure the define-word task expects, by the [required] fields of
    its response schema: an object with string members [word], [definition]
    and [example]. *)
Definition is_string (v : Json.value) : bool :=
  match v with Json.Str _ => true | _ => false end.

Definition has_string_member (key : string) (v : Json.value) : bool :=
  match v with
  | Json.Object members =>
      existsb (fun m => bool_decide (m.1 = Json.units key) && is_string m.2) members
  | _ => false
  end.

Definition is_WordDefinition (v : Json.value) : bool :=
  has_string_member "word" v && has_string_member "definition" v
  && has_string_member "example" v.

(** The document of the specification's examples, an object with the member
    [a] of value 1. *)
Definition json_a1 : string := "{" +:+ Js.dq +:+ "a" +:+ Js.dq +:+ ":1}".

(** ** ProviderRouter: the define-word task *)

Section ProviderRouter.
Context {W : Type} `{Platform W}.

(** [getAi()]: the client is determined by the key it carries. *)
Definition getAi : Eff W JsError string :=
  match API_KEY process_env with
  | Some apiKey =>
      if Js.truthy apiKey then ret apiKey
      else throw (Error "API Key is missing. Please check your deployment environment variables.")
  | None => throw (Error "API Key is missing. Please check your deployment environment variables.")
  end.

(** [client.models.generateContent({model, contents, ...})], then
    [response.text]. *)
Definition models_generateContent (apiKey modelName contents : string)
    : Eff W JsError (option string) :=
  (emit (GenerateContent apiKey modelName contents) ;;
   perform (generateContent apiKey modelName contents))%eff.

Definition callDeepSeek (systemPrompt userPrompt : string) : Eff W JsError (option string) :=
  match DEEPSEEK_API_KEY process_env with
  | Some deepSeekKey =>
      if Js.truthy deepSeekKey then
        (emit (Console LevelLog "[Fallback] Switching to DeepSeek API..." None) ;;
         let request :=
           mkRequest "https://api.deepseek.com/chat/completions"
             ("Bearer " +:+ deepSeekKey) "deepseek-chat" systemPrompt userPrompt in
         emit (Fetch request) ;;
         response <- perform (fetch request) ;;
         if negb (ok response) then
           throw (Error ("DeepSeek API Error: " +:+ statusText response))
         else
           match content response with
           | Normal c => ret c
           | Abrupt e => throw e
           end)%eff
      else throw (Error "DeepSeek API Key is missing")
  | None => throw (Error "DeepSeek API Key is missing")
  end.

(** The template literal of the prompt. *)
Definition definition_prompt (word contextSentence : string) : string :=
  "Define " +:+ Js.dq +:+ word +:+ Js.dq +:+ " in context: " +:+ Js.dq +:+ contextSentence
  +:+ Js.dq
  +:+ ". Return JSON with: word, definition (English), example, phonetic.".

(** The closure handed to [withRetry]: one request to the primary provider. *)
Definition primary_attempt (prompt : string) : Eff W JsError Json.value :=
  (apiKey <- getAi ;;
   responseText <- models_generateContent apiKey "gemini-2.5-flash" prompt ;;
   cleanAndParseJson responseText)%eff.

(** The [try] block of the fallback. *)
Definition secondary_attempt (prompt : string) : Eff W JsError Json.value :=
  (responseText <- callDeepSeek "You are an English dictionary API. Output purely JSON." prompt ;;
   cleanAndParseJson responseText)%eff.

(** The two [console] calls of the fallback. *)
Definition fallback_warning (geminiError : Thrown) : Event :=
  Console LevelWarn "Gemini definition failed, attempting DeepSeek fallback..."
    (Some (LogError geminiError)).

Definition fallback_failure (deepSeekError : JsError) : Event :=
  Console LevelError "DeepSeek fallback also failed:" (Some (LogError (Some deepSeekError))).

Definition getWordDefinition (word contextSentence : string) : Eff W Thrown Json.value :=
  let prompt := definition_prompt word contextSentence in
  try_catch (withRetry (primary_attempt prompt) default_retries default_delayMs)
    (fun geminiError =>
       (emit (fallback_warning geminiError) ;;
        if configured (DEEPSEEK_API_KEY process_env) then
          try_catch (secondary_attempt prompt)
            (fun deepSeekError =>
               (emit (fallback_failure deepSeekError) ;;
                throw (Some deepSeekError))%eff)
        else throw geminiError)%eff).

End ProviderRouter.

(** *** What the specification says of a define-word call *)

(** The requests sent to the secondary provider, in order. *)
Fixpoint fetches (t : list Event) : list DeepSeekRequest :=
  match t with
  | [] => []
  | Fetch request :: t' => request :: fetches t'
  | _ :: t' => fetches t'
  end.

Section Terminal.
Context {W A : Type}.
Implicit Type run : Completion Thrown A * W * list Event.

(** The three terminal states of the define-word state machine, read off a
    run: its outcome and the requests it made to the secondary provider. *)
Definition Success run : Prop := exists v, outcome run = Normal v.

Definition PrimaryFailedNoFallback run : Prop :=
  exists e, outcome run = Abrupt e /\ fetches (trace run) = [].

Definition FallbackFailed run : Prop :=
  exists e request, outcome run = Abrupt (Some e) /\ fetches (trace run) = [request].

Definition exactly_one (P Q R : Prop) : Prop :=
  (P /\ ~ Q /\ ~ R) \/ (~ P /\ Q /\ ~ R) \/ (~ P /\ ~ Q /\ R).

End Terminal.

(** *** A platform and operations for the examples *)

(** The primary provider rejects every request; the secondary answers with a
    definition. The world counts the requests. *)
Definition sample_definition : string :=
  "{" +:+ Js.dq +:+ "word" +:+ Js.dq +:+ ":" +:+ Js.dq +:+ "cat" +:+ Js.dq +:+ "}".

Definition sample_platform : Platform nat :=
  {| process_env := mkEnv (Some "primary-key") (Some "fallback-key");
     generateContent := fun _ _ _ n => (Abrupt (Error "401 Unauthorized"), S n);
     fetch := fun _ n =>
       (Normal (mkResponse true "OK" (Normal (Some sample_definition))), S n) |}.

(** An operation that fails twice with a server error and then succeeds. *)
Definition flaky (n : nat) : Completion JsError nat * nat :=
  (if (n <? 2)%nat then Abrupt (Error "503 Service Unavailable") else Normal n, S n).


(** ** SegmentMerger and RetryExecutor: what the properties below speak of *)

(** *** What a pass keeps *)

(** The segment a run of consecutive segments is folded into: [first]
    absorbs [others] one after the other. *)
Definition fuse (group : TranscriptionSegment * list TranscriptionSegment)
    : TranscriptionSegment :=
  fold_left absorb group.2 group.1.

(** The segments of a group, in order. *)
Definition members (group : TranscriptionSegment * list TranscriptionSegment)
    : list TranscriptionSegment :=
  group.1 :: group.2.

(** The texts of a list joined by single spaces. *)
Definition joined (texts : list string) : string := String.concat " " texts.

(** *** Any operation, retryable or not *)

Section Settling.
Context {W T : Type} (op : W -> Completion JsError T * W).

(** A result the executor hands on at once: a success, or a failure it does
    not retry. *)
Definition settles (r : Completion JsError T) : bool :=
  match r with
  | Normal _ => true
  | Abrupt error => negb (isInternalError error)
  end.

(** The calls made with [budget] iterations left: up to the first result that
    settles. *)
Fixpoint calls_until_settled (budget : nat) (w : W) : nat :=
  match budget with
  | O => O
  | S budget' =>
      if settles (op w).1 then 1 else S (calls_until_settled budget' (op w).2)
  end.

End Settling.

(** The sum of the waits. *)
Definition total_wait (t : list Event) : Z := foldr Z.add 0%Z (delays t).

(** ** FileUpload: [handleInputChange] *)

(** The alternatives of the pattern [/\.(mp3|wav|flac|m4a|aac|ogg|oga|weba|apk\.1)$/]. *)
Definition extension_alternatives : list string :=
  [ "mp3"; "wav"; "flac"; "m4a"; "aac"; "ogg"; "oga"; "weba"; "apk.1" ].

(** Whether the pattern matches from the start of [s]: a dot, one of the
    alternatives, and the end of the text. *)
Definition valid_extension_here (s : string) : bool :=
  match s with
  | String c alternative =>
      Ascii.eqb c "." && existsb (String.eqb alternative) extension_alternatives
  | EmptyString => false
  end.

(** [pattern.test(fileName)]: a match from some position. *)
Fixpoint hasValidExtension (fileName : string) : bool :=
  valid_extension_here fileName
  || match fileName with
     | String _ rest => hasValidExtension rest
     | EmptyString => false
     end.

Definition validAudioPrefixes : list string :=
  [ "audio/"; "video/mp4"; "video/webm"; "application/ogg"; "application/octet-stream" ].

(** [validAudioPrefixes.some(prefix => file.type.startsWith(prefix)) || file.type === ""]. *)
Definition hasValidMime (file : File) : bool :=
  existsb (fun prefix => Js.startsWith (type file) prefix) validAudioPrefixes
  || String.eqb (type file) "".

(** What the handler does with the chosen file: nothing when none was chosen,
    [onFileSelected(file)], or a warning and the message it sets. In the first
    two cases the message is cleared. *)
Inductive Upload :=
| NoFile
| Selected (file : File)
| Rejected (errorMsg : string).

Definition handleInputChange (file : option File) : Upload :=
  match file with
  | None => NoFile
  | Some file =>
      let fileName := Js.toLowerCase (name file) in
      if hasValidExtension fileName
         || (hasValidMime file && negb (String.eqb (type file) "")
             && negb (String.eqb (type file) "application/octet-stream"))
      then Selected file
      else Rejected ("Unsupported file type: " +:+ name file +:+ " ("
                     +:+ Js.or_else (type file) "unknown"
                     +:+ "). Please use MP3, M4A, or WAV.")
  end.

(** A resolved type of the audio or video family. *)
Definition audio_or_video (mime : string) : bool :=
  Js.startsWith mime "audio/" || Js.startsWith mime "video/".

(** ** App: the error shown *)

(** The signature checks of [handleFileSelected] on the message of the
    error it caught: what [setErrorDetails] receives. *)
Definition errorDetails_for (msg : string) : string :=
  let lowerMsg := Js.toLowerCase msg in
  if Js.includes lowerMsg "api key is missing"
     || Js.includes lowerMsg "401"
     || Js.includes lowerMsg "unauthenticated"
     || Js.includes lowerMsg "invalid authentication"
  then "API_KEY_MISSING"
  else if Js.includes lowerMsg "internal error"
          || Js.includes lowerMsg "500"
          || Js.includes lowerMsg "503"
          || Js.includes lowerMsg "overloaded"
  then "SERVICE_UNAVAILABLE"
  else if Js.includes lowerMsg "fetch failed"
          || Js.includes lowerMsg "network"
          || Js.includes lowerMsg "failed to fetch"
  then "NETWORK_ERROR"
  else msg.

(** The messages in which the first group of checks finds a signature. *)
Definition authentication_signature (msg : string) : bool :=
  let lowerMsg := Js.toLowerCase msg in
  Js.includes lowerMsg "api key is missing"
  || Js.includes lowerMsg "401"
  || Js.includes lowerMsg "unauthenticated"
  || Js.includes lowerMsg "invalid authentication".

(** ** App: favourites *)

(** Modelled from the spec: the type of [meta] is declared in [types.ts],
    which is not among the sources; the fields are those of the data model. *)
Record Meta := mkMeta { wordCount : Z; estimatedLevel : string; speed : string }.

(** Modelled from the spec: [TranscriptionResponse] is declared in
    [types.ts] as well; the fields are those of the data model. *)
Record TranscriptionResponse := mkTranscription {
  language : string;
  meta : Meta;
  segments : list TranscriptionSegment
}.

(** The [TypeError] of reading a property of [undefined]. *)
Inductive TypeError := ReadOfUndefined (property : string).

(** The spread [{...segment, isFavorite: !segment.isFavorite}]; a segment
    that carries no mark yet counts as not marked. *)
Definition toggled (segment : TranscriptionSegment) : TranscriptionSegment :=
  {| start := start segment;
     end_ := end_ segment;
     text := text segment;
     translation := translation segment;
     idiomatic := idiomatic segment;
     idiomExplanation := idiomExplanation segment;
     isFavorite := negb (isFavorite segment) |}.

(** [handleToggleFavorite(index)] on the state [transcription]: the state it
    sets. Without a transcription it returns at once; past the end of the
    segments [newSegments[index]] is [undefined] and reading its [isFavorite]
    throws before anything is set. *)
Definition handleToggleFavorite (index : nat) (transcription : option TranscriptionResponse)
    : Completion TypeError (option TranscriptionResponse) :=
  match transcription with
  | None => Normal None
  | Some t =>
      let newSegments := segments t in
      match newSegments !! index with
      | Some segment =>
          Normal (Some {| language := language t;
                          meta := meta t;
                          segments := <[index := toggled segment]> newSegments |})
      | None => Abrupt (ReadOfUndefined "isFavorite")
      end
  end.

Inductive Tab := original | notes | favorites.

(** [displayedSegments]: the favourites on the favourites tab, every segment
    elsewhere, nothing without a transcription. *)
Definition displayedSegments (activeTab : Tab) (transcription : option TranscriptionResponse)
    : list TranscriptionSegment :=
  match activeTab, transcription with
  | favorites, Some t => List.filter isFavorite (segments t)
  | _, Some t => segments t
  | _, None => []
  end.

(** ** The audio tasks: [fileToBase64], [generateSpeech], [scorePronunciation],
    [transcribeAudio] *)

(** [result.split(',')[1] || result]: the text between the first and the
    second comma, and the whole text when there is no comma or nothing
    between them. *)
Definition base64_of (result : string) : string :=
  match Js.split "," result !! 1 with
  | Some piece => Js.or_else piece result
  | None => result
  end.

(** A [Blob] that is no [File], by its declared type. *)
Record Blob := mkBlob { blob_type : string }.

(** A part of the contents of a request. *)
Inductive Part :=
| InlineData (mimeType : PropValue) (data : string)
| TextPart (text : string).

(** What the audio tasks read of a reply: [response.text], and
    [response.candidates?.[0]?.content?.parts?.[0]?.inlineData?.data], each
    [undefined] ([None]) when the reply has no such part. *)
Record GenerateContentResponse := mkReply {
  reply_text : option string;
  reply_audio : option string
}.

(** The browser's [FileReader] and the primary provider's requests with
    parts. [readAsDataURL] yields [reader.result] after a successful read, or
    the event handed to [reject]. *)
Class Multimodal (W : Type) := {
  readAsDataURL : File + Blob -> W -> Completion JsError string * W;
  generateContentOf :
    string -> string -> list Part -> W -> Completion JsError GenerateContentResponse * W
}.

Definition TRANSCRIPTION_MODEL : string := "gemini-2.5-flash".
Definition TTS_MODEL : string := "gemini-2.5-flash-preview-tts".

(** An awaited promise outside [withRetry]: its rejection is the caller's. *)
Definition await {W A} (m : Eff W JsError A) : Eff W Thrown A :=
  try_catch m (fun error => throw (Some error)).

Section AudioTasks.
Context {W : Type} `{Platform W} `{Multimodal W}.

Definition fileToBase64 (file : File + Blob) : Eff W JsError string :=
  (result <- perform (readAsDataURL file) ;;
   ret (base64_of result))%eff.

(** The closure [generateSpeech] hands to [withRetry]; the request is marked
    in the trace. *)
Definition speech_attempt (text : string) : Eff W JsError string :=
  (apiKey <- getAi ;;
   response <- probe (generateContentOf apiKey TTS_MODEL [TextPart text]) ;;
   match reply_audio response with
   | Some audioData =>
       if Js.truthy audioData then ret audioData
       else throw (Error "No audio data returned")
   | None => throw (Error "No audio data returned")
   end)%eff.

Definition generateSpeech (text : string) : Eff W Thrown string :=
  withRetry (speech_attempt text) default_retries default_delayMs.

(** The template literal of the scoring prompt, with its line breaks and
    indentation. *)
Definition scoring_prompt (referenceText : string) : string :=
  Js.nl +:+ "    Listen to this user recording and compare it to the text: "
  +:+ Js.dq +:+ referenceText +:+ Js.dq +:+ "." +:+ Js.nl
  +:+ "    Grade the pronunciation accuracy from 0 to 100." +:+ Js.nl
  +:+ "    Provide brief feedback." +:+ Js.nl
  +:+ "    Return JSON: { score: number, feedback: string, accuracy: 'good'|'average'|'poor' }"
  +:+ Js.nl +:+ "  ".

(** The closure [scorePronunciation] hands to [withRetry]. *)
Definition scoring_attempt (base64Audio prompt : string) : Eff W JsError Json.value :=
  (apiKey <- getAi ;;
   response <- probe (generateContentOf apiKey TRANSCRIPTION_MODEL
                        [InlineData (PString "audio/webm") base64Audio; TextPart prompt]) ;;
   match reply_text response with
   | Some text =>
       if Js.truthy text then cleanAndParseJson (Some text)
       else throw (Error "Scoring failed")
   | None => throw (Error "Scoring failed")
   end)%eff.

Definition scorePronunciation (userAudio : Blob) (referenceText : string)
    : Eff W Thrown Json.value :=
  (base64Audio <- await (fileToBase64 (inr userAudio)) ;;
   let prompt := scoring_prompt referenceText in
   withRetry (scoring_attempt base64Audio prompt) default_retries default_delayMs)%eff.

End AudioTasks.

(** [transcribeAudio] up to the parsed reply. Two things are left open, and
    what is proved holds however they are filled in: [inherited_text], the
    text a template literal shows for the value read under a name of
    [Object.prototype]; and [finish], the two statements that replace
    [parsed.segments] by the merged segments and return [parsed], which work
    on the untyped value, do no input or output, and throw a [TypeError] on a
    reply of another shape. *)
Section Transcription.
Context {W R : Type} `{Platform W} `{Multimodal W}.
Variable inherited_text : string -> string.
Variable finish : Json.value -> Completion JsError R.

(** [`${mimeType}`]. *)
Definition mime_text (mimeType : PropValue) : string :=
  match mimeType with
  | PString mime => mime
  | PInherited key => inherited_text key
  end.

Definition upload_log (file : File) (mimeType : PropValue) : Event :=
  Console LevelLog
    ("Uploading file: " +:+ name file +:+ ", Detected MIME: " +:+ mime_text mimeType
     +:+ " (Original: " +:+ type file +:+ ")")
    None.

(** The closure [transcribeAudio] hands to [withRetry]. *)
Definition transcription_attempt (mimeType : PropValue) (base64Audio : string)
    : Eff W JsError R :=
  (apiKey <- getAi ;;
   response <- probe (generateContentOf apiKey TRANSCRIPTION_MODEL
                        [InlineData mimeType base64Audio; TextPart "Generate JSON."]) ;;
   match reply_text response with
   | Some text =>
       if Js.truthy text then
         parsed <- cleanAndParseJson (Some text) ;;
         match finish parsed with
         | Normal result => ret result
         | Abrupt error => throw error
         end
       else throw (Error "Empty response from Gemini")
   | None => throw (Error "Empty response from Gemini")
   end)%eff.

Definition transcribeAudio (file : File) : Eff W Thrown R :=
  (base64Audio <- await (fileToBase64 (inl file)) ;;
   let mimeType := getCorrectMimeType file in
   emit (upload_log file mimeType) ;;
   withRetry (transcription_attempt mimeType base64Audio) default_retries default_delayMs)%eff.

End Transcription.

(** *** What a task may cost *)

(** [response] is a reply of the primary provider to the request of [parts]
    to the model [modelName], made with the configured key. *)
Definition answers {W} `{Platform W} `{Multimodal W} (modelName : string) (parts : list Part)
    (response : GenerateContentResponse) : Prop :=
  exists apiKey w w',
    API_KEY process_env = Some apiKey
    /\ generateContentOf apiKey modelName parts w = (Normal response, w').

(** The requests sent to the primary provider with a text prompt, in order. *)
Fixpoint generations (t : list Event) : list (string * string * string) :=
  match t with
  | [] => []
  | GenerateContent apiKey modelName contents :: t' =>
      (apiKey, modelName, contents) :: generations t'
  | _ :: t' => generations t'
  end.

(** The error of [getAi] without a key. *)
Definition missing_key : JsError :=
  Error "API Key is missing. Please check your deployment environment variables.".

(** *** Platforms for the examples *)

(** No key for the primary provider, one for the secondary. *)
Definition keyless_platform : Platform nat :=
  {| process_env := mkEnv None (Some "fallback-key");
     generateContent := fun _ _ _ n => (Abrupt (Error "401 Unauthorized"), S n);
     fetch := fun _ n =>
       (Normal (mkResponse true "OK" (Normal (Some sample_definition))), S n) |}.

(** A reader that yields a short recording and a provider that answers every
    request with a score and a sound. *)
Definition sample_studio : Multimodal nat :=
  {| readAsDataURL := fun _ n => (Normal "data:audio/webm;base64,GkXfo59ChoEB", S n);
     generateContentOf := fun _ _ _ n =>
       (Normal (mkReply (Some "{}") (Some "UklGRg==")), S n) |}.

(** ** historyDb *)

Module HistoryDb.

(** The object [save] builds: the fields of a [HistoryEntry]. *)
Record HistoryEntry := mkEntry {
  id : string;
  fileName : string;
  date : Z;
  audioBlob : File;
  transcription : TranscriptionResponse
}.

(** The clock and the object store [history] of the database
    [LinguaSyncDB], whose key path is [id]. [idb_open] is the request of
    [openDB], which creates the store when the database is new; the other
    three are the requests on the store. Each request succeeds or fails with
    [request.error]. *)
Class IndexedDB (W : Type) := {
  Date_now : W -> Z * W;
  idb_open : W -> Completion JsError unit * W;
  store_put : HistoryEntry -> W -> Completion JsError unit * W;
  store_getAll : W -> Completion JsError (list HistoryEntry) * W;
  store_delete : string -> W -> Completion JsError unit * W
}.

(** [results.sort((a, b) => b.date - a.date)]: the comparator is a total
    preorder on the dates, and the sort is stable, so the result is the one of
    inserting each entry, from the last to the first, before the first entry
    that is not later than it. *)
Fixpoint insert_by_date (entry : HistoryEntry) (sorted : list HistoryEntry)
    : list HistoryEntry :=
  match sorted with
  | [] => [entry]
  | a :: sorted' =>
      if (date entry <? date a)%Z then a :: insert_by_date entry sorted'
      else entry :: a :: sorted'
  end.

Definition sort_by_date (results : list HistoryEntry) : list HistoryEntry :=
  foldr insert_by_date [] results.

Section Requests.
Context {W : Type} `{IndexedDB W}.

Definition openDB : Eff W JsError unit := perform idb_open.

(** [Date.now()]. *)
Definition now : Eff W JsError Z :=
  perform (fun w => let '(t, w') := Date_now w in (Normal t, w')).

(** [Date.now()] is read twice, for [id] and then for [date]. *)
Definition save (file : File) (transcription : TranscriptionResponse) : Eff W JsError unit :=
  (openDB ;;
   first_reading <- now ;;
   second_reading <- now ;;
   let entry :=
     mkEntry (decimal first_reading) (name file) second_reading file transcription in
   perform (store_put entry))%eff.

Definition getAll : Eff W JsError (list HistoryEntry) :=
  (openDB ;;
   results <- perform store_getAll ;;
   ret (sort_by_date results))%eff.

Definition delete (key : string) : Eff W JsError unit :=
  (openDB ;; perform (store_delete key))%eff.

End Requests.

(** *** An object store that works *)

(** The records of the store, in ascending order of their keys; the readings
    of the clock, and how many were taken. *)
Record Browser := mkBrowser {
  time : nat -> Z;
  reads : nat;
  records : list HistoryEntry
}.

(** [store.put(entry)]: the record with the key of [entry] is replaced, a new
    key is inserted at its place in the order of the keys. *)
Fixpoint put_record (entry : HistoryEntry) (stored : list HistoryEntry)
    : list HistoryEntry :=
  match stored with
  | [] => [entry]
  | a :: stored' =>
      match String.compare (id entry) (id a) with
      | Lt => entry :: a :: stored'
      | Eq => entry :: stored'
      | Gt => a :: put_record entry stored'
      end
  end.

(** [store.delete(key)]. *)
Definition delete_record (key : string) (stored : list HistoryEntry) : list HistoryEntry :=
  List.filter (fun a => negb (String.eqb (id a) key)) stored.

(** A browser in which no request fails. *)
Definition browser : IndexedDB Browser :=
  {| Date_now := fun w => (time w (reads w), mkBrowser (time w) (S (reads w)) (records w));
     idb_open := fun w => (Normal tt, w);
     store_put := fun entry w =>
       (Normal tt, mkBrowser (time w) (reads w) (put_record entry (records w)));
     store_getAll := fun w => (Normal (records w), w);
     store_delete := fun key w =>
       (Normal tt, mkBrowser (time w) (reads w) (delete_record key (records w))) |}.

(** The keys of the store are in strictly ascending order. *)
Definition keys_ascending (stored : list HistoryEntry) : Prop :=
  StronglySorted (fun a b => String.compare (id a) (id b) = Lt) stored.

(** No entry is later than one before it. *)
Definition latest_first (entries : list HistoryEntry) : Prop :=
  StronglySorted (fun a b => (date b <= date a)%Z) entries.

(** The entries of a given date, in order. *)
Definition dated (d : Z) (entries : list HistoryEntry) : list HistoryEntry :=
  List.filter (fun a => (date a =? d)%Z) entries.

(** *** Saving, listing and deleting in the browser that works *)

(** The entry [save] stores when the clock reads [first_reading] and then
    [second_reading]. *)
Definition saved_entry (first_reading second_reading : Z) (file : File)
    (result : TranscriptionResponse) : HistoryEntry :=
  mkEntry (decimal first_reading) (name file) second_reading file result.

(** The store after [save], [delete] and what [getAll] lists, in [browser]. *)
Definition after_save (file : File) (result : TranscriptionResponse) (w : Browser) : Browser :=
  world_after (@save Browser browser file result w).

Definition after_delete (key : string) (w : Browser) : Browser :=
  world_after (@delete Browser browser key w).

Definition listed (w : Browser) : Completion JsError (list HistoryEntry) :=
  outcome (@getAll Browser browser w).

(** A browser with an empty store whose clock advances by one millisecond
    at each reading. *)
Definition fresh_browser : Browser :=
  mkBrowser (fun n => 1700000000000 + Z.of_nat n)%Z 0 [].

(** A browser with an empty store whose clock stands still. *)
Definition fast_browser : Browser :=
  mkBrowser (fun _ => 1700000000000%Z) 0 [].

Definition sample_transcription : TranscriptionResponse :=
  mkTranscription "en-US" (mkMeta 2 "B1" "normal") [].

End HistoryDb.

(** ** App: the state of the application *)

(** [AppState] is declared in [types.ts], which is not among the sources:
    its members, as [App.tsx] names them. *)
Inductive AppState := IDLE | PROCESSING | READY | SHADOWING | ERROR.

(** The object [setAudioFile] receives. *)
Record AudioFileMetadata := mkAudioFile {
  audio_name : string;
  audio_size : Z;
  audio_type : string;
  audio_url : string;
  originalFile : File
}.

(** The seven state variables of the component. *)
Record Model := mkModel {
  appState : AppState;
  audioFile : option AudioFileMetadata;
  transcription : option TranscriptionResponse;
  currentTime : float;
  activeTab : Tab;
  errorDetails : option string;
  isHistoryOpen : bool
}.

(** The arguments of the [useState] calls. *)
Definition initial : Model :=
  mkModel IDLE None None 0 original None false.

(** [handleFileSelected] up to its first [await]: the three setters before
    [transcribeAudio] is called. [size] is [file.size] and [url] what
    [URL.createObjectURL] returned. *)
Definition selection_started (file : File) (size : Z) (url : string) (m : Model) : Model :=
  mkModel PROCESSING (Some (mkAudioFile (name file) size (type file) url file)) (transcription m)
    (currentTime m) (activeTab m) None (isHistoryOpen m).

(** [handleFileSelected] after [transcribeAudio] has resolved and the attempt
    to save the session has settled, whichever way: the last two setters of
    the [try] block. *)
Definition selection_resolved (result : TranscriptionResponse) (m : Model) : Model :=
  mkModel READY (audioFile m) (Some result) (currentTime m) (activeTab m) (errorDetails m)
    (isHistoryOpen m).

(** The [catch] block, for the text [msg] it took from what was thrown. *)
Definition selection_rejected (msg : string) (m : Model) : Model :=
  mkModel ERROR (audioFile m) (transcription m) (currentTime m) (activeTab m)
    (Some (errorDetails_for msg)) (isHistoryOpen m).

Definition handleReset (m : Model) : Model :=
  mkModel IDLE None None 0 (activeTab m) None (isHistoryOpen m).

(** [handleLoadHistory(entry)]; [url] is what [URL.createObjectURL] returned
    for the stored blob, [size] its size. *)
Definition handleLoadHistory (entry : HistoryDb.HistoryEntry) (size : Z) (url : string)
    (m : Model) : Model :=
  mkModel READY
    (Some (mkAudioFile (HistoryDb.fileName entry) size (type (HistoryDb.audioBlob entry)) url
             (HistoryDb.audioBlob entry)))
    (Some (HistoryDb.transcription entry)) 0 (activeTab m) None false.

(** The state after [handleToggleFavorite(index)]: a handler that throws
    sets nothing. *)
Definition favorite_toggled (index : nat) (m : Model) : Model :=
  match handleToggleFavorite index (transcription m) with
  | Normal t =>
      mkModel (appState m) (audioFile m) t (currentTime m) (activeTab m) (errorDetails m)
        (isHistoryOpen m)
  | Abrupt _ => m
  end.

(** What can happen to the application: the user's actions, and the end of
    an analysis started earlier. An analysis that fails carries the text taken
    from what was thrown, or nothing when taking it failed, in which case the
    [catch] block throws itself and sets nothing. *)
Inductive Happening :=
| FileSelected (file : File) (size : Z) (url : string)
| AnalysisResolved (result : TranscriptionResponse)
| AnalysisRejected (msg : option string)
| BackPressed
| HistoryOpened
| HistoryClosed
| HistoryEntrySelected (entry : HistoryDb.HistoryEntry) (size : Z) (url : string)
| TabSelected (tab : Tab)
| FavoriteToggled (index : nat)
| TimeChanged (time : float)
| ShadowingEntered
| ShadowingClosed.

Definition is_set {A} (x : option A) : bool :=
  match x with Some _ => true | None => false end.

(** One happening, on the state and the number of analyses under way;
    [None] when the view does not offer it. The upload is rendered in [IDLE]
    only, the player that enters shadowing in [READY] with an audio file, the
    shadowing view in [SHADOWING] with a transcription; an analysis can only
    end when one is under way. The other controls are taken to be always
    there. *)
Definition happen (h : Happening) (s : Model * nat) : option (Model * nat) :=
  let '(m, pending) := s in
  match h with
  | FileSelected file size url =>
      match appState m with
      | IDLE => Some (selection_started file size url m, S pending)
      | _ => None
      end
  | AnalysisResolved result =>
      match pending with
      | S pending' => Some (selection_resolved result m, pending')
      | O => None
      end
  | AnalysisRejected msg =>
      match pending with
      | S pending' =>
          Some (match msg with Some text => selection_rejected text m | None => m end, pending')
      | O => None
      end
  | BackPressed => Some (handleReset m, pending)
  | HistoryOpened =>
      Some (mkModel (appState m) (audioFile m) (transcription m) (currentTime m) (activeTab m)
              (errorDetails m) true, pending)
  | HistoryClosed =>
      Some (mkModel (appState m) (audioFile m) (transcription m) (currentTime m) (activeTab m)
              (errorDetails m) false, pending)
  | HistoryEntrySelected entry size url => Some (handleLoadHistory entry size url m, pending)
  | TabSelected tab =>
      Some (mkModel (appState m) (audioFile m) (transcription m) (currentTime m) tab
              (errorDetails m) (isHistoryOpen m), pending)
  | FavoriteToggled index => Some (favorite_toggled index m, pending)
  | TimeChanged time =>
      Some (mkModel (appState m) (audioFile m) (transcription m) time (activeTab m)
              (errorDetails m) (isHistoryOpen m), pending)
  | ShadowingEntered =>
      match appState m with
      | READY =>
          if is_set (audioFile m) then
            Some (mkModel SHADOWING (audioFile m) (transcription m) (currentTime m) (activeTab m)
                    (errorDetails m) (isHistoryOpen m), pending)
          else None
      | _ => None
      end
  | ShadowingClosed =>
      match appState m with
      | SHADOWING =>
          if is_set (transcription m) then
            Some (mkModel READY (audioFile m) (transcription m) (currentTime m) (activeTab m)
                    (errorDetails m) (isHistoryOpen m), pending)
          else None
      | _ => None
      end
  end.

(** A sequence of happenings, from a state. *)
Fixpoint happenings (hs : list Happening) (s : Model * nat) : option (Model * nat) :=
  match hs with
  | [] => Some s
  | h :: hs' =>
      match happen h s with
      | Some s' => happenings hs' s'
      | None => None
      end
  end.

(** Whether the main area renders the transcript (or the notes or the empty
    favourites): [appState === READY && transcription && audioFile]. *)
Definition renders_content (m : Model) : bool :=
  match appState m with
  | READY => is_set (transcription m) && is_set (audioFile m)
  | _ => false
  end.

(** What holds of the state whatever has happened. *)
Definition consistent (m : Model) : Prop :=
  match appState m with
  | IDLE => audioFile m = None /\ transcription m = None /\ errorDetails m = None
  | PROCESSING => is_set (audioFile m) = true /\ errorDetails m = None
  | READY | SHADOWING => is_set (transcription m) = true
  | ERROR => is_set (errorDetails m) = true
  end.

(** * Properties *)

(** ** JavaScript strings *)

Lemma append_String c s t : String c s +:+ t = String c (s +:+ t).
Proof. reflexivity. Qed.

Lemma append_empty t : EmptyString +:+ t = t.
Proof. reflexivity. Qed.

Lemma append_assoc (a b c : string) : (a +:+ b) +:+ c = a +:+ (b +:+ c).
Proof. induction a as [|x a IH]; [done|]. by rewrite !append_String, IH. Qed.

Lemma append_nil_r (a : string) : a +:+ EmptyString = a.
Proof. induction a as [|x a IH]; [done|]. by rewrite append_String, IH. Qed.

Lemma append_length (a b : string) : String.length (a +:+ b) = String.length a + String.length b.
Proof. induction a as [|x a IH]; [done|]. rewrite append_String. simpl. by rewrite IH. Qed.

Lemma startsWith_spec s p : Js.startsWith s p = true <-> exists post, s = p +:+ post.
Proof.
  revert s. induction p as [|b p IH]; intros s; simpl.
  - split; [by exists s | done].
  - destruct s as [|a s]; simpl.
    + split; [done | by intros [post ?]].
    + destruct (Ascii.eqb_spec a b) as [->|Hne].
      * rewrite IH. split; intros [post Hpost]; exists post;
          rewrite append_String in *; congruence.
      * split; [done|]. intros [post Hpost]. rewrite append_String in Hpost. congruence.
Qed.

Lemma startsWith_slice s p :
  Js.startsWith s p = true -> s = p +:+ Js.slice (String.length p) s.
Proof.
  revert s. induction p as [|b p IH]; intros s; [done|].
  destruct s as [|a s]; [done|]. simpl.
  destruct (Ascii.eqb_spec a b) as [->|]; [|done].
  intros Hs. rewrite append_String. f_equal. by apply IH.
Qed.





Lemma split_without_separator sep s :
  Js.includes s (String sep EmptyString) = false -> Js.split sep s = [s].
Proof.
  induction s as [|c s IH]; simpl; [done|].
  destruct (Ascii.eqb_spec c sep) as [->|Hne].
  - destruct s; simpl; done.
  - simpl. intros Hs. rewrite IH; done.
Qed.

Lemma split_not_nil sep s : Js.split sep s <> [].
Proof.
  destruct s as [|c s]; simpl; [done|].
  destruct (Ascii.eqb c sep); [done|]. by destruct (Js.split sep s).
Qed.

Lemma split_at_separator sep pre ext :
  exists p ps, Js.split sep (pre +:+ String sep ext) = p :: ps ++ Js.split sep ext.
Proof.
  induction pre as [|c pre (p & ps & IH)]; simpl.
  - rewrite Ascii.eqb_refl. by exists EmptyString, [].
  - rewrite IH. destruct (Ascii.eqb c sep).
    + by exists EmptyString, (p :: ps).
    + by exists (String c p), ps.
Qed.

(** The last piece of a split is what follows the final separator. *)
Lemma last_split_after sep pre ext :
  last (Js.split sep (pre +:+ String sep ext)) = last (Js.split sep ext).
Proof.
  destruct (split_at_separator sep pre ext) as (p & ps & ->).
  change (p :: ps ++ Js.split sep ext) with ((p :: ps) ++ Js.split sep ext).
  rewrite last_app.
  destruct (last (Js.split sep ext)) eqn:E; [done|].
  apply last_None in E. by destruct (split_not_nil sep ext).
Qed.

Lemma split_spaces_from_pos b s : 1 <= length (Js.split_spaces_from b s).
Proof.
  revert b. induction s as [|c s IH]; intros b; simpl; [lia|].
  destruct (Js.is_space c).
  - destruct b; simpl; [apply IH|lia].
  - destruct (Js.split_spaces_from false s); simpl; lia.
Qed.

Lemma split_spaces_from_length_nonspace b c s :
  Js.is_space c = false ->
  length (Js.split_spaces_from b (String c s)) = length (Js.split_spaces_from false s).
Proof.
  intros Hc. simpl. rewrite Hc.
  pose proof (split_spaces_from_pos false s) as Hpos.
  by destruct (Js.split_spaces_from false s); [simpl in Hpos; lia|].
Qed.

Lemma count_words_le_pieces s :
  (forall b, count_words_from false s <= length (Js.split_spaces_from b s))
  /\ count_words_from true s + 1 <= length (Js.split_spaces_from false s).
Proof.
  induction s as [|c s [IH1 IH2]]; [simpl; split; [intros; lia | lia]|].
  destruct (Js.is_space c) eqn:Hc.
  - specialize (IH1 true). split.
    + intros b. simpl. rewrite Hc. destruct b; simpl; lia.
    + simpl. rewrite Hc. simpl. lia.
  - split; [intros b|]; rewrite split_spaces_from_length_nonspace by done;
      simpl; rewrite Hc; lia.
Qed.

Lemma word_count_le_pieces s : word_count s <= length (Js.split_spaces s).
Proof. apply count_words_le_pieces. Qed.

Lemma ends_with_space_cons c s :
  ends_with_space (String c s) = match s with EmptyString => Js.is_space c | _ => ends_with_space s end.
Proof. by destruct s. Qed.

Lemma split_spaces_from_count s :
  length (Js.split_spaces_from true s)
    = count_words_from false s
      + (match s with EmptyString => 1 | _ => Nat.b2n (ends_with_space s) end)
  /\ length (Js.split_spaces_from false s)
    = count_words_from true s + 1 + Nat.b2n (ends_with_space s).
Proof.
  induction s as [|c s [IH1 IH2]]; [done|].
  rewrite ends_with_space_cons.
  destruct (Js.is_space c) eqn:Hc.
  - split; simpl; rewrite Hc; simpl; rewrite IH1; destruct s; simpl; lia.
  - split; rewrite split_spaces_from_length_nonspace by done; simpl; rewrite Hc, IH2;
      destruct s; simpl; lia.
Qed.

(** The count the merger takes is the number of words, plus one when the
    text is empty or starts with white space, plus one when it ends with
    white space. *)
Lemma pieces_and_words s :
  length (Js.split_spaces s)
    = word_count s
      + Nat.b2n (String.eqb s "" || starts_with_space s)
      + Nat.b2n (ends_with_space s).
Proof.
  unfold Js.split_spaces, word_count. destruct s as [|c s]; [done|].
  destruct (split_spaces_from_count s) as [H1 H2].
  rewrite ends_with_space_cons.
  destruct (Js.is_space c) eqn:Hc.
  - simpl. rewrite Hc. simpl. rewrite H1. destruct s; simpl; lia.
  - rewrite split_spaces_from_length_nonspace by done. simpl. rewrite Hc, H2.
    destruct s; simpl; lia.
Qed.

Lemma last_char_cons c s :
  last_char (String c s) = match s with EmptyString => Some c | _ => last_char s end.
Proof. by destruct s. Qed.

Lemma last_char_app a b : b <> EmptyString -> last_char (a +:+ b) = last_char b.
Proof.
  intros Hb. induction a as [|x a IH]; [done|].
  rewrite append_String, last_char_cons, IH. destruct (a +:+ b) eqn:E; [|done].
  destruct a, b; done.
Qed.

Lemma last_char_snoc a c : last_char (a +:+ String c EmptyString) = Some c.
Proof. by rewrite last_char_app. Qed.

(** What [\s*] leaves is a suffix. *)
Lemma skip_spaces_suffix s : exists ws, all_spaces ws = true /\ s = ws +:+ Js.skip_spaces s.
Proof.
  induction s as [|c s (ws & Hws & IH)]; [by exists EmptyString|]. simpl.
  destruct (Js.is_space c) eqn:Hc.
  - exists (String c ws). simpl. rewrite Hc, Hws. split; [done|]. by rewrite append_String, <- IH.
  - by exists EmptyString.
Qed.

Lemma skip_spaces_all ws s :
  all_spaces ws = true -> Js.skip_spaces (ws +:+ s) = Js.skip_spaces s.
Proof.
  induction ws as [|c ws IH]; [done|]. simpl. intros [Hc Hws]%andb_true_iff.
  rewrite ?append_String. simpl. rewrite Hc. by apply IH.
Qed.

Lemma skip_spaces_solid s : starts_with_space s = false -> Js.skip_spaces s = s.
Proof. destruct s as [|c s]; [done|]. simpl. by intros ->. Qed.

Lemma all_spaces_ends s :
  s <> EmptyString -> all_spaces s = true -> ends_with_space s = true.
Proof.
  induction s as [|c s IH]; [done|]. intros _. rewrite ends_with_space_cons. simpl.
  intros [Hc Hs]%andb_true_iff. destruct s as [|c' s]; [done|]. by apply IH.
Qed.

Lemma skip_spaces_head s d rest : Js.skip_spaces s = String d rest -> Js.is_space d = false.
Proof.
  induction s as [|c s IH]; [done|]. simpl. destruct (Js.is_space c) eqn:Hc; [done|].
  by intros [= <- _].
Qed.

(** ** Order on binary64 *)

Lemma SFcompare_flip x y :
  SFcompare y x = match SFcompare x y with Some c => Some (CompOpp c) | None => None end.
Proof.
  destruct x as [sx|sx| |sx mx ex], y as [sy|sy| |sy my ey]; simpl; try done;
    try (destruct sx; done); try (destruct sy; done);
    try (destruct sx, sy; done).
  destruct sx, sy; simpl; try done;
    rewrite (Z.compare_antisym ex ey); destruct (ex ?= ey)%Z eqn:E; simpl; try done.
  - rewrite CompOpp_involutive. exact (f_equal Some (Pos.compare_cont_antisym my mx Eq)).
  - exact (f_equal Some (eq_sym (Pos.compare_cont_antisym mx my Eq))).
Qed.

Lemma SFleb_trans x y z : SFleb x y = true -> SFleb y z = true -> SFleb x z = true.
Proof.
  unfold SFleb.
  destruct x as [sx|sx| |sx mx ex], y as [sy|sy| |sy my ey], z as [sz|sz| |sz mz ez];
    simpl; try done;
    repeat match goal with s : bool |- _ => destruct s end; simpl; try done.
  all: change PosDef.Pos.compare_cont with Pos.compare_cont.
  all: fold (Pos.compare mx my); fold (Pos.compare my mz); fold (Pos.compare mx mz).
  all: destruct (Z.compare_spec ex ey), (Z.compare_spec ey ez), (Z.compare_spec ex ez);
    try lia; simpl; try done;
    destruct (Pos.compare_spec mx my), (Pos.compare_spec my mz), (Pos.compare_spec mx mz);
    simpl; try done; lia.
Qed.

(** [x <= y] excludes [y < x]. *)
Lemma float_le_not_lt (x y : float) : float_le x y -> (y <? x)%float = false.
Proof.
  unfold float_le. rewrite leb_spec, ltb_spec. unfold SFleb, SFltb.
  rewrite (SFcompare_flip (Prim2SF x) (Prim2SF y)).
  destruct (SFcompare (Prim2SF x) (Prim2SF y)) as [[]|]; simpl; done.
Qed.

Lemma float_le_trans : Transitive float_le.
Proof. intros x y z. unfold float_le. rewrite !leb_spec. apply SFleb_trans. Qed.

(** ** MimeResolver *)

Lemma knownMimeTypes_hit key mime :
  knownMimeTypes !! key = Some mime -> Js.truthy key = true /\ Js.truthy mime = true.
Proof.
  intros Hk. apply elem_of_list_to_map_2 in Hk.
  repeat (apply elem_of_cons in Hk as [Hk|Hk]; [injection Hk as -> ->; done|]).
  by apply elem_of_nil in Hk.
Qed.

Lemma undeclared_type file :
  type file = ""
  \/ (Js.startsWith (type file) "audio/" = false /\ Js.startsWith (type file) "video/" = false)
  <-> declared_audio_or_video file = false.
Proof.
  unfold declared_audio_or_video. split.
  - intros [-> | [-> ->]]; [done|]. by rewrite andb_false_r.
  - intros Hd. apply andb_false_iff in Hd as [Hd|Hd].
    + left. unfold Js.truthy in Hd. apply negb_false_iff in Hd. by apply String.eqb_eq in Hd.
    + right. by apply orb_false_iff in Hd.
Qed.

(** A declared audio or video type is returned as it is. *)
Lemma declared_type_verbatim file :
  type file <> "" ->
  Js.startsWith (type file) "audio/" = true \/ Js.startsWith (type file) "video/" = true ->
  getCorrectMimeType file = PString (type file).
Proof.
  intros Hne Hpre. unfold getCorrectMimeType, declared_audio_or_video, Js.truthy.
  apply String.eqb_neq in Hne. rewrite Hne. cbn [negb andb].
  destruct Hpre as [-> | ->]; [done|]. by rewrite orb_true_r.
Qed.

(** The extension is the lower-cased text after the final dot. *)
Lemma extension_after_final_dot pre ext ty :
  Js.includes ext "." = false ->
  extension (mkFile (pre +:+ "." +:+ ext) ty) = Some (Js.toLowerCase ext).
Proof.
  intros Hext. unfold extension.
  change (name (mkFile (pre +:+ "." +:+ ext) ty)) with (pre +:+ String "." ext).
  rewrite (last_split_after "." pre ext). by rewrite split_without_separator.
Qed.

(** Outside the names of [Object.prototype], the resolver is the table with
    its default. *)
Lemma getCorrectMimeType_table file :
  (forall ext, extension file = Some ext -> ext ∉ Object_prototype) ->
  getCorrectMimeType file =
    if declared_audio_or_video file then PString (type file)
    else match extension file ≫= (fun ext => knownMimeTypes !! ext) with
         | Some mime => PString mime
         | None => PString "audio/mp3"
         end.
Proof.
  intros Hproto. unfold getCorrectMimeType.
  destruct (declared_audio_or_video file); [done|].
  destruct (extension file) as [ext|] eqn:Hext; [|done]. simpl.
  unfold get_property. destruct (knownMimeTypes !! ext) as [mime|] eqn:Hm.
  - destruct (knownMimeTypes_hit _ _ Hm) as [-> Hmime]. simpl. by rewrite Hmime.
  - rewrite bool_decide_eq_false_2 by eauto. simpl. by rewrite andb_false_r.
Qed.

Lemma getCorrectMimeType_table_witness :
  getCorrectMimeType (mkFile "talk.OGA" "application/octet-stream") = PString "audio/ogg".
Proof.
  rewrite (getCorrectMimeType_table (mkFile "talk.OGA" "application/octet-stream")).
  - reflexivity.
  - intros ext [= <-]. apply (bool_decide_eq_false_1 _). reflexivity.
Defined.

(** The three resolutions the specification lists. *)
Lemma getCorrectMimeType_examples :
  getCorrectMimeType (mkFile "clip.M4A" "") = PString "audio/mp4"
  /\ getCorrectMimeType (mkFile "x.bin" "application/octet-stream") = PString "audio/mp3"
  /\ getCorrectMimeType (mkFile "a.wav" "audio/x-custom") = PString "audio/x-custom".
Proof. repeat split; vm_compute; reflexivity. Qed.

(** C5: the claim that every extension outside the table resolves to
    [audio/mp3] fails on the code: the table is an object literal, so reading
    [knownMimeTypes[ext]] also finds what [Object.prototype] provides. The
    extension [constructor] is no entry of the table, and the resolver returns
    the inherited constructor function instead of a string, with an empty
    declared type as with one that is neither audio nor video. *)
Theorem getCorrectMimeType_inherited_property :
  knownMimeTypes !! "constructor" = None
  /\ extension (mkFile "x.constructor" "") = Some "constructor"
  /\ getCorrectMimeType (mkFile "x.constructor" "") = PInherited "constructor"
  /\ getCorrectMimeType (mkFile "x.constructor" "application/ogg") = PInherited "constructor"
  /\ getCorrectMimeType (mkFile "x.constructor" "") <> PString "audio/mp3".
Proof. repeat split; try (vm_compute; reflexivity). vm_compute. discriminate. Qed.

(** C10: when the declared type is empty or neither audio nor video and the
    file name has no dot, the key looked up is the whole lower-cased name; a
    hit in the table is the result, a miss gives [audio/mp3], and [audio/mp3]
    is only returned on a miss (or as the entry found). The file [ogg]
    resolves to [audio/ogg]. *)
Theorem dotless_name_is_looked_up_whole (file : File) :
  type file = ""
  \/ (Js.startsWith (type file) "audio/" = false /\ Js.startsWith (type file) "video/" = false) ->
  Js.includes (name file) "." = false ->
  let key := Js.toLowerCase (name file) in
  extension file = Some key
  /\ (forall mime, knownMimeTypes !! key = Some mime -> getCorrectMimeType file = PString mime)
  /\ (get_property knownMimeTypes key = None -> getCorrectMimeType file = PString "audio/mp3")
  /\ (getCorrectMimeType file = PString "audio/mp3" ->
      knownMimeTypes !! key = None \/ knownMimeTypes !! key = Some "audio/mp3")
  /\ getCorrectMimeType (mkFile "ogg" "") = PString "audio/ogg".
Proof.
  intros Hty Hdot key. apply undeclared_type in Hty.
  assert (Hext : extension file = Some key).
  { unfold extension. by rewrite (split_without_separator "." _ Hdot). }
  assert (Hhit : forall mime,
             knownMimeTypes !! key = Some mime -> getCorrectMimeType file = PString mime).
  { intros mime Hm. unfold getCorrectMimeType, get_property. rewrite Hty, Hext, Hm. simpl.
    destruct (knownMimeTypes_hit _ _ Hm) as [-> ->]. done. }
  repeat split; try done.
  - intros Hnone. unfold getCorrectMimeType. rewrite Hty, Hext, Hnone. simpl.
    by rewrite andb_false_r.
  - intros Hres. destruct (knownMimeTypes !! key) as [mime|] eqn:Hm; [|by left].
    right. rewrite (Hhit mime eq_refl) in Hres. by injection Hres as ->.
Qed.

Lemma dotless_name_is_looked_up_whole_witness :
  extension (mkFile "ogg" "") = Some "ogg"
  /\ getCorrectMimeType (mkFile "ogg" "") = PString "audio/ogg".
Proof.
  destruct (dotless_name_is_looked_up_whole (mkFile "ogg" "")) as (Hext & Hhit & _).
  - left. reflexivity.
  - reflexivity.
  - split; [exact Hext|]. apply Hhit. vm_compute. reflexivity.
Defined.

(** ** FileUpload *)

Lemma lower_char_idempotent c : Js.lower_char (Js.lower_char c) = Js.lower_char c.
Proof. by destruct c as [[] [] [] [] [] [] [] []]. Qed.

Lemma toLowerCase_idempotent s : Js.toLowerCase (Js.toLowerCase s) = Js.toLowerCase s.
Proof. induction s as [|c s IH]; [done|]. simpl. by rewrite lower_char_idempotent, IH. Qed.

Lemma lower_char_dot c : Ascii.eqb (Js.lower_char c) "." = Ascii.eqb c ".".
Proof. by destruct c as [[] [] [] [] [] [] [] []]. Qed.

(** Lower-casing commutes with splitting at the dots. *)
Lemma split_toLowerCase s :
  Js.split "." (Js.toLowerCase s) = Js.toLowerCase <$> Js.split "." s.
Proof.
  induction s as [|c s IH]; [done|]. simpl. rewrite lower_char_dot, IH.
  destruct (Ascii.eqb c "."); [done|].
  pose proof (split_not_nil "." s). by destruct (Js.split "." s).
Qed.

Lemma extension_toLowerCase n ty :
  extension (mkFile (Js.toLowerCase n) ty) = extension (mkFile n ty).
Proof.
  unfold extension. simpl. rewrite split_toLowerCase, fmap_last, <- option_fmap_compose.
  destruct (last (Js.split "." n)) as [ext|]; [|done]. simpl.
  by rewrite toLowerCase_idempotent.
Qed.

Lemma extension_of_lowered file :
  extension file = last (Js.split "." (Js.toLowerCase (name file))).
Proof. unfold extension. by rewrite split_toLowerCase, fmap_last. Qed.

(** The resolver does not look at the case of the file name: the extension
    is lower-cased before the lookup, and lower-casing the whole name first
    changes nothing. The declared type, by contrast, is compared as it is. *)
Theorem getCorrectMimeType_ignores_name_case (n ty : string) :
  getCorrectMimeType (mkFile (Js.toLowerCase n) ty) = getCorrectMimeType (mkFile n ty).
Proof.
  unfold getCorrectMimeType, declared_audio_or_video. simpl.
  by rewrite extension_toLowerCase.
Qed.

Lemma valid_extension_here_spec s :
  valid_extension_here s = true
  <-> exists alternative, s = String "." alternative /\ alternative ∈ extension_alternatives.
Proof.
  unfold valid_extension_here. destruct s as [|c alternative].
  { split; [done | by intros (? & ? & _)]. }
  rewrite andb_true_iff, existsb_exists, Ascii.eqb_eq. split.
  - intros (-> & alt & Hin & <-%String.eqb_eq). exists alternative.
    split; [done | by apply list_elem_of_In].
  - intros (alt & [= -> ->] & Hin). split; [done|]. exists alt.
    rewrite String.eqb_refl. split; [by apply list_elem_of_In | done].
Qed.

Lemma hasValidExtension_spec s :
  hasValidExtension s = true
  <-> exists stem alternative,
        s = stem +:+ "." +:+ alternative /\ alternative ∈ extension_alternatives.
Proof.
  induction s as [|c s IH].
  - split; [done|]. intros (stem & alternative & Hs & _). by destruct stem.
  - change (hasValidExtension (String c s))
      with (valid_extension_here (String c s) || hasValidExtension s).
    rewrite orb_true_iff, IH, valid_extension_here_spec. split.
    + intros [(alternative & Hs & Halt) | (stem & alternative & -> & Halt)].
      * by exists EmptyString, alternative.
      * by exists (String c stem), alternative.
    + intros ([|d stem] & alternative & Hs & Halt).
      * left. by exists alternative.
      * injection Hs as -> ->. right. by exists stem, alternative.
Qed.

(** What the resolver looks up for a file whose name passes the extension
    check: the alternative that matched, and for [apk.1] what follows its
    dot. *)
Lemma upload_extension file :
  hasValidExtension (Js.toLowerCase (name file)) = true ->
  exists ext,
    extension file = Some ext
    /\ ext ∈ [ "mp3"; "wav"; "flac"; "m4a"; "aac"; "ogg"; "oga"; "weba"; "1" ].
Proof.
  intros (stem & alternative & Hname & Halt)%hasValidExtension_spec.
  rewrite extension_of_lowered, Hname.
  change (stem +:+ "." +:+ alternative) with (stem +:+ String "." alternative).
  rewrite last_split_after.
  unfold extension_alternatives in Halt.
  repeat (apply elem_of_cons in Halt as [->|Halt];
          [eexists; split; [reflexivity|]; set_solver|]).
  by apply elem_of_nil in Halt.
Qed.

Lemma knownMimeTypes_audio key mime :
  knownMimeTypes !! key = Some mime -> audio_or_video mime = true.
Proof.
  intros Hk. apply elem_of_list_to_map_2 in Hk.
  repeat (apply elem_of_cons in Hk as [Hk|Hk]; [injection Hk as -> ->; done|]).
  by apply elem_of_nil in Hk.
Qed.

(** What the resolver can return: a string of the audio or video family, or
    the property a name of [Object.prototype] finds. *)
Lemma getCorrectMimeType_range file :
  (exists mime, getCorrectMimeType file = PString mime /\ audio_or_video mime = true)
  \/ (exists key,
        getCorrectMimeType file = PInherited key /\ key ∈ Object_prototype
        /\ extension file = Some key /\ declared_audio_or_video file = false).
Proof.
  unfold getCorrectMimeType. destruct (declared_audio_or_video file) eqn:Hdeclared.
  { left. exists (type file). split; [done|].
    unfold declared_audio_or_video in Hdeclared. by apply andb_true_iff in Hdeclared as [_ ?]. }
  destruct (extension file) as [ext|] eqn:Hext; [|left; by eexists].
  unfold get_property. destruct (knownMimeTypes !! ext) as [mime|] eqn:Hm.
  - destruct (knownMimeTypes_hit _ _ Hm) as [-> Hmime]. simpl. rewrite Hmime.
    left. exists mime. split; [done|]. by eapply knownMimeTypes_audio.
  - destruct (bool_decide (ext ∈ Object_prototype)) eqn:Hproto.
    + apply bool_decide_eq_true_1 in Hproto. right. exists ext.
      assert (Js.truthy ext = true) as ->; [|done].
      unfold Object_prototype in Hproto.
      repeat (apply elem_of_cons in Hproto as [->|Hproto]; [done|]).
      by apply elem_of_nil in Hproto.
    + left. simpl. rewrite andb_false_r. by eexists.
Qed.

Lemma startsWith_not_empty p : p <> EmptyString -> Js.startsWith EmptyString p = false.
Proof. by destruct p. Qed.

(** The condition of the handler, in full: the type check only ever lets in
    a type that starts with [audio/], [video/mp4], [video/webm] or
    [application/ogg], or that goes on after [application/octet-stream]. *)
Lemma type_check_spec file :
  hasValidMime file && negb (String.eqb (type file) "")
    && negb (String.eqb (type file) "application/octet-stream") = true
  <-> (exists prefix rest,
         prefix ∈ [ "audio/"; "video/mp4"; "video/webm"; "application/ogg" ]
         /\ type file = prefix +:+ rest)
      \/ (exists rest, rest <> "" /\ type file = "application/octet-stream" +:+ rest).
Proof.
  unfold hasValidMime, validAudioPrefixes. cbn [existsb].
  rewrite !andb_true_iff, !orb_true_iff, !negb_true_iff, !String.eqb_neq, String.eqb_eq.
  rewrite !startsWith_spec. split.
  - intros [[[[Hp|[Hp|[Hp|[Hp|[Hp|Hp]]]]]|Hempty] Hnonempty] Hnot]; try done.
    1-4: left; destruct Hp as [rest Hp]; eexists _, rest; split; [|exact Hp]; set_solver.
    right. destruct Hp as [rest Hp]. exists rest. split; [|done].
    intros ->. by rewrite append_nil_r in Hp.
  - intros [(prefix & rest & Hprefix & Hty) | (rest & Hrest & Hty)].
    + repeat (apply elem_of_cons in Hprefix as [->|Hprefix];
              [rewrite Hty; split_and!; [left; eauto 10 | done | done]|]).
      by apply elem_of_nil in Hprefix.
    + rewrite Hty. split_and!; [left; eauto 10 | done |].
      intros Heq. apply Hrest.
      apply (f_equal (Js.slice 24)) in Heq. exact Heq.
Qed.

(** The upload accepts a file exactly when its lower-cased name ends with a
    dot and one of the listed extensions, or its declared type starts with
    [audio/], [video/mp4], [video/webm] or [application/ogg], or goes on after
    [application/octet-stream]; an empty type and the bare
    [application/octet-stream] never let a file in. Every other file is
    rejected with a message that names it. *)
Theorem handleInputChange_accepts (file : File) :
  (handleInputChange (Some file) = Selected file
   <-> (exists stem alternative,
          Js.toLowerCase (name file) = stem +:+ "." +:+ alternative
          /\ alternative ∈ extension_alternatives)
       \/ (exists prefix rest,
             prefix ∈ [ "audio/"; "video/mp4"; "video/webm"; "application/ogg" ]
             /\ type file = prefix +:+ rest)
       \/ (exists rest, rest <> "" /\ type file = "application/octet-stream" +:+ rest))
  /\ (handleInputChange (Some file) = Selected file
      \/ handleInputChange (Some file)
         = Rejected ("Unsupported file type: " +:+ name file +:+ " ("
                     +:+ (if String.eqb (type file) "" then "unknown" else type file)
                     +:+ "). Please use MP3, M4A, or WAV.")).
Proof.
  unfold handleInputChange. cbv zeta.
  rewrite <- hasValidExtension_spec, <- type_check_spec.
  destruct (hasValidExtension _); simpl orb.
  { split; [|by left]. split; [by left | done]. }
  destruct (hasValidMime file && _ && _).
  { split; [|by left]. split; [by right | done]. }
  split.
  - split; [done | by intros [?|?]].
  - right. unfold Js.or_else, Js.truthy. by destruct (String.eqb (type file) "").
Qed.

(** A file the upload lets in resolves to a string of the audio or video
    family whenever its name passed the extension check or its type is an
    audio or video one; a non-string can only come out for a file let in on a
    type that starts with [application/o], with a name that failed the
    extension check and the name of a property of [Object.prototype] as its
    extension. *)
Theorem upload_then_resolve (file : File) :
  handleInputChange (Some file) = Selected file ->
  (exists mime, getCorrectMimeType file = PString mime /\ audio_or_video mime = true)
  \/ (exists key,
        getCorrectMimeType file = PInherited key /\ key ∈ Object_prototype
        /\ extension file = Some key
        /\ hasValidExtension (Js.toLowerCase (name file)) = false
        /\ Js.startsWith (type file) "application/o" = true).
Proof.
  intros Hselected.
  destruct (getCorrectMimeType_range file) as [Hstring | (key & Hres & Hkey & Hext & Hdeclared)];
    [by left|].
  assert (Hvalid : hasValidExtension (Js.toLowerCase (name file)) = false).
  { destruct (hasValidExtension (Js.toLowerCase (name file))) eqn:Hvalid; [|done].
    destruct (upload_extension file Hvalid) as (ext & Hext' & Hin).
    rewrite Hext in Hext'. injection Hext' as <-.
    exfalso. revert Hkey.
    repeat (apply elem_of_cons in Hin as [->|Hin];
            [apply (bool_decide_eq_false_1 _); reflexivity|]).
    by apply elem_of_nil in Hin. }
  right. exists key. split_and!; try done.
  unfold handleInputChange in Hselected. cbv zeta in Hselected.
  rewrite Hvalid in Hselected. simpl orb in Hselected.
  destruct (hasValidMime file && _ && _) eqn:Hmime; [|done].
  apply type_check_spec in Hmime as [(prefix & rest & Hprefix & Hty) | (rest & _ & Hty)].
  - unfold declared_audio_or_video in Hdeclared.
    repeat (apply elem_of_cons in Hprefix as [->|Hprefix];
            [rewrite Hty in *; try done|]).
    by apply elem_of_nil in Hprefix.
  - by rewrite Hty.
Qed.

Lemma upload_then_resolve_witness :
  getCorrectMimeType (mkFile "Memo.WEBA" "application/octet-stream") = PString "audio/mp3".
Proof.
  destruct (upload_then_resolve (mkFile "Memo.WEBA" "application/octet-stream"))
    as [(mime & Hres & _) | (key & Hres & _)].
  - reflexivity.
  - rewrite Hres. f_equal. vm_compute in Hres. by injection Hres.
  - vm_compute in Hres. discriminate.
Defined.

(** ** SegmentMerger *)

Lemma merge_loop_app merged current rest :
  merge_loop merged current rest = merged ++ merge_loop [] current rest.
Proof.
  revert merged current. induction rest as [|next rest IH]; intros merged current; simpl; [done|].
  destruct (is_filler current); [apply IH|].
  rewrite (IH (merged ++ [current])), (IH [current]). by rewrite <- app_assoc.
Qed.

Lemma merge_loop_step current next rest :
  merge_loop [] current (next :: rest) =
    if is_filler current then merge_loop [] (absorb current next) rest
    else current :: merge_loop [] next rest.
Proof. simpl. destruct (is_filler current); [done|]. apply (merge_loop_app [current]). Qed.

Lemma mergeShortSegments_step current next rest :
  mergeShortSegments (current :: next :: rest) =
    if is_filler current then mergeShortSegments (absorb current next :: rest)
    else current :: mergeShortSegments (next :: rest).
Proof. apply merge_loop_step. Qed.

(** The pass, one step at a time: an empty list stays empty, the last
    accumulator is emitted, a filler takes the next segment in, anything else
    is emitted and the next segment becomes the accumulator. The segments
    [Uh] and [well I think so] of the specification merge into one. *)
Lemma mergeShortSegments_algorithm :
  mergeShortSegments [] = []
  /\ (forall current, mergeShortSegments [current] = [current])
  /\ (forall current next rest,
        is_filler current = true ->
        mergeShortSegments (current :: next :: rest)
        = mergeShortSegments (absorb current next :: rest))
  /\ (forall current next rest,
        is_filler current = false ->
        mergeShortSegments (current :: next :: rest)
        = current :: mergeShortSegments (next :: rest))
  /\ (forall current,
        is_filler current = true
        <-> (length (Js.split_spaces (text current)) < 4)%nat
            /\ (end_ current - start current <? 2)%float = true)
  /\ (forall current next,
        start (absorb current next) = start current
        /\ end_ (absorb current next) = end_ next
        /\ text (absorb current next) = text current +:+ " " +:+ text next
        /\ translation (absorb current next)
           = translation current +:+ " " +:+ translation next
        /\ idiomatic (absorb current next)
           = (if String.eqb (idiomatic next) "" then idiomatic current else idiomatic next)
        /\ idiomExplanation (absorb current next)
           = (if String.eqb (idiomExplanation next) "" then idiomExplanation current
              else idiomExplanation next))
  /\ mergeShortSegments
       [ mkSegment 0 0.5 "Uh" "a" "" "" false;
         mkSegment 0.5 3 "well I think so" "b" "" "" false ]
     = [ mkSegment 0 3 "Uh well I think so" "a b" "" "" false ].
Proof.
  split_and!; try done.
  - intros current next rest Hfiller. by rewrite mergeShortSegments_step, Hfiller.
  - intros current next rest Hfiller. by rewrite mergeShortSegments_step, Hfiller.
  - intros current. unfold is_filler, currentWordCount, duration, MIN_WORDS.
    by rewrite andb_true_iff, Nat.ltb_lt.
  - intros current next. unfold absorb, Js.or_else, Js.truthy. simpl.
    by destruct (String.eqb (idiomatic next) ""), (String.eqb (idiomExplanation next) "").
Qed.

Lemma merge_loop_not_nil current rest : merge_loop [] current rest <> [].
Proof.
  revert current. induction rest as [|next rest IH]; intros current; [done|].
  rewrite merge_loop_step. destruct (is_filler current); [apply IH | done].
Qed.

(** The first segment of the output starts where the accumulator starts. *)
Lemma merge_loop_head_start current rest :
  start <$> head (merge_loop [] current rest) = Some (start current).
Proof.
  revert current. induction rest as [|next rest IH]; intros current; [done|].
  rewrite merge_loop_step. destruct (is_filler current); [|done].
  by rewrite IH.
Qed.

Lemma merge_loop_starts current rest :
  (start <$> merge_loop [] current rest) `sublist_of` (start <$> current :: rest).
Proof.
  revert current. induction rest as [|next rest IH]; intros current; [done|].
  rewrite merge_loop_step. destruct (is_filler current).
  - specialize (IH (absorb current next)). simpl in *.
    etrans; [exact IH|]. by apply sublist_skip, sublist_cons.
  - simpl. apply sublist_skip, IH.
Qed.

Lemma merge_loop_non_overlapping current rest :
  non_overlapping (current :: rest) -> non_overlapping (merge_loop [] current rest).
Proof.
  unfold non_overlapping.
  revert current. induction rest as [|next rest IH]; intros current Hsorted; [done|].
  rewrite merge_loop_step.
  apply Sorted_inv in Hsorted as [Hrest Hhd]. apply HdRel_inv in Hhd.
  destruct (is_filler current).
  - apply IH. apply Sorted_inv in Hrest as [Hrest Hhd'].
    constructor; [done|]. destruct rest; constructor. by apply HdRel_inv in Hhd'.
  - constructor; [by apply IH|].
    pose proof (merge_loop_head_start next rest) as Hstart.
    destruct (merge_loop [] next rest) as [|out outs]; constructor.
    simpl in Hstart. injection Hstart as ->. done.
Qed.

Lemma sublist_StronglySorted {A} (R : relation A) (l k : list A) :
  l `sublist_of` k -> StronglySorted R k -> StronglySorted R l.
Proof.
  induction 1 as [|x l k Hsub IH|x l k Hsub IH]; intros Hk; [done| |].
  - apply StronglySorted_inv in Hk as [Hk Hx]. constructor; [by apply IH|].
    eapply Forall_forall. intros y Hy. eapply Forall_forall in Hx; [done|].
    by eapply sublist_subseteq.
  - apply StronglySorted_inv in Hk as [Hk _]. by apply IH.
Qed.

(** C8: when the input segments are in non-decreasing [start] order and
    each one ends no later than the next one starts, so is the merged output,
    and the [start] values of the output are a subsequence of those of the
    input: the merge pass keeps the order of the input. *)
Theorem mergeShortSegments_keeps_order (segments : list TranscriptionSegment) :
  starts_nondecreasing segments ->
  non_overlapping segments ->
  starts_nondecreasing (mergeShortSegments segments)
  /\ non_overlapping (mergeShortSegments segments)
  /\ (start <$> mergeShortSegments segments) `sublist_of` (start <$> segments).
Proof.
  intros Hstarts Hover. destruct segments as [|first rest]; [done|].
  unfold mergeShortSegments.
  pose proof (merge_loop_starts first rest) as Hsub.
  split_and!; [|by apply merge_loop_non_overlapping|done].
  unfold starts_nondecreasing in *.
  apply StronglySorted_Sorted. eapply sublist_StronglySorted; [exact Hsub|].
  apply Sorted_StronglySorted; [exact float_le_trans | done].
Qed.

Lemma mergeShortSegments_keeps_order_witness :
  let segments :=
    [ mkSegment 0 0.5 "Uh" "a" "" "" false;
      mkSegment 0.5 3 "well I think so" "b" "" "" false;
      mkSegment 3 6 "and that is about all of it" "c" "" "" false ] in
  (start <$> mergeShortSegments segments) `sublist_of` (start <$> segments).
Proof.
  intros segments.
  apply (mergeShortSegments_keeps_order segments).
  - repeat constructor.
  - repeat constructor.
Defined.

Lemma passes_unchanged body final :
  Forall (fun s => is_filler s = false) body ->
  mergeShortSegments (body ++ [final]) = body ++ [final].
Proof.
  induction 1 as [|current body Hcur _ IH]; [done|].
  change ((current :: body) ++ [final]) with (current :: (body ++ [final])).
  destruct (body ++ [final]) as [|next rest] eqn:E; [by destruct body|].
  by rewrite mergeShortSegments_step, Hcur, IH.
Qed.

(** Every segment the merger emits before the last one is no filler. *)
Lemma merge_loop_emits current rest :
  exists body final,
    merge_loop [] current rest = body ++ [final]
    /\ Forall (fun s => is_filler s = false) body.
Proof.
  revert current. induction rest as [|next rest IH]; intros current.
  - by exists [], current.
  - rewrite merge_loop_step. destruct (is_filler current) eqn:Hcur; [apply IH|].
    destruct (IH next) as (body & final & -> & Hbody).
    exists (current :: body), final. split; [done|]. by constructor.
Qed.

(** A second pass changes nothing. *)
Lemma mergeShortSegments_idempotent segments :
  mergeShortSegments (mergeShortSegments segments) = mergeShortSegments segments.
Proof.
  destruct segments as [|first rest]; [done|]. unfold mergeShortSegments at 2 3.
  destruct (merge_loop_emits first rest) as (body & final & -> & Hbody).
  by apply passes_unchanged.
Qed.

Lemma not_filler current :
  (4 <= word_count (text current))%nat \/ (4 <= currentWordCount current)%nat
  \/ float_le 2 (duration current) ->
  is_filler current = false.
Proof.
  unfold is_filler, currentWordCount, MIN_WORDS.
  pose proof (word_count_le_pieces (text current)).
  intros [Hw | [Hw | Hd]].
  - rewrite (proj2 (Nat.ltb_ge _ _)); [done | lia].
  - rewrite (proj2 (Nat.ltb_ge _ _)); [done | lia].
  - rewrite (float_le_not_lt _ _ Hd). apply andb_false_r.
Qed.

(** C9: when every segment has at least four words (a fortiori when the
    count the merger takes, which is never smaller, is at least four) or lasts
    at least 2.0 seconds, the merger returns the list as it is, so a second
    pass over it leaves the number of segments unchanged. *)
Theorem long_segments_pass_unchanged (segments : list TranscriptionSegment) :
  Forall (fun s => (4 <= word_count (text s))%nat \/ (4 <= currentWordCount s)%nat
                   \/ float_le 2 (duration s)) segments ->
  mergeShortSegments segments = segments
  /\ length (mergeShortSegments (mergeShortSegments segments)) = length segments.
Proof.
  intros Hlong.
  assert (Hsame : mergeShortSegments segments = segments).
  { destruct segments as [|s segments _] using rev_ind; [done|].
    apply passes_unchanged. apply Forall_app in Hlong as [Hlong _].
    eapply Forall_impl; [exact Hlong|]. intros s'. apply not_filler. }
  split; [done|]. by rewrite !Hsame.
Qed.

Lemma long_segments_pass_unchanged_witness :
  let a := mkSegment 0 1 "so I went to the store" "a" "" "" false in
  let b := mkSegment 1 1.5 "and bought some fresh bread" "b" "" "" false in
  mergeShortSegments [a; b] = [a; b].
Proof.
  intros a b. apply (long_segments_pass_unchanged [a; b]).
  apply Forall_cons_2; [|apply Forall_cons_2; [|apply Forall_nil_2]].
  - left. vm_compute. lia.
  - left. vm_compute. lia.
Defined.

(** C4: the merger is to fold the next segment into an accumulator of fewer
    than four words and less than 2.0 seconds. On the code the count is the
    number of pieces of [text.split(/\s+/)], and white space at the end of the
    text adds an empty piece: the accumulator below has three words and lasts
    one second, is counted as four, and is emitted instead of merged. *)
Theorem trailing_space_counts_as_word :
  let current := mkSegment 0 1 "I think so " "a" "" "" false in
  let next := mkSegment 1 1.5 "yes" "b" "" "" false in
  word_count (text current) = 3
  /\ currentWordCount current = 4
  /\ (duration current <? 2)%float = true
  /\ is_filler current = false
  /\ mergeShortSegments [current; next] = [current; next].
Proof. repeat split; vm_compute; reflexivity. Qed.

(** *** What a pass keeps *)

Lemma joined_cons x y l : joined (x :: y :: l) = x +:+ " " +:+ joined (y :: l).
Proof. done. Qed.

Lemma fuse_absorb current next others :
  fuse (absorb current next, others) = fuse (current, next :: others).
Proof. done. Qed.

Lemma fuse_start first others : start (fuse (first, others)) = start first.
Proof.
  revert first. induction others as [|o others IH]; intros first; [done|].
  rewrite <- fuse_absorb. by rewrite IH.
Qed.

Lemma last_cons_default {A} (x : A) l d d' : List.last (x :: l) d = List.last (x :: l) d'.
Proof. revert x. induction l as [|y l IH]; intros x; [done|]. apply (IH y). Qed.

Lemma fuse_end first others :
  end_ (fuse (first, others)) = end_ (List.last others first).
Proof.
  revert first. induction others as [|o others IH]; intros first; [done|].
  rewrite <- fuse_absorb, IH. destruct others as [|o' others]; [done|].
  by rewrite (last_cons_default o' others _ first).
Qed.

Lemma fuse_text first others :
  text (fuse (first, others)) = joined (text <$> first :: others).
Proof.
  revert first. induction others as [|o others IH]; intros first; [done|].
  rewrite <- fuse_absorb, IH. simpl. destruct others as [|o' others]; [done|].
  rewrite !fmap_cons, !joined_cons. by rewrite !append_assoc.
Qed.

Lemma fuse_translation first others :
  translation (fuse (first, others)) = joined (translation <$> first :: others).
Proof.
  revert first. induction others as [|o others IH]; intros first; [done|].
  rewrite <- fuse_absorb, IH. simpl. destruct others as [|o' others]; [done|].
  rewrite !fmap_cons, !joined_cons. by rewrite !append_assoc.
Qed.

Lemma fuse_isFavorite first others : isFavorite (fuse (first, others)) = isFavorite first.
Proof.
  revert first. induction others as [|o others IH]; intros first; [done|].
  rewrite <- fuse_absorb. by rewrite IH.
Qed.

Lemma fuse_snoc first taken next :
  absorb (fuse (first, taken)) next = fuse (first, taken ++ [next]).
Proof. unfold fuse. simpl. by rewrite fold_left_app. Qed.

(** The groups the loop forms once the accumulator has absorbed [taken]. *)
Lemma merge_loop_groups first taken rest :
  (forall n, (n < length taken)%nat -> is_filler (fuse (first, take n taken)) = true) ->
  exists groups,
    first :: taken ++ rest = groups ≫= members
    /\ merge_loop [] (fuse (first, taken)) rest = fuse <$> groups
    /\ (forall group n, group ∈ groups -> (n < length group.2)%nat ->
          is_filler (fuse (group.1, take n group.2)) = true)
    /\ (forall i group, groups !! i = Some group -> (S i < length groups)%nat ->
          is_filler (fuse group) = false).
Proof.
  revert first taken. induction rest as [|next rest IH]; intros first taken Htaken.
  - exists [(first, taken)]. split_and!.
    + simpl. by rewrite !app_nil_r.
    + done.
    + intros group n ->%list_elem_of_singleton. apply Htaken.
    + intros [|i] group; simpl; [lia|done].
  - rewrite merge_loop_step. destruct (is_filler (fuse (first, taken))) eqn:Hfiller.
    + rewrite fuse_snoc. destruct (IH first (taken ++ [next])) as (groups & Hin & Hout & Habs & Hemit).
      { intros n Hn. rewrite length_app in Hn. simpl in Hn.
        rewrite take_app_le by lia.
        destruct (decide (n < length taken)%nat) as [Hlt|Hge]; [by apply Htaken|].
        by rewrite take_ge by lia. }
      exists groups. split_and!; try done. by rewrite <- app_assoc in Hin.
    + destruct (IH next []) as (groups & Hin & Hout & Habs & Hemit);
        [intros n Hn; simpl in Hn; lia|].
      exists ((first, taken) :: groups). split_and!.
      * change (((first, taken) :: groups) ≫= members)
          with (members (first, taken) ++ (groups ≫= members)).
        rewrite <- Hin. unfold members. simpl. done.
      * rewrite fmap_cons. f_equal. exact Hout.
      * intros group n [->|Hgroup]%elem_of_cons; [apply Htaken | by apply Habs].
      * intros [|i] group; simpl.
        -- by intros [= <-].
        -- intros Hgroup Hi. apply (Hemit i); [done|lia].
Qed.

(** The merged list is the input cut into runs of consecutive segments, each
    run folded into one segment: a run grows while what it has folded so far
    is a filler, and every run but the last ends on a segment that is none.
    The folded segment starts where the run starts, ends where it ends, and
    carries the texts and the translations of the run joined by single
    spaces, and the favourite mark of its first segment. *)
Theorem mergeShortSegments_groups (segments : list TranscriptionSegment) :
  exists groups,
    segments = groups ≫= members
    /\ mergeShortSegments segments = fuse <$> groups
    /\ (forall group n, group ∈ groups -> (n < length group.2)%nat ->
          is_filler (fuse (group.1, take n group.2)) = true)
    /\ (forall i group, groups !! i = Some group -> (S i < length groups)%nat ->
          is_filler (fuse group) = false)
    /\ (forall group, group ∈ groups ->
          start (fuse group) = start group.1
          /\ end_ (fuse group) = end_ (List.last group.2 group.1)
          /\ text (fuse group) = joined (text <$> members group)
          /\ translation (fuse group) = joined (translation <$> members group)
          /\ isFavorite (fuse group) = isFavorite group.1).
Proof.
  destruct segments as [|first rest].
  - exists []. split_and!; try done.
    + intros group n Hgroup. by apply elem_of_nil in Hgroup.
    + intros group Hgroup. by apply elem_of_nil in Hgroup.
  - destruct (merge_loop_groups first [] rest) as (groups & Hin & Hout & Habs & Hemit);
      [intros n Hn; simpl in Hn; lia|].
    exists groups. split_and!; try done.
    intros [first' others] _. split_and!.
    + apply fuse_start.
    + apply fuse_end.
    + apply fuse_text.
    + apply fuse_translation.
    + apply fuse_isFavorite.
Qed.

(** No word is lost and none changes place: the texts of the merged segments,
    joined by single spaces, are the texts of the input joined by single
    spaces, and so are the translations; the pass never adds a segment, and it
    keeps the start of the first segment and the end of the last. *)
Theorem mergeShortSegments_conserves (segments : list TranscriptionSegment) :
  joined (text <$> mergeShortSegments segments) = joined (text <$> segments)
  /\ joined (translation <$> mergeShortSegments segments) = joined (translation <$> segments)
  /\ (length (mergeShortSegments segments) <= length segments)%nat
  /\ (mergeShortSegments segments = [] <-> segments = [])
  /\ start <$> head (mergeShortSegments segments) = start <$> head segments
  /\ end_ <$> last (mergeShortSegments segments) = end_ <$> last segments.
Proof.
  destruct segments as [|first rest]; [done|]. unfold mergeShortSegments.
  split_and!.
  - revert first. induction rest as [|next rest IH]; intros first; [done|].
    rewrite merge_loop_step. destruct (is_filler first).
    + rewrite IH. simpl. destruct rest as [|r rest]; [done|].
      rewrite !fmap_cons, !joined_cons. by rewrite !append_assoc.
    + pose proof (merge_loop_not_nil next rest) as Hne.
      specialize (IH next). destruct (merge_loop [] next rest) as [|out outs]; [done|].
      rewrite !fmap_cons, !joined_cons in *. by rewrite IH.
  - revert first. induction rest as [|next rest IH]; intros first; [done|].
    rewrite merge_loop_step. destruct (is_filler first).
    + rewrite IH. simpl. destruct rest as [|r rest]; [done|].
      rewrite !fmap_cons, !joined_cons. by rewrite !append_assoc.
    + pose proof (merge_loop_not_nil next rest) as Hne.
      specialize (IH next). destruct (merge_loop [] next rest) as [|out outs]; [done|].
      rewrite !fmap_cons, !joined_cons in *. by rewrite IH.
  - revert first. induction rest as [|next rest IH]; intros first; [done|].
    rewrite merge_loop_step. destruct (is_filler first).
    + specialize (IH (absorb first next)). simpl in *. lia.
    + specialize (IH next). simpl in *. lia.
  - split; [|done]. intros Hnil. by apply merge_loop_not_nil in Hnil.
  - by rewrite merge_loop_head_start.
  - revert first. induction rest as [|next rest IH]; intros first; [done|].
    rewrite merge_loop_step. destruct (is_filler first).
    + rewrite IH. rewrite !last_cons. by destruct (last rest).
    + pose proof (merge_loop_not_nil next rest) as Hne.
      specialize (IH next). rewrite last_cons.
      destruct (last (merge_loop [] next rest)) eqn:Hlast.
      * rewrite IH. rewrite (last_cons first). by destruct (last (next :: rest)).
      * apply last_None in Hlast. done.
Qed.

(** ** RetryExecutor *)


Lemma backoff_schedule_shift delayMs a m :
  1 <= a ->
  flat_map (fun i => [SetTimeout (delayMs * backoffMultiplier ^ (Z.of_nat i - 1)); Invoked])
    (seq (S a) m)
  = flat_map
      (fun i => [SetTimeout (delayMs * backoffMultiplier * backoffMultiplier ^ (Z.of_nat i - 1));
                 Invoked])
      (seq a m).
Proof.
  revert a. induction m as [|m IH]; intros a Ha; [done|].
  simpl. rewrite (IH (S a)) by lia. do 2 f_equal.
  replace (Z.of_nat (S a) - 1)%Z with (Z.succ (Z.of_nat a - 1))%Z by lia.
  rewrite Z.pow_succ_r by lia. lia.
Qed.

Lemma backoff_schedule_next n delayMs :
  1 <= n ->
  backoff_schedule (S n) delayMs
  = Invoked :: SetTimeout delayMs :: backoff_schedule n (delayMs * backoffMultiplier).
Proof.
  intros Hn. destruct n as [|m]; [lia|]. unfold backoff_schedule.
  rewrite <- cons_seq. simpl flat_map. rewrite Z.mul_1_r. do 3 f_equal.
  by apply backoff_schedule_shift.
Qed.

Lemma attempts_backoff_schedule n delayMs : attempts (backoff_schedule n delayMs) = n.
Proof.
  destruct n as [|m]; [done|]. unfold attempts, backoff_schedule. simpl. f_equal.
  transitivity (length (seq 1 m)); [|apply length_seq].
  induction (seq 1 m) as [|i l IH]; [done|]. simpl. by rewrite IH.
Qed.

Lemma delays_backoff_schedule n delayMs :
  delays (backoff_schedule n delayMs)
  = (fun i => (delayMs * backoffMultiplier ^ (Z.of_nat i - 1))%Z) <$> seq 1 (n - 1).
Proof.
  destruct n as [|m]; [done|]. unfold backoff_schedule. simpl.
  rewrite Nat.sub_0_r.
  induction (seq 1 m) as [|i l IH]; [done|]. simpl. by rewrite IH.
Qed.

Lemma attempts_schedule t : attempts (schedule t) = attempts t.
Proof.
  unfold attempts, schedule. induction t as [|ev t IH]; [done|].
  destruct ev; simpl; rewrite ?IH; done.
Qed.

Lemma delays_schedule t : delays (schedule t) = delays t.
Proof.
  unfold schedule. induction t as [|ev t IH]; [done|].
  destruct ev; simpl; rewrite ?IH; done.
Qed.

Section RetryExecutorFacts.
Context {W T : Type} (op : W -> Completion JsError T * W).

Lemma retry_loop_step retries remaining i delayMs lastError w :
  retry_loop (probe op) retries (S remaining) i delayMs lastError w =
    match op w with
    | (Normal v, w') => (Normal v, w', [Invoked])
    | (Abrupt error, w') =>
        if isInternalError error && (i <? retries - 1)%nat then
          let '(r, w'', t) :=
            retry_loop (probe op) retries remaining (S i) (delayMs * backoffMultiplier)
              (Some error) w' in
          (r, w'', Invoked :: retry_warning i retries delayMs error :: SetTimeout delayMs :: t)
        else (Abrupt (Some error), w', [Invoked])
    end.
Proof.
  simpl. unfold try_catch, probe, bind, emit, perform, throw. simpl.
  destruct (op w) as [[v|error] w']; [done|].
  destruct (isInternalError error && (i <? retries - 1)%nat); [|done].
  unfold retry_warning.
  by destruct (retry_loop _ _ _ _ _ _ w') as [[r w''] t].
Qed.

Lemma calls_until_success_pos budget w : 1 <= budget -> 1 <= calls_until_success op budget w.
Proof. destruct budget; [lia|]. simpl. destruct (op w) as [[]]; lia. Qed.

Lemma world_after_calls_S w n :
  world_after_calls op w (S n) = world_after_calls op (op w).2 n.
Proof. unfold world_after_calls. by rewrite Nat.iter_succ_r. Qed.

Lemma call_result_S w k : 1 <= k -> call_result op w (S k) = call_result op (op w).2 k.
Proof.
  intros Hk. unfold call_result. destruct k as [|k]; [lia|].
  simpl Nat.sub. rewrite Nat.sub_0_r. by rewrite world_after_calls_S.
Qed.

Lemma failures_retryable_first w error w' :
  failures_retryable op w -> op w = (Abrupt error, w') -> isInternalError error = true.
Proof.
  intros Hretry Hop. apply (Hretry 1 error); [lia|]. unfold call_result. simpl. by rewrite Hop.
Qed.

Lemma failures_retryable_next w :
  failures_retryable op w -> failures_retryable op (op w).2.
Proof.
  intros Hretry j e Hj He. apply (Hretry (S j) e); [lia|]. by rewrite call_result_S.
Qed.

Lemma retry_loop_schedule retries remaining i delayMs lastError w :
  failures_retryable op w ->
  i + remaining = retries ->
  schedule (trace (retry_loop (probe op) retries remaining i delayMs lastError w))
  = backoff_schedule (calls_until_success op remaining w) delayMs.
Proof.
  revert i delayMs lastError w.
  induction remaining as [|r IH]; intros i delayMs lastError w Hretry Hi; [done|].
  rewrite retry_loop_step. simpl calls_until_success.
  destruct (op w) as [[v|error] w'] eqn:Hop; [done|].
  rewrite (failures_retryable_first w error w') by done. simpl andb.
  apply failures_retryable_next in Hretry. rewrite Hop in Hretry. simpl in Hretry.
  destruct (i <? retries - 1)%nat eqn:Hlast.
  - apply Nat.ltb_lt in Hlast.
    specialize (IH (S i) (delayMs * backoffMultiplier)%Z (Some error) w' Hretry ltac:(lia)).
    rewrite backoff_schedule_next by (apply calls_until_success_pos; lia).
    destruct (retry_loop _ _ _ _ _ _ w') as [[res w''] t].
    unfold trace, schedule in *. simpl in *. by rewrite IH.
  - apply Nat.ltb_ge in Hlast. assert (r = 0) as -> by lia. done.
Qed.

Lemma calls_until_first_success budget w k :
  first_success_at op w k -> calls_until_success op budget w = Nat.min budget k.
Proof.
  revert w k. induction budget as [|b IH]; intros w k (Hk & [v Hv] & Hbefore); [done|].
  simpl calls_until_success. destruct (op w) as [[v'|e] w'] eqn:Hop.
  - destruct (decide (k = 1)) as [->|Hne]; [lia|].
    destruct (Hbefore 1 ltac:(lia)) as [e He]. unfold call_result in He. simpl in He.
    by rewrite Hop in He.
  - destruct (decide (k = 1)) as [->|Hne].
    { unfold call_result in Hv. simpl in Hv. by rewrite Hop in Hv. }
    destruct k as [|k]; [lia|]. rewrite (IH w' k); [lia|].
    assert (Hw' : w' = (op w).2) by (by rewrite Hop).
    split_and!; [lia| |].
    + exists v. rewrite Hw', <- call_result_S by lia. done.
    + intros j Hj. rewrite Hw', <- call_result_S by lia. apply Hbefore. lia.
Qed.

Lemma calls_without_success budget w :
  no_success_within op w budget -> calls_until_success op budget w = budget.
Proof.
  revert w. induction budget as [|b IH]; intros w Hnone; [done|].
  simpl. destruct (op w) as [[v|e] w'] eqn:Hop.
  - destruct (Hnone 1 ltac:(lia)) as [e He]. unfold call_result in He. simpl in He.
    by rewrite Hop in He.
  - f_equal. apply IH. intros j Hj.
    assert (Hw' : w' = (op w).2) by (by rewrite Hop).
    rewrite Hw', <- call_result_S by lia. apply Hnone. lia.
Qed.

Lemma retry_loop_result retries remaining i delayMs lastError w :
  failures_retryable op w ->
  i + remaining = retries -> 1 <= remaining ->
  let run := retry_loop (probe op) retries remaining i delayMs lastError w in
  let n := calls_until_success op remaining w in
  outcome run = settle (call_result op w n) /\ world_after run = world_after_calls op w n.
Proof.
  revert i delayMs lastError w.
  induction remaining as [|r IH]; intros i delayMs lastError w Hretry Hi Hr; [lia|].
  cbv zeta. rewrite retry_loop_step. simpl calls_until_success.
  destruct (op w) as [[v|error] w'] eqn:Hop.
  - unfold call_result, world_after_calls. simpl. by rewrite Hop.
  - rewrite (failures_retryable_first w error w') by done. simpl andb.
    assert (Hw' : w' = (op w).2) by (by rewrite Hop).
    apply failures_retryable_next in Hretry. rewrite <- Hw' in Hretry.
    destruct (i <? retries - 1)%nat eqn:Hlast.
    + apply Nat.ltb_lt in Hlast.
      destruct (IH (S i) (delayMs * backoffMultiplier)%Z (Some error) w' Hretry
                  ltac:(lia) ltac:(lia)) as [Hout Hworld].
      pose proof (calls_until_success_pos r w' ltac:(lia)).
      rewrite call_result_S, world_after_calls_S, <- Hw' by done.
      by destruct (retry_loop _ _ _ _ _ _ w') as [[res w''] t].
    + apply Nat.ltb_ge in Hlast. assert (r = 0) as -> by lia.
      unfold call_result, world_after_calls. simpl. by rewrite Hop.
Qed.


End RetryExecutorFacts.

(** C3: with at least one attempt allowed and an operation whose failures,
    call after call, are all retryable, the executor calls the operation [min retries k] times
    when call [k] is the first to succeed, and [retries] times when none of
    them succeeds; before attempt [i + 1] it waits
    [delayMs * backoffMultiplier ^ (i - 1)] milliseconds, the multiplier being
    the 2 of the code; the result is that of the last call made. *)
Theorem withRetry_attempts_and_backoff {W T : Type} (op : W -> Completion JsError T * W)
    (retries : nat) (delayMs : Z) (w : W) :
  1 <= retries ->
  failures_retryable op w ->
  let run := withRetry (probe op) retries delayMs w in
  let n := attempts (trace run) in
  (forall k, first_success_at op w k -> n = Nat.min retries k)
  /\ (no_success_within op w retries -> n = retries)
  /\ schedule (trace run) = backoff_schedule n delayMs
  /\ delays (trace run)
     = (fun i => (delayMs * backoffMultiplier ^ (Z.of_nat i - 1))%Z) <$> seq 1 (n - 1)
  /\ outcome run = settle (call_result op w n)
  /\ world_after run = world_after_calls op w n
  /\ (default_retries, default_delayMs, backoffMultiplier) = (3, 1000%Z, 2%Z).
Proof.
  intros Hretries Hretry. cbv zeta. unfold withRetry.
  pose proof (retry_loop_schedule op retries retries 0 delayMs None w Hretry eq_refl) as Hsched.
  assert (Hn : attempts (trace (retry_loop (probe op) retries retries 0 delayMs None w))
               = calls_until_success op retries w).
  { by rewrite <- attempts_schedule, Hsched, attempts_backoff_schedule. }
  rewrite Hn. split_and!.
  - intros k Hk. by apply calls_until_first_success.
  - apply calls_without_success.
  - done.
  - by rewrite <- delays_schedule, Hsched, delays_backoff_schedule.
  - by apply (retry_loop_result op retries retries 0 delayMs None w).
  - by apply (retry_loop_result op retries retries 0 delayMs None w).
  - done.
Qed.

Lemma flaky_failures_retryable w : failures_retryable flaky w.
Proof.
  intros j e _. unfold call_result, flaky. simpl.
  destruct (_ <? 2)%nat; [|done]. by intros [= <-].
Qed.

Lemma flaky_first_success : first_success_at flaky 0 3.
Proof.
  split_and!; [lia | by exists 2 |].
  intros j Hj. assert (j = 1 \/ j = 2) as [-> | ->] by lia; by eexists.
Qed.

Lemma withRetry_attempts_and_backoff_witness :
  attempts (trace (withRetry (probe flaky) 3 1000 0)) = 3
  /\ delays (trace (withRetry (probe flaky) 3 1000 0)) = [1000%Z; 2000%Z].
Proof.
  destruct (withRetry_attempts_and_backoff flaky 3 1000 0) as (Hfirst & _ & _ & Hdelays & _).
  - lia.
  - apply flaky_failures_retryable.
  - rewrite Hdelays, (Hfirst 3 flaky_first_success). split; reflexivity.
Defined.



(** *** Any operation, retryable or not *)

Section RetryExecutorRuns.
Context {W T : Type} (op : W -> Completion JsError T * W).

Lemma calls_until_settled_spec budget w :
  let n := calls_until_settled op budget w in
  n <= budget /\ (n = 0 <-> budget = 0)
  /\ (forall j, 1 <= j < n -> settles (call_result op w j) = false)
  /\ (n < budget -> settles (call_result op w n) = true).
Proof.
  revert w. induction budget as [|b IH]; intros w; cbv zeta.
  { simpl. split_and!; [lia|done|lia|lia]. }
  simpl. destruct (settles (op w).1) eqn:Hfirst.
  - split_and!; [lia|lia|lia|]. intros _. done.
  - destruct (IH (op w).2) as (Hle & Hzero & Hbefore & Hat).
    split_and!; [lia|lia| |].
    + intros j Hj. destruct (decide (j = 1)) as [->|Hne]; [done|].
      destruct j as [|j]; [lia|]. rewrite call_result_S by lia. apply Hbefore. lia.
    + intros Hn. destruct (calls_until_settled op b (op w).2) as [|m] eqn:Hm.
      { assert (b = 0) by (by apply Hzero). lia. }
      rewrite call_result_S by lia. apply Hat. lia.
Qed.

Lemma retry_loop_run retries remaining i delayMs lastError w :
  i + remaining = retries ->
  let run := retry_loop (probe op) retries remaining i delayMs lastError w in
  let n := calls_until_settled op remaining w in
  schedule (trace run) = backoff_schedule n delayMs
  /\ world_after run = world_after_calls op w n
  /\ outcome run = match n with
                   | O => Abrupt lastError
                   | S _ => settle (call_result op w n)
                   end.
Proof.
  revert i delayMs lastError w.
  induction remaining as [|r IH]; intros i delayMs lastError w Hi; cbv zeta; [done|].
  rewrite retry_loop_step. simpl calls_until_settled.
  destruct (op w) as [[v|error] w'] eqn:Hop; simpl fst; simpl snd; unfold settles.
  { unfold call_result, world_after_calls. simpl. by rewrite Hop. }
  assert (Hw' : w' = (op w).2) by (by rewrite Hop).
  destruct (isInternalError error) eqn:Herror; simpl negb; simpl andb.
  - destruct (i <? retries - 1)%nat eqn:Hlast.
    + apply Nat.ltb_lt in Hlast.
      destruct (IH (S i) (delayMs * backoffMultiplier)%Z (Some error) w' ltac:(lia))
        as (Hsched & Hworld & Hout).
      pose proof (calls_until_settled_spec r w') as (_ & Hzero & _). cbv zeta in Hzero.
      destruct (calls_until_settled op r w') as [|m] eqn:Hm.
      { assert (r = 0) by (by apply Hzero). lia. }
      rewrite backoff_schedule_next by lia.
      rewrite call_result_S, world_after_calls_S, <- Hw' by lia.
      destruct (retry_loop _ _ _ _ _ _ w') as [[res w''] t].
      unfold trace, schedule, outcome, world_after in *. simpl in *. by rewrite Hsched.
    + apply Nat.ltb_ge in Hlast. assert (r = 0) as -> by lia.
      unfold call_result, world_after_calls. simpl. by rewrite Hop.
  - unfold call_result, world_after_calls. simpl. by rewrite Hop.
Qed.

End RetryExecutorRuns.

Lemma total_wait_backoff_schedule n delayMs :
  total_wait (backoff_schedule n delayMs)
  = (delayMs * (backoffMultiplier ^ Z.of_nat (n - 1) - 1))%Z.
Proof.
  destruct n as [|n]; [unfold total_wait; simpl; lia|].
  simpl Nat.sub. rewrite Nat.sub_0_r.
  revert delayMs. induction n as [|n IH]; intros delayMs.
  { unfold total_wait. simpl. lia. }
  rewrite backoff_schedule_next by lia.
  change (total_wait (Invoked :: SetTimeout delayMs
                        :: backoff_schedule (S n) (delayMs * backoffMultiplier)))
    with (delayMs + total_wait (backoff_schedule (S n) (delayMs * backoffMultiplier)))%Z.
  rewrite IH. rewrite Nat2Z.inj_succ, Z.pow_succ_r by lia. unfold backoffMultiplier. lia.
Qed.

(** Whatever the operation does: [withRetry] calls it until a call succeeds
    or fails with an error that is not retryable, and at most [retries] times;
    the result of the last call made is the result of the run. Between two
    calls it waits, doubling from [delayMs], in all
    [delayMs * (2 ^ (n - 1) - 1)] milliseconds for [n] calls. With no attempt
    allowed the operation is never called and [undefined] is thrown. *)
Theorem withRetry_run {W T : Type} (op : W -> Completion JsError T * W)
    (retries : nat) (delayMs : Z) (w : W) :
  let run := withRetry (probe op) retries delayMs w in
  let n := attempts (trace run) in
  n <= retries /\ (n = 0 <-> retries = 0)
  /\ (forall j, 1 <= j < n -> settles (call_result op w j) = false)
  /\ (n < retries -> settles (call_result op w n) = true)
  /\ schedule (trace run) = backoff_schedule n delayMs
  /\ total_wait (trace run) = (delayMs * (backoffMultiplier ^ Z.of_nat (n - 1) - 1))%Z
  /\ world_after run = world_after_calls op w n
  /\ outcome run = match n with
                   | O => Abrupt None
                   | S _ => settle (call_result op w n)
                   end
  /\ (retries = 0 -> trace run = []).
Proof.
  cbv zeta. unfold withRetry.
  destruct (retry_loop_run op retries retries 0 delayMs None w eq_refl)
    as (Hsched & Hworld & Hout).
  assert (Hn : attempts (trace (retry_loop (probe op) retries retries 0 delayMs None w))
               = calls_until_settled op retries w).
  { by rewrite <- attempts_schedule, Hsched, attempts_backoff_schedule. }
  rewrite Hn. destruct (calls_until_settled_spec op retries w) as (Hle & Hzero & Hbefore & Hat).
  split_and!; try done.
  - unfold total_wait. rewrite <- delays_schedule, Hsched. apply total_wait_backoff_schedule.
  - by intros ->.
Qed.

Lemma withRetry_run_witness :
  attempts (trace (withRetry (probe flaky) 5 1000 0)) = 3
  /\ settles (call_result flaky 0 3) = true
  /\ total_wait (trace (withRetry (probe flaky) 5 1000 0)) = 3000%Z.
Proof.
  destruct (withRetry_run flaky 5 1000 0) as (_ & _ & _ & Hsettled & _ & Hwait & _).
  split_and!; [reflexivity | apply Hsettled; vm_compute; lia | rewrite Hwait; reflexivity].
Defined.

(** ** ResponseNormalizer *)

(** A text that does not end with a backtick has no closing fence. *)
Lemma closing_fence_needs_backtick s :
  last_char s <> Some "`"%char -> closing_fence_here s = false.
Proof.
  intros Hlast. unfold closing_fence_here. apply String.eqb_neq. intros Hskip.
  destruct (skip_spaces_suffix s) as (ws & _ & Hs). rewrite Hskip in Hs.
  apply Hlast. rewrite Hs. by rewrite last_char_app.
Qed.

Lemma strip_closing_fence_none s :
  last_char s <> Some "`"%char -> strip_closing_fence s = s.
Proof.
  induction s as [|c s IH]; intros Hlast; [done|].
  simpl. rewrite closing_fence_needs_backtick by done. f_equal.
  destruct s as [|c' s]; [done|]. apply IH. by rewrite last_char_cons in Hlast.
Qed.

Lemma strip_closing_fence_spaces ws :
  all_spaces ws = true -> strip_closing_fence (ws +:+ "```") = EmptyString.
Proof.
  intros Hws. destruct ws as [|c ws]; [done|]. simpl.
  unfold closing_fence_here.
  change (String c (ws +:+ "```")) with (String c ws +:+ "```").
  by rewrite skip_spaces_all.
Qed.

(** After a text that ends outside [\s], the closing fence is all that is
    removed. *)
Lemma strip_closing_fence_after body ws :
  body <> EmptyString -> ends_with_space body = false -> all_spaces ws = true ->
  strip_closing_fence (body +:+ ws +:+ "```") = body.
Proof.
  intros Hne Hend Hws. induction body as [|c body IH]; [done|].
  rewrite append_String. cbn [strip_closing_fence].
  assert (Hhere : closing_fence_here (String c (body +:+ ws +:+ "```")) = false).
  { unfold closing_fence_here. apply String.eqb_neq. intros Hskip.
    destruct (skip_spaces_suffix (String c body)) as (pre & Hpre & Hbody).
    destruct (Js.skip_spaces (String c body)) as [|d rest] eqn:Hrest.
    - rewrite append_nil_r in Hbody. rewrite <- Hbody in Hpre.
      rewrite all_spaces_ends in Hend; done.
    - change (String c (body +:+ ws +:+ "```")) with (String c body +:+ ws +:+ "```") in Hskip.
      rewrite Hbody, append_assoc, skip_spaces_all in Hskip by done.
      apply skip_spaces_head in Hrest.
      rewrite append_String in Hskip. simpl in Hskip. rewrite Hrest in Hskip.
      apply (f_equal String.length) in Hskip.
      simpl in Hskip. rewrite !append_length in Hskip. simpl in Hskip. lia. }
  rewrite Hhere. f_equal. rewrite ends_with_space_cons in Hend.
  destruct body as [|c' body]; [by apply strip_closing_fence_spaces|].
  by apply IH.
Qed.

(** *** Where a JSON text ends *)

Lemma suffix_of_refl s : suffix_of s s.
Proof. by exists EmptyString. Qed.

Lemma suffix_of_trans a b c : suffix_of a b -> suffix_of b c -> suffix_of a c.
Proof. intros [p ->] [q ->]. exists (q +:+ p). by rewrite append_assoc. Qed.

Lemma suffix_of_cons c s r : suffix_of r s -> suffix_of r (String c s).
Proof. intros [p ->]. by exists (String c p). Qed.

Lemma suffix_of_slice n s : suffix_of (Js.slice n s) s.
Proof.
  revert s. induction n as [|n IH]; intros s; [apply suffix_of_refl|].
  destruct s as [|c s]; [apply suffix_of_refl|]. simpl. apply suffix_of_cons, IH.
Qed.

Lemma ends_before_suffix x s r : ends_before x r -> suffix_of x s -> ends_before s r.
Proof.
  intros (pre & c & -> & Hc) [p ->]. exists (p +:+ pre), c. by rewrite append_assoc.
Qed.

Lemma ends_before_is_suffix s r : ends_before s r -> suffix_of r s.
Proof.
  intros (pre & c & -> & _). exists (pre +:+ String c EmptyString).
  by rewrite append_assoc.
Qed.

Lemma ends_before_here c r : c <> "`"%char -> ends_before (String c r) r.
Proof. intros Hc. by exists EmptyString, c. Qed.

Lemma skip_ws_suffix s : suffix_of (Json.skip_ws s) s.
Proof.
  induction s as [|c s IH]; [apply suffix_of_refl|]. simpl.
  destruct (Json.is_ws c); [by apply suffix_of_cons | apply suffix_of_refl].
Qed.

Lemma string_chars_ends n s us r :
  String.length s <= n -> Json.string_chars s = Some (us, r) -> ends_before s r.
Proof.
  revert s us r. induction n as [|n IH]; intros s us r Hlen Hs.
  { destruct s; [done | simpl in Hlen; lia]. }
  destruct s as [|c s1]; [done|]. simpl in Hlen.
  assert (Hrec : forall t us' r', suffix_of t s1 -> Json.string_chars t = Some (us', r') ->
                                  ends_before (String c s1) r').
  { intros t us' r' Ht Hstr. eapply ends_before_suffix.
    - eapply (IH t); [|done]. destruct Ht as [p ->]. rewrite append_length in Hlen. lia.
    - by apply suffix_of_cons. }
  cbn [Json.string_chars] in Hs.
  destruct (Ascii.eqb_spec c "034") as [->|_].
  { injection Hs as _ <-. by apply ends_before_here. }
  destruct (Ascii.eqb c "\").
  - destruct s1 as [|e s2]; [done|].
    assert (Hsimple : forall u, ('(us', r') ← Json.string_chars s2; Some (u :: us', r')) = Some (us, r) ->
                                ends_before (String c (String e s2)) r).
    { intros u Hu. destruct (Json.string_chars s2) as [[us' r']|] eqn:E; [|done].
      injection Hu as _ <-. eapply Hrec; [|done]. apply suffix_of_cons, suffix_of_refl. }
    repeat (match type of Hs with (if ?b then _ else _) = _ => destruct b end;
            [by eapply Hsimple|]).
    destruct (Ascii.eqb e "u"); [|done].
    destruct s2 as [|h1 [|h2 [|h3 [|h4 s3]]]]; try done.
    destruct (Json.hex_digit h1), (Json.hex_digit h2), (Json.hex_digit h3), (Json.hex_digit h4);
      try done. simpl in Hs.
    destruct (Json.string_chars s3) as [[us' r']|] eqn:E; [|done].
    injection Hs as _ <-. eapply Hrec; [|done].
    do 5 apply suffix_of_cons. apply suffix_of_refl.
  - destruct (Js.code c <? 32)%N; [done|].
    destruct (Json.string_chars s1) as [[us' r']|] eqn:E; [|done].
    injection Hs as _ <-. eapply Hrec; [|done]. apply suffix_of_refl.
Qed.

Lemma is_digit_not_backtick c : Json.is_digit c = true -> c <> "`"%char.
Proof. by intros Hc ->. Qed.

Lemma digits_spec s d r :
  Json.digits s = (d, r) ->
  suffix_of r s /\ (d <> EmptyString -> ends_before s r).
Proof.
  revert d r. induction s as [|c s IH]; intros d r Hd.
  - injection Hd as <- <-. split; [apply suffix_of_refl | done].
  - simpl in Hd. destruct (Json.is_digit c) eqn:Hc.
    + destruct (Json.digits s) as [d' r'] eqn:E. injection Hd as <- <-.
      destruct (IH d' r' eq_refl) as [Hsuf Hends]. split; [by apply suffix_of_cons|].
      intros _. destruct d' as [|x d'].
      * destruct s as [|y s]; simpl in E.
        -- injection E as <-. by apply ends_before_here, is_digit_not_backtick.
        -- destruct (Json.is_digit y); [by destruct (Json.digits s)|].
           injection E as <-. by apply ends_before_here, is_digit_not_backtick.
      * eapply ends_before_suffix; [by apply Hends|]. apply suffix_of_cons, suffix_of_refl.
    + injection Hd as <- <-. split; [apply suffix_of_refl | done].
Qed.

Lemma digits1_ends s d r : Json.digits1 s = Some (d, r) -> ends_before s r.
Proof.
  unfold Json.digits1. destruct (Json.digits s) as [d' r'] eqn:E.
  destruct d' as [|c d']; [done|]. intros [= <- <-].
  by apply (digits_spec s (String c d') r').
Qed.

Lemma sign_part_suffix s : suffix_of (Json.sign_part s).2 s.
Proof.
  destruct s as [|c s]; [apply suffix_of_refl|]. simpl.
  destruct (Ascii.eqb c "-"); [apply suffix_of_cons|]; apply suffix_of_refl.
Qed.

Lemma int_part_ends s int r : Json.int_part s = Some (int, r) -> ends_before s r.
Proof.
  destruct s as [|c s]; [done|]. unfold Json.int_part.
  destruct (Ascii.eqb_spec c "0") as [->|_].
  - intros [= <- <-]. by apply ends_before_here.
  - destruct (Json.is_digit c); [apply digits1_ends | done].
Qed.

Lemma frac_part_ends s frac r :
  Json.frac_part s = Some (frac, r) -> r = s \/ ends_before s r.
Proof.
  destruct s as [|c s]; [by intros [= <- <-]; left|]. unfold Json.frac_part.
  destruct (Ascii.eqb c "."); [|by intros [= <- <-]; left].
  destruct (Json.digits1 s) as [[d r']|] eqn:E; [|done]. intros [= <- <-]. right.
  apply digits1_ends in E. eapply ends_before_suffix; [exact E|].
  apply suffix_of_cons, suffix_of_refl.
Qed.

Lemma exp_part_ends s exp r :
  Json.exp_part s = Some (exp, r) -> r = s \/ ends_before s r.
Proof.
  destruct s as [|c s]; [by intros [= <- <-]; left|]. unfold Json.exp_part.
  destruct (Ascii.eqb c "e" || Ascii.eqb c "E"); [|by intros [= <- <-]; left].
  set (signed := match s with String g t => _ | EmptyString => _ end).
  assert (Hsigned : suffix_of signed.2 s).
  { subst signed. destruct s as [|g t]; [apply suffix_of_refl|].
    destruct (Ascii.eqb g "+"); [apply suffix_of_cons, suffix_of_refl|].
    destruct (Ascii.eqb g "-"); [apply suffix_of_cons|]; apply suffix_of_refl. }
  destruct signed as [esign s'']. simpl in Hsigned.
  destruct (Json.digits1 s'') as [[d r']|] eqn:E; [|done]. intros [= <- <-]. right.
  apply digits1_ends in E. eapply ends_before_suffix; [exact E|].
  by apply suffix_of_cons.
Qed.

Lemma number_ends s lit r : Json.number s = Some (lit, r) -> ends_before s r.
Proof.
  unfold Json.number. pose proof (sign_part_suffix s) as Hsign.
  destruct (Json.sign_part s) as [sign s0]. simpl in Hsign.
  destruct (Json.int_part s0) as [[int s1]|] eqn:E1; simpl; [|done].
  destruct (Json.frac_part s1) as [[frac s2]|] eqn:E2; simpl; [|done].
  destruct (Json.exp_part s2) as [[exp s3]|] eqn:E3; simpl; [|done].
  intros [= _ <-].
  apply int_part_ends in E1. apply frac_part_ends in E2. apply exp_part_ends in E3.
  assert (H1 : ends_before s s1) by (by eapply ends_before_suffix).
  assert (H2 : ends_before s s2).
  { destruct E2 as [-> | E2]; [done|]. eapply ends_before_suffix; [exact E2|].
    by eapply ends_before_is_suffix. }
  destruct E3 as [-> | E3]; [done|]. eapply ends_before_suffix; [exact E3|].
  by eapply ends_before_is_suffix.
Qed.

Lemma literal_ends s p c :
  Js.startsWith s (p +:+ String c EmptyString) = true -> c <> "`"%char ->
  ends_before s (Js.slice (String.length (p +:+ String c EmptyString)) s).
Proof.
  intros Hs Hc. apply startsWith_slice in Hs. exists p, c. split; [|done].
  rewrite Hs at 1. by rewrite append_assoc.
Qed.

Lemma skip_ws_ends s c r x :
  Json.skip_ws s = String c r -> c <> "`"%char -> suffix_of s x -> ends_before x r.
Proof.
  intros Hs Hc Hx. eapply ends_before_suffix; [by apply (ends_before_here c r)|].
  eapply suffix_of_trans; [|exact Hx]. rewrite <- Hs. apply skip_ws_suffix.
Qed.

Lemma parse_ends fuel :
  (forall s v r, Json.parse_value fuel s = Some (v, r) -> ends_before s r)
  /\ (forall s ms r, Json.parse_members fuel s = Some (ms, r) -> ends_before s r)
  /\ (forall s es r, Json.parse_elements fuel s = Some (es, r) -> ends_before s r).
Proof.
  induction fuel as [|fuel (IHv & IHm & IHe)]; [done|]. split_and!.
  - intros s v r Hs. destruct s as [|c s1]; [done|]. cbn [Json.parse_value] in Hs.
    destruct (Ascii.eqb c "{").
    { destruct (Json.skip_ws s1) as [|c2 s2] eqn:Hws; [done|].
      destruct (Ascii.eqb_spec c2 "}") as [->|_].
      - injection Hs as _ <-. eapply skip_ws_ends; [done..|]. apply suffix_of_cons, suffix_of_refl.
      - destruct (Json.parse_members fuel (String c2 s2)) as [[ms r']|] eqn:E; [|done].
        injection Hs as _ <-. eapply ends_before_suffix; [by eapply IHm|].
        rewrite <- Hws. apply suffix_of_cons, skip_ws_suffix. }
    destruct (Ascii.eqb c "[").
    { destruct (Json.skip_ws s1) as [|c2 s2] eqn:Hws; [done|].
      destruct (Ascii.eqb_spec c2 "]") as [->|_].
      - injection Hs as _ <-. eapply skip_ws_ends; [done..|]. apply suffix_of_cons, suffix_of_refl.
      - destruct (Json.parse_elements fuel (String c2 s2)) as [[es r']|] eqn:E; [|done].
        injection Hs as _ <-. eapply ends_before_suffix; [by eapply IHe|].
        rewrite <- Hws. apply suffix_of_cons, skip_ws_suffix. }
    destruct (Ascii.eqb c "034").
    { destruct (Json.string_chars s1) as [[us r']|] eqn:E; [|done]. injection Hs as _ <-.
      eapply ends_before_suffix; [by eapply string_chars_ends|].
      apply suffix_of_cons, suffix_of_refl. }
    destruct (Js.startsWith (String c s1) "true") eqn:Ht.
    { apply (literal_ends _ "tru" "e") in Ht; [|done]. injection Hs as _ <-. exact Ht. }
    destruct (Js.startsWith (String c s1) "false") eqn:Hf.
    { apply (literal_ends _ "fals" "e") in Hf; [|done]. injection Hs as _ <-. exact Hf. }
    destruct (Js.startsWith (String c s1) "null") eqn:Hn.
    { apply (literal_ends _ "nul" "l") in Hn; [|done]. injection Hs as _ <-. exact Hn. }
    destruct (Json.number (String c s1)) as [[lit r']|] eqn:E; [|done].
    injection Hs as _ <-. by eapply number_ends.
  - intros s ms r Hs. destruct s as [|c s1]; [done|]. cbn [Json.parse_members] in Hs.
    destruct (Ascii.eqb c "034"); [|done].
    destruct (Json.string_chars s1) as [[k s2]|] eqn:Ek; [|done]. simpl in Hs.
    apply (string_chars_ends _ _ _ _ (le_n _)), ends_before_is_suffix in Ek.
    destruct (Json.skip_ws s2) as [|c3 s3] eqn:Hws2; [done|].
    destruct (Ascii.eqb c3 ":"); [|done].
    destruct (Json.parse_value fuel (Json.skip_ws s3)) as [[v s4]|] eqn:Ev; [|done].
    simpl in Hs. apply IHv, ends_before_is_suffix in Ev.
    assert (Hs4 : suffix_of s4 (String c s1)).
    { eapply suffix_of_trans; [exact Ev|]. eapply suffix_of_trans; [apply skip_ws_suffix|].
      apply suffix_of_cons. eapply suffix_of_trans; [|exact Ek].
      eapply suffix_of_trans; [|apply (skip_ws_suffix s2)]. rewrite Hws2.
      apply suffix_of_cons, suffix_of_refl. }
    destruct (Json.skip_ws s4) as [|c5 s5] eqn:Hws4; [done|].
    destruct (Ascii.eqb_spec c5 "}") as [->|_].
    { injection Hs as _ <-. by eapply skip_ws_ends. }
    destruct (Ascii.eqb c5 ","); [|done].
    destruct (Json.parse_members fuel (Json.skip_ws s5)) as [[ms' r']|] eqn:Em; [|done].
    injection Hs as _ <-. eapply ends_before_suffix; [by eapply IHm|].
    eapply suffix_of_trans; [apply skip_ws_suffix|].
    eapply suffix_of_trans; [|exact Hs4].
    eapply suffix_of_trans; [|apply (skip_ws_suffix s4)]. rewrite Hws4.
    apply suffix_of_cons, suffix_of_refl.
  - intros s es r Hs. cbn [Json.parse_elements] in Hs.
    destruct (Json.parse_value fuel s) as [[v s1]|] eqn:Ev; [|done]. simpl in Hs.
    apply IHv, ends_before_is_suffix in Ev.
    destruct (Json.skip_ws s1) as [|c2 s2] eqn:Hws; [done|].
    destruct (Ascii.eqb_spec c2 "]") as [->|_].
    { injection Hs as _ <-. by eapply skip_ws_ends. }
    destruct (Ascii.eqb c2 ","); [|done].
    destruct (Json.parse_elements fuel (Json.skip_ws s2)) as [[es' r']|] eqn:Ee; [|done].
    injection Hs as _ <-. eapply ends_before_suffix; [by eapply IHe|].
    eapply suffix_of_trans; [apply skip_ws_suffix|].
    eapply suffix_of_trans; [|exact Ev].
    eapply suffix_of_trans; [|apply (skip_ws_suffix s1)]. rewrite Hws.
    apply suffix_of_cons, suffix_of_refl.
Qed.

Lemma skip_ws_empty_last s : Json.skip_ws s = EmptyString -> last_char s <> Some "`"%char.
Proof.
  induction s as [|c s IH]; [done|]. intros Hs. simpl in Hs.
  destruct (Json.is_ws c) eqn:Hc; [|done].
  rewrite last_char_cons. destruct s as [|c' s]; [|by apply IH].
  by intros [= ->].
Qed.

(** A JSON text does not end with a backtick. *)
Lemma parse_last_char s v : Json.parse s = Some v -> last_char s <> Some "`"%char.
Proof.
  unfold Json.parse.
  destruct (Json.parse_value _ _) as [[v' r]|] eqn:E; [|done]. simpl.
  destruct (Json.skip_ws r) eqn:Hr; [|done]. intros _.
  apply parse_ends in E as (pre & c & Hs & Hc).
  destruct (skip_ws_suffix s) as [ws Hws]. rewrite Hs in Hws. rewrite Hws.
  rewrite <- append_assoc. destruct r as [|c' r].
  - by rewrite last_char_snoc; intros [= ->].
  - rewrite last_char_app by done. rewrite last_char_cons. clear -Hr.
    change (last_char (String c' r) <> Some "`"%char). by apply skip_ws_empty_last.
Qed.

(** Nor does it start with one. *)
Lemma parse_first_char s v : Json.parse (String "`" s) = Some v -> False.
Proof. unfold Json.parse. by cbn. Qed.

Lemma parse_empty : Json.parse EmptyString = None.
Proof. reflexivity. Qed.

(** *** The normalizer *)

Lemma cleanText_valid body v : Json.parse body = Some v -> cleanText body = body.
Proof.
  intros Hv. unfold cleanText, strip_opening_fence.
  destruct body as [|c body]; [done|].
  destruct (Ascii.eqb_spec c "`") as [->|Hc]; [by destruct (parse_first_char _ _ Hv)|].
  replace (Js.startsWith (String c body) "```json") with false.
  - apply strip_closing_fence_none. by eapply parse_last_char.
  - simpl. by destruct (Ascii.eqb_spec c "`").
Qed.

Lemma cleanText_fenced opening body closing v :
  opening = EmptyString \/ opening_fence opening ->
  closing = EmptyString \/ closing_fence closing ->
  starts_with_space body = false -> ends_with_space body = false ->
  Json.parse body = Some v ->
  cleanText (opening +:+ body +:+ closing) = body.
Proof.
  intros Hopen Hclose Hstart Hend Hv.
  assert (Hne : body <> EmptyString) by (by intros ->).
  assert (Hstrip : strip_closing_fence (body +:+ closing) = body).
  { destruct Hclose as [-> | (ws & Hws & ->)].
    - rewrite append_nil_r. apply strip_closing_fence_none. by eapply parse_last_char.
    - by apply strip_closing_fence_after. }
  unfold cleanText. destruct Hopen as [-> | (ws & Hws & ->)].
  - rewrite append_empty. unfold strip_opening_fence.
    destruct body as [|c body]; [done|].
    destruct (Ascii.eqb_spec c "`") as [->|Hc]; [by destruct (parse_first_char _ _ Hv)|].
    replace (Js.startsWith (String c body +:+ closing) "```json") with false; [done|].
    rewrite append_String. simpl. by destruct (Ascii.eqb_spec c "`").
  - rewrite !append_assoc.
    change (strip_opening_fence ("```json" +:+ ws +:+ body +:+ closing))
      with (Js.skip_spaces (ws +:+ body +:+ closing)).
    rewrite skip_spaces_all by done.
    rewrite skip_spaces_solid; [done|]. by destruct body.
Qed.

(** A text that opens with a backtick but not with the json fence is no
    JSON after cleaning. *)
Lemma cleanText_other_fence rest :
  Js.startsWith (String "`" rest) "```json" = false ->
  Json.parse (cleanText (String "`" rest)) = None.
Proof.
  intros Hstart. unfold cleanText, strip_opening_fence. rewrite Hstart.
  cbn [strip_closing_fence]. by destruct (closing_fence_here (String "`" rest)).
Qed.

Lemma cleanAndParseJson_run {W} (text : string) (w : W) :
  cleanAndParseJson (Some text) w =
    match Json.parse (cleanText text) with
    | Some v => (Normal v, w, [])
    | None =>
        (Abrupt parse_failure, w,
         [Console LevelError "JSON Parse Error on text:" (Some (LogText (Some text)))])
    end.
Proof. unfold cleanAndParseJson. simpl. by destruct (Json.parse (cleanText text)). Qed.

(** C6, as stated, fails: a fence without the [json] tag is not removed at
    the front. The reply below is valid JSON in such a fence; only the closing
    marker is stripped and the normalizer throws. *)
Lemma bare_fence_is_not_stripped :
  Json.parse json_a1 = Some (Json.Object [(Json.units "a", Json.Number "1")])
  /\ cleanText ("```" +:+ Js.nl +:+ json_a1 +:+ Js.nl +:+ "```") = "```" +:+ Js.nl +:+ json_a1
  /\ outcome (cleanAndParseJson (Some ("```" +:+ Js.nl +:+ json_a1 +:+ Js.nl +:+ "```")) tt)
     = Abrupt parse_failure.
Proof. repeat split; vm_compute; reflexivity. Qed.

(** C6, amended: a reply that is valid JSON is parsed as it is; so is valid
    JSON (with no white space of its own around it) behind an optional opening
    marker, the fence with the tag [json] and any white space, and before an
    optional closing marker, any white space and the fence. A reply that opens
    with a backtick but not with the fence and the tag [json] fails. The two
    replies of the specification parse to the object with [a] equal to 1. *)
Theorem cleanAndParseJson_json_fence {W} (w : W) :
  (forall body v, Json.parse body = Some v ->
     cleanAndParseJson (Some body) w = (Normal v, w, []))
  /\ (forall opening body closing v,
        opening = EmptyString \/ opening_fence opening ->
        closing = EmptyString \/ closing_fence closing ->
        starts_with_space body = false -> ends_with_space body = false ->
        Json.parse body = Some v ->
        cleanAndParseJson (Some (opening +:+ body +:+ closing)) w = (Normal v, w, []))
  /\ (forall rest, Js.startsWith (String "`" rest) "```json" = false ->
        outcome (cleanAndParseJson (Some (String "`" rest)) w) = Abrupt parse_failure)
  /\ cleanAndParseJson (Some ("```json" +:+ Js.nl +:+ json_a1 +:+ Js.nl +:+ "```")) w
     = (Normal (Json.Object [(Json.units "a", Json.Number "1")]), w, [])
  /\ cleanAndParseJson (Some json_a1) w
     = (Normal (Json.Object [(Json.units "a", Json.Number "1")]), w, []).
Proof.
  split_and!.
  - intros body v Hv. by rewrite cleanAndParseJson_run, (cleanText_valid body v), Hv.
  - intros opening body closing v Ho Hc Hs He Hv.
    by rewrite cleanAndParseJson_run, (cleanText_fenced opening body closing v), Hv.
  - intros rest Hrest. by rewrite cleanAndParseJson_run, cleanText_other_fence.
  - rewrite cleanAndParseJson_run. vm_compute. reflexivity.
  - rewrite cleanAndParseJson_run. vm_compute. reflexivity.
Qed.

Lemma cleanAndParseJson_json_fence_witness :
  cleanAndParseJson (Some ("```json" +:+ " " +:+ "[1, 2]" +:+ Js.nl +:+ "```")) tt
  = (Normal (Json.Array [Json.Number "1"; Json.Number "2"]), tt, []).
Proof.
  destruct (cleanAndParseJson_json_fence tt) as (_ & Hfenced & _).
  apply (Hfenced ("```json" +:+ " ") "[1, 2]" (Js.nl +:+ "```")).
  - right. exists " ". split; reflexivity.
  - right. exists Js.nl. split; reflexivity.
  - reflexivity.
  - reflexivity.
  - vm_compute. reflexivity.
Defined.

(** C7, as stated, fails: the error thrown for [not json] has a fixed
    message that does not contain the reply, and a reply that is valid JSON of
    the wrong shape, the empty array where a word definition is expected, is
    returned and not refused. *)
Lemma parse_failure_carries_no_text :
  outcome (cleanAndParseJson (Some "not json") tt) = Abrupt parse_failure
  /\ message parse_failure = Some "Failed to parse AI response. Ensure content is valid JSON."
  /\ Js.includes "Failed to parse AI response. Ensure content is valid JSON." "not json" = false
  /\ outcome (cleanAndParseJson (Some "[]") tt) = Normal (Json.Array [])
  /\ is_WordDefinition (Json.Array []) = false.
Proof. repeat split; vm_compute; reflexivity. Qed.

(** C7, amended: when the reply without its fence is not valid JSON the
    normalizer throws the error with the fixed message and writes the raw
    reply to the console, not into the error; a value is only returned when
    the whole cleaned reply parses, and then it is returned whatever its
    shape. *)
Theorem cleanAndParseJson_failure {W} (text : string) (w : W) :
  (Json.parse (cleanText text) = None ->
     cleanAndParseJson (Some text) w
     = (Abrupt parse_failure, w,
        [Console LevelError "JSON Parse Error on text:" (Some (LogText (Some text)))]))
  /\ message parse_failure = Some "Failed to parse AI response. Ensure content is valid JSON."
  /\ (forall v, outcome (cleanAndParseJson (Some text) w) = Normal v ->
        Json.parse (cleanText text) = Some v)
  /\ (forall v, Json.parse (cleanText text) = Some v ->
        cleanAndParseJson (Some text) w = (Normal v, w, [])).
Proof.
  rewrite cleanAndParseJson_run. split_and!.
  - by intros ->.
  - done.
  - intros v. destruct (Json.parse (cleanText text)); [by intros [= ->] | done].
  - by intros v ->.
Qed.

Lemma cleanAndParseJson_failure_witness :
  cleanAndParseJson (Some "not json") tt
  = (Abrupt parse_failure, tt,
     [Console LevelError "JSON Parse Error on text:" (Some (LogText (Some "not json")))]).
Proof.
  destruct (cleanAndParseJson_failure "not json" tt) as (Hfail & _).
  apply Hfail. vm_compute. reflexivity.
Defined.

(** ** ProviderRouter *)

Lemma fetches_app t1 t2 : fetches (t1 ++ t2) = fetches t1 ++ fetches t2.
Proof.
  induction t1 as [|ev t1 IH]; [done|]. destruct ev; simpl; by rewrite ?IH.
Qed.

Section ProviderRouterFacts.
Context {W : Type} `{Platform W}.

Lemma cleanAndParseJson_no_fetch text (w : W) :
  fetches (trace (cleanAndParseJson text w)) = [] /\ world_after (cleanAndParseJson text w) = w.
Proof.
  unfold cleanAndParseJson. by destruct (text ≫= _).
Qed.

Lemma primary_attempt_no_fetch prompt (w : W) :
  fetches (trace (primary_attempt prompt w)) = [].
Proof.
  unfold primary_attempt, getAi, models_generateContent, bind, emit, perform, ret, throw.
  destruct (API_KEY process_env) as [apiKey|]; [|done].
  destruct (Js.truthy apiKey); [|done]. simpl.
  destruct (generateContent _ _ _ w) as [[text|e] w']; [|done].
  pose proof (cleanAndParseJson_no_fetch text w') as [Hf _].
  destruct (cleanAndParseJson text w') as [[r w''] t]. unfold trace in *. simpl in *.
  done.
Qed.

Lemma retry_loop_no_fetch {T} (fn : Eff W JsError T) retries remaining i delayMs lastError w :
  (forall w', fetches (trace (fn w')) = []) ->
  fetches (trace (retry_loop fn retries remaining i delayMs lastError w)) = [].
Proof.
  intros Hfn. revert i delayMs lastError w.
  induction remaining as [|r IH]; intros i delayMs lastError w; [done|].
  simpl. unfold try_catch. specialize (Hfn w).
  destruct (fn w) as [[[v|e] w'] t]; [done|]. unfold trace in Hfn. simpl in Hfn.
  destruct (isInternalError e && (i <? retries - 1)%nat); unfold throw, bind, emit.
  - specialize (IH (S i) (delayMs * backoffMultiplier)%Z (Some e) w').
    destruct (retry_loop fn retries r (S i) _ _ w') as [[res w''] t'].
    unfold trace in *. simpl in *. by rewrite fetches_app, Hfn.
  - unfold trace. simpl. by rewrite app_nil_r.
Qed.

Lemma secondary_attempt_fetches prompt (w : W) :
  configured (DEEPSEEK_API_KEY process_env) = true ->
  exists request,
    fetches (trace (secondary_attempt prompt w)) = [request] /\ userPrompt request = prompt.
Proof.
  unfold configured, secondary_attempt, callDeepSeek, bind, emit, perform, ret, throw.
  destruct (DEEPSEEK_API_KEY process_env) as [key|]; [|done]. intros ->.
  exists (mkRequest "https://api.deepseek.com/chat/completions" ("Bearer " +:+ key)
            "deepseek-chat" "You are an English dictionary API. Output purely JSON." prompt).
  split; [|reflexivity]. simpl.
  destruct (fetch _ w) as [[response|e] w']; [|done].
  destruct (ok response); simpl; [|done].
  destruct (content response) as [text|e]; [|done].
  pose proof (cleanAndParseJson_no_fetch text w') as [Hf _].
  destruct (cleanAndParseJson text w') as [[r w''] t]. unfold trace in *. simpl in *.
  by rewrite Hf.
Qed.

Lemma getWordDefinition_run word contextSentence (w : W) :
  let prompt := definition_prompt word contextSentence in
  getWordDefinition word contextSentence w =
    match withRetry (primary_attempt prompt) default_retries default_delayMs w with
    | (Normal v, w1, t1) => (Normal v, w1, t1)
    | (Abrupt geminiError, w1, t1) =>
        if configured (DEEPSEEK_API_KEY process_env) then
          match secondary_attempt prompt w1 with
          | (Normal v, w2, t2) => (Normal v, w2, t1 ++ fallback_warning geminiError :: t2)
          | (Abrupt e, w2, t2) =>
              (Abrupt (Some e), w2,
               t1 ++ fallback_warning geminiError :: t2 ++ [fallback_failure e])
          end
        else (Abrupt geminiError, w1, t1 ++ [fallback_warning geminiError])
    end.
Proof.
  cbv zeta. unfold getWordDefinition, try_catch at 1.
  destruct (withRetry _ _ _ w) as [[[v|geminiError] w1] t1]; [done|].
  unfold bind, emit, try_catch, throw. simpl.
  destruct (configured _); [|done].
  by destruct (secondary_attempt _ w1) as [[[v|e] w2] t2].
Qed.

(** C1: when the retried call to the primary provider fails and a fallback
    key is configured, one request is sent to the secondary provider, with the
    same prompt; its parsed reply is the result, and when it fails its error is
    the one thrown. Without a fallback key the error of the primary is thrown
    and no request is sent. Every call ends in exactly one of [Success],
    [PrimaryFailedNoFallback] and [FallbackFailed]. *)
Theorem getWordDefinition_fallback (word contextSentence : string) (w : W) :
  let prompt := definition_prompt word contextSentence in
  let primary := withRetry (primary_attempt prompt) default_retries default_delayMs w in
  let secondary := secondary_attempt prompt (world_after primary) in
  let run := getWordDefinition word contextSentence w in
  (forall geminiError, outcome primary = Abrupt geminiError ->
     (configured (DEEPSEEK_API_KEY process_env) = true ->
        (exists request, fetches (trace run) = [request] /\ userPrompt request = prompt)
        /\ (forall v, outcome secondary = Normal v -> outcome run = Normal v /\ Success run)
        /\ (forall e, outcome secondary = Abrupt e ->
              outcome run = Abrupt (Some e) /\ FallbackFailed run))
     /\ (configured (DEEPSEEK_API_KEY process_env) = false ->
           outcome run = Abrupt geminiError /\ fetches (trace run) = []
           /\ PrimaryFailedNoFallback run))
  /\ exactly_one (Success run) (PrimaryFailedNoFallback run) (FallbackFailed run).
Proof.
  cbv zeta. rewrite getWordDefinition_run. cbv zeta.
  pose proof (retry_loop_no_fetch (primary_attempt (definition_prompt word contextSentence))
                default_retries default_retries 0 default_delayMs None w
                (primary_attempt_no_fetch _)) as Hprimary.
  fold (withRetry (primary_attempt (definition_prompt word contextSentence))
          default_retries default_delayMs w) in Hprimary.
  destruct (withRetry _ _ _ w) as [[[v|geminiError] w1] t1]; unfold trace in Hprimary;
    simpl in Hprimary.
  { split; [done|]. left. split_and!.
    - by exists v.
    - by intros (e & ? & _).
    - by intros (e & request & ? & _). }
  unfold world_after at 1 2. simpl fst. simpl snd.
  destruct (configured (DEEPSEEK_API_KEY process_env)) eqn:Hkey.
  - destruct (secondary_attempt_fetches (definition_prompt word contextSentence) w1 Hkey)
      as (request & Hfetch & Hprompt).
    destruct (secondary_attempt _ w1) as [[[v|e] w2] t2] eqn:Hsecondary;
      unfold trace in Hfetch; simpl in Hfetch.
    + assert (Hrun : fetches (t1 ++ fallback_warning geminiError :: t2) = [request]).
      { by rewrite fetches_app, Hprimary; simpl; rewrite Hfetch. }
      split.
      * intros ? [= <-]. split; [|done]. intros _. split_and!.
        -- by exists request.
        -- intros ? [= <-]. split; [done | by exists v].
        -- done.
      * left. split_and!; [by exists v | by intros (? & ? & _) | by intros (? & ? & ? & _)].
    + assert (Hrun : fetches (t1 ++ fallback_warning geminiError :: t2 ++ [fallback_failure e])
                     = [request]).
      { rewrite fetches_app, Hprimary. simpl. by rewrite fetches_app, Hfetch. }
      assert (Hfailed : FallbackFailed
                (Abrupt (Some e) : Completion Thrown Json.value, w2,
                 t1 ++ fallback_warning geminiError :: t2 ++ [fallback_failure e])).
      { by exists e, request. }
      split.
      * intros ? [= <-]. split; [|done]. intros _. split_and!.
        -- by exists request.
        -- done.
        -- by intros ? [= <-].
      * right. right. split_and!; [by intros (? & ?) | | done].
        intros (? & _ & Hnone). unfold trace in Hnone. simpl in Hnone. by rewrite Hrun in Hnone.
  - assert (Hrun : fetches (t1 ++ [fallback_warning geminiError]) = []).
    { by rewrite fetches_app, Hprimary. }
    assert (Hnofallback : PrimaryFailedNoFallback
              (Abrupt geminiError : Completion Thrown Json.value, w1,
               t1 ++ [fallback_warning geminiError])).
    { by exists geminiError. }
    split.
    + intros ? [= <-]. split; [done|]. by intros _.
    + right. left. split_and!; [by intros (? & ?) | done |].
      intros (? & ? & _ & Hone). unfold trace in Hone. simpl in Hone. by rewrite Hrun in Hone.
Qed.

End ProviderRouterFacts.

Lemma getWordDefinition_fallback_witness :
  outcome (@getWordDefinition nat sample_platform "cat" "the cat sat" 0)
  = Normal (Json.Object [(Json.units "word", Json.Str (Json.units "cat"))]).
Proof.
  destruct (@getWordDefinition_fallback nat sample_platform "cat" "the cat sat" 0)
    as [Hfails _].
  destruct (Hfails (Some (Error "401 Unauthorized"))) as [Hconfigured _].
  - vm_compute. reflexivity.
  - destruct Hconfigured as (_ & Hsuccess & _); [reflexivity|].
    apply Hsuccess. vm_compute. reflexivity.
Defined.

(** ** The cost of a task *)

Lemma delays_app t1 t2 : delays (t1 ++ t2) = delays t1 ++ delays t2.
Proof. induction t1 as [|ev t1 IH]; [done|]. destruct ev; simpl; by rewrite ?IH. Qed.

Lemma generations_app t1 t2 : generations (t1 ++ t2) = generations t1 ++ generations t2.
Proof. induction t1 as [|ev t1 IH]; [done|]. destruct ev; simpl; by rewrite ?IH. Qed.

Lemma attempts_app t1 t2 : attempts (t1 ++ t2) = attempts t1 + attempts t2.
Proof. unfold attempts. by rewrite List.filter_app, length_app. Qed.

Section RetryExecutorCost.
Context {W T : Type} (fn : Eff W JsError T).

(** One step of the loop, for any closure. *)
Lemma retry_loop_unfold retries remaining i delayMs lastError w :
  retry_loop fn retries (S remaining) i delayMs lastError w =
    match fn w with
    | (Normal v, w', t) => (Normal v, w', t)
    | (Abrupt error, w', t) =>
        if isInternalError error && (i <? retries - 1)%nat then
          let '(r, w'', t') :=
            retry_loop fn retries remaining (S i) (delayMs * backoffMultiplier)
              (Some error) w' in
          (r, w'', t ++ retry_warning i retries delayMs error :: SetTimeout delayMs :: t')
        else (Abrupt (Some error), w', t ++ [])
    end.
Proof.
  simpl. unfold try_catch. destruct (fn w) as [[[v|error] w'] t]; [done|].
  destruct (isInternalError error && (i <? retries - 1)%nat); [|done].
  unfold bind, emit, retry_warning. simpl.
  by destruct (retry_loop _ _ _ _ _ _ w') as [[r w''] t'].
Qed.

(** The waits of a run are those of a backoff schedule within the budget,
    when the closure does not wait itself. *)
Lemma retry_loop_waits retries remaining i delayMs lastError w :
  (forall w', delays (trace (fn w')) = []) ->
  i + remaining = retries ->
  exists n, n <= remaining
    /\ delays (trace (retry_loop fn retries remaining i delayMs lastError w))
       = delays (backoff_schedule n delayMs).
Proof.
  intros Hfn. revert i delayMs lastError w.
  induction remaining as [|r IH]; intros i delayMs lastError w Hi; [by exists 0|].
  rewrite retry_loop_unfold. specialize (Hfn w).
  destruct (fn w) as [[[v|error] w'] t]; unfold trace in Hfn; simpl in Hfn.
  { exists 0. split; [lia | done]. }
  destruct (isInternalError error && (i <? retries - 1)%nat) eqn:Hcont.
  - apply andb_true_iff in Hcont as [_ Hlast%Nat.ltb_lt].
    destruct (IH (S i) (delayMs * backoffMultiplier)%Z (Some error) w' ltac:(lia))
      as (n & Hn & Hdelays).
    destruct (retry_loop _ _ _ _ _ _ w') as [[res w''] t'].
    unfold trace in *. simpl in *. rewrite delays_app, Hfn. simpl. rewrite Hdelays.
    destruct n as [|n].
    + exists 2. split; [lia|]. simpl. f_equal. lia.
    + exists (S (S n)). split; [lia|]. by rewrite (backoff_schedule_next (S n)) by lia.
  - exists 0. split; [lia|]. unfold trace. simpl. by rewrite app_nil_r.
Qed.

(** A count of events that the loop's own warning and wait do not add to
    grows by at most what one call of the closure adds, per iteration. *)
Lemma retry_loop_count (count : list Event -> nat) bound
    retries remaining i delayMs lastError w :
  (forall t1 t2, count (t1 ++ t2) = count t1 + count t2) ->
  (forall j r d e t, count (retry_warning j r d e :: SetTimeout d :: t) = count t) ->
  (forall w', count (trace (fn w')) <= bound) ->
  count (trace (retry_loop fn retries remaining i delayMs lastError w)) <= remaining * bound.
Proof.
  intros Happ Hown Hfn. revert i delayMs lastError w.
  induction remaining as [|r IH]; intros i delayMs lastError w.
  { unfold trace. simpl. pose proof (Happ [] []) as Hnil. simpl in Hnil. lia. }
  rewrite retry_loop_unfold. specialize (Hfn w).
  destruct (fn w) as [[[v|error] w'] t]; unfold trace in Hfn; simpl in Hfn.
  { unfold trace. simpl. lia. }
  destruct (isInternalError error && (i <? retries - 1)%nat).
  - specialize (IH (S i) (delayMs * backoffMultiplier)%Z (Some error) w').
    destruct (retry_loop _ _ _ _ _ _ w') as [[res w''] t'].
    unfold trace in *. simpl in *. rewrite Happ, Hown. lia.
  - unfold trace. simpl. rewrite app_nil_r. lia.
Qed.

(** The value a run returns is one the closure returned. *)
Lemma retry_loop_success retries remaining i delayMs lastError w v :
  outcome (retry_loop fn retries remaining i delayMs lastError w) = Normal v ->
  exists w', outcome (fn w') = Normal v.
Proof.
  revert i delayMs lastError w.
  induction remaining as [|r IH]; intros i delayMs lastError w; [done|].
  rewrite retry_loop_unfold.
  destruct (fn w) as [[[v'|error] w'] t] eqn:Hfn.
  { intros [= ->]. exists w. by rewrite Hfn. }
  destruct (isInternalError error && (i <? retries - 1)%nat); [|done].
  specialize (IH (S i) (delayMs * backoffMultiplier)%Z (Some error) w').
  destruct (retry_loop _ _ _ _ _ _ w') as [[res w''] t']. exact IH.
Qed.

(** A closure that fails at once with an error that is not retried ends the
    run on its first call. *)
Lemma withRetry_refused retries delayMs w error :
  1 <= retries ->
  fn w = (Abrupt error, w, []) -> isInternalError error = false ->
  withRetry fn retries delayMs w = (Abrupt (Some error), w, []).
Proof.
  intros Hretries Hfn Herror. unfold withRetry.
  destruct retries as [|r]; [lia|]. by rewrite retry_loop_unfold, Hfn, Herror.
Qed.

End RetryExecutorCost.

Lemma default_waits (n : nat) :
  n <= 3 ->
  delays (backoff_schedule n default_delayMs) ∈ [ []; [1000%Z]; [1000%Z; 2000%Z] ].
Proof.
  intros Hn. assert (n = 0 \/ n = 1 \/ n = 2 \/ n = 3) as [-> | [-> | [-> | ->]]] by lia;
    vm_compute; set_solver.
Qed.

Lemma attempts_cons_own j r d e t :
  attempts (retry_warning j r d e :: SetTimeout d :: t) = attempts t.
Proof. done. Qed.

Lemma generations_cons_own j r d e t :
  length (generations (retry_warning j r d e :: SetTimeout d :: t)) = length (generations t).
Proof. done. Qed.

Section TaskFacts.
Context {W : Type} `{Platform W}.

Lemma getAi_missing (w : W) :
  configured (API_KEY process_env) = false -> getAi w = (Abrupt missing_key, w, []).
Proof.
  unfold configured, getAi, missing_key.
  destruct (API_KEY process_env) as [apiKey|]; [|done]. by intros ->.
Qed.

Lemma getAi_quiet (w : W) :
  exists r, getAi w = (r, w, [])
    /\ forall apiKey, r = Normal apiKey -> API_KEY process_env = Some apiKey.
Proof.
  unfold getAi. destruct (API_KEY process_env) as [apiKey|]; [|by eexists].
  destruct (Js.truthy apiKey); eexists; (split; [done|]); [by intros ? [= ->] | done].
Qed.

Lemma cleanAndParseJson_quiet text (w : W) :
  delays (trace (cleanAndParseJson text w)) = []
  /\ generations (trace (cleanAndParseJson text w)) = []
  /\ attempts (trace (cleanAndParseJson text w)) = 0.
Proof. unfold cleanAndParseJson. by destruct (text ≫= _). Qed.

Lemma primary_attempt_cost prompt (w : W) :
  delays (trace (primary_attempt prompt w)) = []
  /\ length (generations (trace (primary_attempt prompt w))) <= 1
  /\ Forall (fun g => g.1.2 = "gemini-2.5-flash" /\ g.2 = prompt
                      /\ API_KEY process_env = Some g.1.1)
       (generations (trace (primary_attempt prompt w))).
Proof.
  unfold primary_attempt, getAi, models_generateContent, bind, emit, perform, ret, throw.
  destruct (API_KEY process_env) as [apiKey|] eqn:Hkey;
    [|split_and!; simpl; [done | lia | by constructor]].
  destruct (Js.truthy apiKey); [|split_and!; simpl; [done | lia | by constructor]]. simpl.
  destruct (generateContent _ _ _ w) as [[text|e] w'].
  - pose proof (cleanAndParseJson_quiet text w') as (Hd & Hg & _).
    destruct (cleanAndParseJson text w') as [[r w''] t]. unfold trace in *. simpl in *.
    rewrite Hd, Hg. split_and!; [done | simpl; lia | by repeat constructor].
  - split_and!; [done | simpl; lia | by repeat constructor].
Qed.

Lemma secondary_attempt_cost prompt (w : W) :
  delays (trace (secondary_attempt prompt w)) = []
  /\ generations (trace (secondary_attempt prompt w)) = []
  /\ length (fetches (trace (secondary_attempt prompt w))) <= 1.
Proof.
  unfold secondary_attempt, callDeepSeek, bind, emit, perform, ret, throw.
  destruct (DEEPSEEK_API_KEY process_env) as [key|]; [|split_and!; simpl; done || lia].
  destruct (Js.truthy key); [|split_and!; simpl; done || lia]. simpl.
  destruct (fetch _ w) as [[response|e] w']; [|split_and!; simpl; done || lia].
  destruct (ok response); simpl; [|split_and!; simpl; done || lia].
  destruct (content response) as [text|e]; [|split_and!; simpl; done || lia].
  pose proof (cleanAndParseJson_quiet text w') as (Hd & Hg & _).
  pose proof (cleanAndParseJson_no_fetch text w') as [Hf _].
  destruct (cleanAndParseJson text w') as [[r w''] t]. unfold trace in *. simpl in *.
  rewrite Hd, Hg, Hf. split_and!; simpl; done || lia.
Qed.

Lemma retry_loop_generations prompt retries remaining i delayMs lastError (w : W) :
  Forall (fun g => g.1.2 = "gemini-2.5-flash" /\ g.2 = prompt
                   /\ API_KEY process_env = Some g.1.1)
    (generations (trace (retry_loop (primary_attempt prompt) retries remaining i delayMs
                           lastError w))).
Proof.
  revert i delayMs lastError w.
  induction remaining as [|r IH]; intros i delayMs lastError w; [by constructor|].
  rewrite retry_loop_unfold.
  pose proof (primary_attempt_cost prompt w) as (_ & _ & Hfn).
  destruct (primary_attempt prompt w) as [[[v|error] w'] t]; unfold trace in Hfn; simpl in Hfn;
    [done|].
  destruct (isInternalError error && (i <? retries - 1)%nat).
  - specialize (IH (S i) (delayMs * backoffMultiplier)%Z (Some error) w').
    destruct (retry_loop _ _ _ _ _ _ w') as [[res w''] t'].
    unfold trace in *. simpl in *. rewrite generations_app. simpl.
    by apply Forall_app.
  - unfold trace. simpl. by rewrite app_nil_r.
Qed.

(** What a define-word call may cost, whatever the two providers do: at most
    three requests to the primary provider, each with the prompt of the call
    and the model [gemini-2.5-flash], waits of one and then two seconds
    between them and none otherwise, and at most one request to the secondary
    provider. Without a key for the primary provider no request is sent to it
    and nothing is waited for; with a key for the secondary provider the call
    is then answered by the secondary provider alone. *)
Theorem getWordDefinition_budget (word contextSentence : string) (w : W) :
  let prompt := definition_prompt word contextSentence in
  let run := getWordDefinition word contextSentence w in
  length (generations (trace run)) <= 3
  /\ Forall (fun g => g.1.2 = "gemini-2.5-flash" /\ g.2 = prompt
                      /\ API_KEY process_env = Some g.1.1)
       (generations (trace run))
  /\ delays (trace run) ∈ [ []; [1000%Z]; [1000%Z; 2000%Z] ]
  /\ length (fetches (trace run)) <= 1
  /\ (configured (API_KEY process_env) = false ->
        generations (trace run) = [] /\ delays (trace run) = []
        /\ (configured (DEEPSEEK_API_KEY process_env) = true ->
              outcome run = settle (outcome (secondary_attempt prompt w)))
        /\ (configured (DEEPSEEK_API_KEY process_env) = false ->
              outcome run = Abrupt (Some missing_key))).
Proof.
  cbv zeta. rewrite getWordDefinition_run. cbv zeta.
  set (prompt := definition_prompt word contextSentence).
  pose proof (retry_loop_waits (primary_attempt prompt) default_retries default_retries 0
                default_delayMs None w (fun w' => proj1 (primary_attempt_cost prompt w')) eq_refl)
    as (n & Hn & Hwaits).
  pose proof (retry_loop_count (primary_attempt prompt) (fun t => length (generations t)) 1
                default_retries default_retries 0 default_delayMs None w
                ltac:(intros; cbv beta; by rewrite generations_app, length_app)
                generations_cons_own
                (fun w' => proj1 (proj2 (primary_attempt_cost prompt w')))) as Hcount.
  pose proof (retry_loop_no_fetch (primary_attempt prompt) default_retries default_retries 0
                default_delayMs None w (primary_attempt_no_fetch _)) as Hfetch.
  pose proof (retry_loop_generations prompt default_retries default_retries 0
                default_delayMs None w) as Hall.
  fold (withRetry (primary_attempt prompt) default_retries default_delayMs w) in *.
  pose proof (getAi_missing w) as Hmissing.
  assert (Hnokey : configured (API_KEY process_env) = false ->
            withRetry (primary_attempt prompt) default_retries default_delayMs w
            = (Abrupt (Some missing_key), w, [])).
  { intros Hkey. apply withRetry_refused; [unfold default_retries; lia | | done].
    unfold primary_attempt, bind. by rewrite Hmissing. }
  apply default_waits in Hn. rewrite <- Hwaits in Hn. simpl in Hcount.
  destruct (withRetry _ _ _ w) as [[[v|geminiError] w1] t1] eqn:Hprimary;
    unfold trace in *; simpl in *.
  { split_and!; try done; [by rewrite Hfetch; simpl; lia|].
    intros Hkey. by specialize (Hnokey Hkey). }
  pose proof (secondary_attempt_cost prompt w1) as (Hd2 & Hg2 & Hf2).
  assert (Hwarn : forall t,
            generations (t1 ++ fallback_warning geminiError :: t) = generations t1 ++ generations t
            /\ delays (t1 ++ fallback_warning geminiError :: t) = delays t1 ++ delays t
            /\ fetches (t1 ++ fallback_warning geminiError :: t) = fetches t).
  { intros t. by rewrite generations_app, delays_app, fetches_app, Hfetch. }
  assert (Hfail : forall t e,
            generations (t ++ [fallback_failure e]) = generations t
            /\ delays (t ++ [fallback_failure e]) = delays t
            /\ fetches (t ++ [fallback_failure e]) = fetches t).
  { intros t e. rewrite generations_app, delays_app, fetches_app. simpl.
    by rewrite !app_nil_r. }
  destruct (configured (DEEPSEEK_API_KEY process_env)) eqn:Hfallback.
  - destruct (secondary_attempt prompt w1) as [[[v|e] w2] t2] eqn:Hsecondary;
      unfold trace in *; simpl in *.
    + destruct (Hwarn t2) as (-> & -> & ->). rewrite Hd2, Hg2, !app_nil_r.
      split_and!; try done.
      intros Hkey. injection (Hnokey Hkey) as -> -> ->. rewrite Hsecondary.
      split_and!; done.
    + destruct (Hwarn (t2 ++ [fallback_failure e])) as (-> & -> & ->).
      destruct (Hfail t2 e) as (-> & -> & ->). rewrite Hd2, Hg2, !app_nil_r.
      split_and!; try done.
      intros Hkey. injection (Hnokey Hkey) as -> -> ->. rewrite Hsecondary.
      split_and!; done.
  - unfold trace, outcome. cbn [fst snd].
    destruct (Hwarn []) as (-> & -> & ->). simpl. rewrite !app_nil_r.
    split_and!; try done; [lia|].
    intros Hkey. injection (Hnokey Hkey) as -> -> ->. split_and!; done.
Qed.

End TaskFacts.

Lemma getWordDefinition_budget_witness :
  outcome (@getWordDefinition nat keyless_platform "cat" "the cat sat" 0)
  = Normal (Json.Object [(Json.units "word", Json.Str (Json.units "cat"))]).
Proof.
  destruct (@getWordDefinition_budget nat keyless_platform "cat" "the cat sat" 0)
    as (_ & _ & _ & _ & Hkeyless).
  destruct Hkeyless as (_ & _ & Hfallback & _); [reflexivity|].
  rewrite Hfallback; reflexivity.
Defined.

(** ** The audio tasks *)

Lemma split_cons_piece sep c s :
  Ascii.eqb c sep = false ->
  Js.split sep (String c s)
  = match Js.split sep s with
    | p :: ps => String c p :: ps
    | [] => [String c EmptyString]
    end.
Proof. intros Hc. simpl. by rewrite Hc. Qed.

Lemma split_header sep header rest :
  Js.includes header (String sep EmptyString) = false ->
  Js.split sep (header +:+ String sep rest) = header :: Js.split sep rest.
Proof.
  induction header as [|c header IH]; intros Hh.
  - simpl. by rewrite Ascii.eqb_refl.
  - rewrite append_String. simpl in Hh.
    destruct (Ascii.eqb c sep) eqn:Hc; [done|]. simpl in Hh.
    rewrite split_cons_piece by done. by rewrite IH.
Qed.

(** [fileToBase64] removes the header of a data URL: of a text with a comma
    it keeps what lies between the first comma and the next one, or the end.
    When nothing follows the first comma, as in the data URL of an empty
    recording, or when there is no comma, the text is returned whole, header
    included. *)
Theorem base64_of_data_url (header payload : string) :
  Js.includes header "," = false ->
  Js.includes payload "," = false ->
  base64_of (header +:+ "," +:+ payload)
  = (if String.eqb payload "" then header +:+ "," else payload)
  /\ base64_of header = header
  /\ (forall more, payload <> "" ->
        base64_of (header +:+ "," +:+ payload +:+ "," +:+ more) = payload).
Proof.
  intros Hheader Hpayload. unfold base64_of. split_and!.
  - change (header +:+ "," +:+ payload) with (header +:+ String "," payload).
    rewrite split_header, split_without_separator by done. simpl.
    unfold Js.or_else, Js.truthy. destruct (String.eqb_spec payload "") as [->|]; done.
  - by rewrite split_without_separator.
  - intros more Hne.
    change (header +:+ "," +:+ payload +:+ "," +:+ more)
      with (header +:+ String "," (payload +:+ String "," more)).
    rewrite !split_header by done. simpl.
    unfold Js.or_else, Js.truthy. by destruct (String.eqb_spec payload "").
Qed.

Lemma base64_of_data_url_witness :
  base64_of "data:audio/webm;base64,GkXfo59ChoEB" = "GkXfo59ChoEB"
  /\ base64_of "data:audio/webm;base64," = "data:audio/webm;base64,".
Proof.
  split.
  - apply (base64_of_data_url "data:audio/webm;base64" "GkXfo59ChoEB"); reflexivity.
  - apply (base64_of_data_url "data:audio/webm;base64" ""); reflexivity.
Defined.

(** Closes the cost of a step that ended without a request or a reply. *)
Ltac solve_cost := try split_and!; first [done | unfold attempts; simpl; lia].

Section AudioTaskFacts.
Context {W : Type} `{Platform W} `{Multimodal W}.

Lemma speech_attempt_cost text (w : W) :
  delays (trace (speech_attempt text w)) = []
  /\ attempts (trace (speech_attempt text w)) <= 1
  /\ fetches (trace (speech_attempt text w)) = []
  /\ generations (trace (speech_attempt text w)) = []
  /\ forall audio, outcome (speech_attempt text w) = Normal audio ->
       audio <> ""
       /\ exists response,
            answers TTS_MODEL [TextPart text] response /\ reply_audio response = Some audio.
Proof.
  unfold speech_attempt, bind, probe, bind, emit, perform, ret, throw.
  destruct (getAi_quiet w) as ([apiKey|e] & -> & Hkey); [|solve_cost].
  simpl. destruct (generateContentOf _ _ _ w) as [[response|e] w'] eqn:Hrequest;
    [|solve_cost].
  destruct (reply_audio response) as [audioData|] eqn:Haudio; [|solve_cost].
  destruct (Js.truthy audioData) eqn:Htruthy; [|solve_cost].
  split_and!; try solve_cost.
  unfold outcome. simpl. intros audio [= <-]. split.
  - intros Hempty. by rewrite Hempty in Htruthy.
  - exists response. split; [|done]. exists apiKey, w, w'. by split; [apply Hkey|].
Qed.

Lemma scoring_attempt_cost base64Audio prompt (w : W) :
  delays (trace (scoring_attempt base64Audio prompt w)) = []
  /\ attempts (trace (scoring_attempt base64Audio prompt w)) <= 1
  /\ fetches (trace (scoring_attempt base64Audio prompt w)) = []
  /\ generations (trace (scoring_attempt base64Audio prompt w)) = []
  /\ forall v, outcome (scoring_attempt base64Audio prompt w) = Normal v ->
       exists response text,
         answers TRANSCRIPTION_MODEL
           [InlineData (PString "audio/webm") base64Audio; TextPart prompt] response
         /\ reply_text response = Some text
         /\ text <> "" /\ Json.parse (cleanText text) = Some v.
Proof.
  unfold scoring_attempt, bind, probe, bind, emit, perform, ret, throw.
  destruct (getAi_quiet w) as ([apiKey|e] & -> & Hkey); [|solve_cost].
  simpl. destruct (generateContentOf _ _ _ w) as [[response|e] w'] eqn:Hrequest;
    [|solve_cost].
  destruct (reply_text response) as [text|] eqn:Htext; [|solve_cost].
  destruct (Js.truthy text) eqn:Htruthy; [|solve_cost].
  pose proof (cleanAndParseJson_quiet (Some text) w') as (Hd & Hg & Ha).
  pose proof (cleanAndParseJson_no_fetch (Some text) w') as [Hf _].
  unfold cleanAndParseJson in *. simpl in *.
  destruct (Json.parse (cleanText text)) as [v|] eqn:Hparse.
  - split_and!; try solve_cost.
    unfold outcome. simpl. intros v' [= <-]. exists response, text. split_and!; try done.
    + exists apiKey, w, w'. by split; [apply Hkey|].
    + intros Hempty. by rewrite Hempty in Htruthy.
  - solve_cost.
Qed.

(** What a speech request may cost and give, whatever the provider does: at
    most three requests, waits of one and then two seconds between them and
    none otherwise, and never a request to the secondary provider; the audio
    it returns is never empty. Without a key nothing is sent and the error
    says so. *)
Theorem generateSpeech_budget (text : string) (w : W) :
  let run := generateSpeech text w in
  attempts (trace run) <= 3
  /\ delays (trace run) ∈ [ []; [1000%Z]; [1000%Z; 2000%Z] ]
  /\ fetches (trace run) = [] /\ generations (trace run) = []
  /\ (forall audio, outcome run = Normal audio ->
        audio <> ""
        /\ exists response,
             answers TTS_MODEL [TextPart text] response /\ reply_audio response = Some audio)
  /\ (configured (API_KEY process_env) = false ->
        run = (Abrupt (Some missing_key), w, [])).
Proof.
  cbv zeta. unfold generateSpeech, withRetry.
  pose proof (fun w' => speech_attempt_cost text w') as Hcost.
  split_and!.
  - apply (retry_loop_count (speech_attempt text) attempts 1 default_retries default_retries 0
             default_delayMs None w attempts_app attempts_cons_own).
    intros w'. apply Hcost.
  - destruct (retry_loop_waits (speech_attempt text) default_retries default_retries 0
                default_delayMs None w (fun w' => proj1 (Hcost w')) eq_refl) as (n & Hn & ->).
    by apply default_waits.
  - apply retry_loop_no_fetch. intros w'. apply Hcost.
  - apply length_zero_iff_nil, Nat.le_0_r.
    apply (retry_loop_count (speech_attempt text) (fun t => length (generations t)) 0
             default_retries default_retries 0 default_delayMs None w).
    + intros. cbv beta. by rewrite generations_app, length_app.
    + apply generations_cons_own.
    + intros w'. destruct (Hcost w') as (_ & _ & _ & -> & _). done.
  - intros audio (w' & Hw')%retry_loop_success. by eapply Hcost.
  - intros Hkey. apply (withRetry_refused (speech_attempt text));
      [unfold default_retries; lia | | done].
    unfold speech_attempt, bind. by rewrite getAi_missing.
Qed.

(** What a scoring request may cost and give. The recording is read first,
    and a failure of the read is the failure of the call, with nothing sent.
    After that: at most three requests, waits of one and then two seconds
    between them and none otherwise, never a request to the secondary
    provider; the score is the parsed text of a reply that is not empty, as
    it is; and without a key nothing is sent and the error says so. *)
Theorem scorePronunciation_budget (userAudio : Blob) (referenceText : string) (w : W) :
  let run := scorePronunciation userAudio referenceText w in
  attempts (trace run) <= 3
  /\ delays (trace run) ∈ [ []; [1000%Z]; [1000%Z; 2000%Z] ]
  /\ fetches (trace run) = [] /\ generations (trace run) = []
  /\ (forall v, outcome run = Normal v ->
        exists result w' response text,
          readAsDataURL (inr userAudio) w = (Normal result, w')
          /\ answers TRANSCRIPTION_MODEL
               [InlineData (PString "audio/webm") (base64_of result);
                TextPart (scoring_prompt referenceText)] response
          /\ reply_text response = Some text
          /\ text <> "" /\ Json.parse (cleanText text) = Some v)
  /\ (forall error w', readAsDataURL (inr userAudio) w = (Abrupt error, w') ->
        run = (Abrupt (Some error), w', []))
  /\ (forall result w', readAsDataURL (inr userAudio) w = (Normal result, w') ->
        configured (API_KEY process_env) = false ->
        run = (Abrupt (Some missing_key), w', [])).
Proof.
  cbv zeta. unfold scorePronunciation, bind at 1, await, try_catch, fileToBase64, bind, perform,
    ret, throw.
  destruct (readAsDataURL (inr userAudio) w) as [[result|error] w1] eqn:Hread; simpl.
  2: { unfold trace, outcome, attempts. simpl.
       split_and!; [lia | set_solver | done | done | done | by intros ? ? [= <- <-] | done]. }
  set (base64Audio := base64_of result). set (prompt := scoring_prompt referenceText).
  pose proof (fun w' => scoring_attempt_cost base64Audio prompt w') as Hcost.
  unfold withRetry.
  pose proof (retry_loop_count (scoring_attempt base64Audio prompt) attempts 1 default_retries
                default_retries 0 default_delayMs None w1 attempts_app attempts_cons_own
                (fun w' => proj1 (proj2 (Hcost w')))) as Hattempts.
  destruct (retry_loop_waits (scoring_attempt base64Audio prompt) default_retries
              default_retries 0 default_delayMs None w1 (fun w' => proj1 (Hcost w')) eq_refl)
    as (n & Hn & Hwaits).
  pose proof (retry_loop_no_fetch (scoring_attempt base64Audio prompt) default_retries
                default_retries 0 default_delayMs None w1
                (fun w' => proj1 (proj2 (proj2 (Hcost w'))))) as Hfetch.
  assert (Hgen : length (generations
                    (trace (retry_loop (scoring_attempt base64Audio prompt) default_retries
                              default_retries 0 default_delayMs None w1))) <= 3 * 0).
  { apply (retry_loop_count (scoring_attempt base64Audio prompt)
             (fun t => length (generations t)) 0).
    - intros. cbv beta. by rewrite generations_app, length_app.
    - apply generations_cons_own.
    - intros w'. destruct (Hcost w') as (_ & _ & _ & -> & _). done. }
  pose proof (retry_loop_success (scoring_attempt base64Audio prompt) default_retries
                default_retries 0 default_delayMs None w1) as Hsuccess.
  pose proof (withRetry_refused (scoring_attempt base64Audio prompt) default_retries
                default_delayMs w1 missing_key) as Hrefused.
  unfold withRetry in Hrefused.
  destruct (retry_loop _ _ _ _ _ _ w1) as [[r w2] t]. unfold trace, outcome in *. simpl in *.
  split_and!.
  - done.
  - rewrite Hwaits. by apply default_waits.
  - done.
  - apply length_zero_iff_nil. lia.
  - intros v ->. destruct (Hsuccess v eq_refl) as [w' Hw'].
    destruct (Hcost w') as (_ & _ & _ & _ & Hgiven).
    destruct (Hgiven v Hw') as (response & text & ? & ? & ? & ?).
    by exists result, w1, response, text.
  - done.
  - intros ? ? [= <- <-] Hkey. apply Hrefused; [unfold default_retries; lia | | done].
    unfold scoring_attempt, bind. by rewrite getAi_missing.
Qed.

End AudioTaskFacts.

Lemma generateSpeech_budget_witness :
  @generateSpeech nat keyless_platform sample_studio "Hello" 0
  = (Abrupt (Some missing_key), 0, []).
Proof.
  destruct (@generateSpeech_budget nat keyless_platform sample_studio "Hello" 0)
    as (_ & _ & _ & _ & _ & Hkeyless).
  apply Hkeyless. reflexivity.
Defined.

Lemma scorePronunciation_budget_witness :
  @scorePronunciation nat keyless_platform sample_studio (mkBlob "audio/webm") "Hello" 0
  = (Abrupt (Some missing_key), 1, []).
Proof.
  destruct (@scorePronunciation_budget nat keyless_platform sample_studio
              (mkBlob "audio/webm") "Hello" 0) as (_ & _ & _ & _ & _ & _ & Hkeyless).
  apply (Hkeyless "data:audio/webm;base64,GkXfo59ChoEB"); reflexivity.
Defined.

(** *** Transcription *)

Section TranscriptionFacts.
Context {W R : Type} `{Platform W} `{Multimodal W}.
Variable inherited_text : string -> string.
Variable finish : Json.value -> Completion JsError R.

Lemma transcription_attempt_cost mimeType base64Audio (w : W) :
  let run := transcription_attempt finish mimeType base64Audio w in
  delays (trace run) = []
  /\ attempts (trace run) <= 1
  /\ fetches (trace run) = []
  /\ generations (trace run) = []
  /\ forall result, outcome run = Normal result ->
       exists response text parsed,
         answers TRANSCRIPTION_MODEL
           [InlineData mimeType base64Audio; TextPart "Generate JSON."] response
         /\ reply_text response = Some text
         /\ text <> "" /\ Json.parse (cleanText text) = Some parsed
         /\ finish parsed = Normal result.
Proof.
  cbv zeta. unfold transcription_attempt, bind, probe, bind, emit, perform, ret, throw.
  destruct (getAi_quiet w) as ([apiKey|e] & -> & Hkey); [|solve_cost].
  simpl. destruct (generateContentOf _ _ _ w) as [[response|e] w'] eqn:Hrequest; [|solve_cost].
  destruct (reply_text response) as [text|] eqn:Htext; [|solve_cost].
  destruct (Js.truthy text) eqn:Htruthy; [|solve_cost].
  unfold cleanAndParseJson. simpl.
  destruct (Json.parse (cleanText text)) as [parsed|] eqn:Hparse; [|solve_cost].
  unfold ret. destruct (finish parsed) as [result|error] eqn:Hfinish; [|solve_cost].
  split_and!; try solve_cost.
  unfold outcome. simpl. intros result' [= <-]. exists response, text, parsed.
  split_and!; try done.
  - exists apiKey, w, w'. by split; [apply Hkey|].
  - intros Hempty. by rewrite Hempty in Htruthy.
Qed.

(** One request that the loop does not repeat: the closure fails on its
    first call with an error that is not retried. *)
Lemma withRetry_first_failure {T} (fn : Eff W JsError T) retries delayMs w error w' t :
  1 <= retries ->
  fn w = (Abrupt error, w', t) -> isInternalError error = false ->
  withRetry fn retries delayMs w = (Abrupt (Some error), w', t).
Proof.
  intros Hretries Hfn Herror. unfold withRetry.
  destruct retries as [|r]; [lia|]. rewrite retry_loop_unfold, Hfn, Herror. simpl.
  by rewrite app_nil_r.
Qed.

(** What a transcription may cost and give, whatever the reader and the
    provider do. The file is read first, and a failure of the read is the
    failure of the call, with nothing logged or sent. After the read, the
    upload is logged once; then at most three requests are sent, with waits
    of one and then two seconds between them and none otherwise, and never one
    to the secondary provider. A result comes from the parsed text of a reply
    that is not empty. Without a key nothing is sent; a first reply without
    text, or with text that is not JSON, ends the call after that one request:
    neither is retried. *)
Theorem transcribeAudio_budget (file : File) (w : W) :
  let run := transcribeAudio inherited_text finish file w in
  attempts (trace run) <= 3
  /\ delays (trace run) ∈ [ []; [1000%Z]; [1000%Z; 2000%Z] ]
  /\ fetches (trace run) = [] /\ generations (trace run) = []
  /\ (forall result, outcome run = Normal result ->
        exists data w' response text parsed,
          readAsDataURL (inl file) w = (Normal data, w')
          /\ answers TRANSCRIPTION_MODEL
               [InlineData (getCorrectMimeType file) (base64_of data);
                TextPart "Generate JSON."] response
          /\ reply_text response = Some text
          /\ text <> "" /\ Json.parse (cleanText text) = Some parsed
          /\ finish parsed = Normal result)
  /\ (forall error w', readAsDataURL (inl file) w = (Abrupt error, w') ->
        run = (Abrupt (Some error), w', []))
  /\ (forall result w', readAsDataURL (inl file) w = (Normal result, w') ->
        let log := upload_log inherited_text file (getCorrectMimeType file) in
        let request :=
          generateContentOf
            (default "" (API_KEY process_env)) TRANSCRIPTION_MODEL
            [InlineData (getCorrectMimeType file) (base64_of result); TextPart "Generate JSON."]
            w' in
        (configured (API_KEY process_env) = false ->
           run = (Abrupt (Some missing_key), w', [log]))
        /\ (configured (API_KEY process_env) = true ->
            forall response w'',
              request = (Normal response, w'') ->
              (reply_text response = None \/ reply_text response = Some "" ->
                 run = (Abrupt (Some (Error "Empty response from Gemini")), w'',
                        [log; Invoked]))
              /\ (forall text,
                    reply_text response = Some text -> text <> "" ->
                    Json.parse (cleanText text) = None ->
                    run = (Abrupt (Some parse_failure), w'',
                           [log; Invoked;
                            Console LevelError "JSON Parse Error on text:"
                              (Some (LogText (Some text)))])))).
Proof.
  cbv zeta. unfold transcribeAudio, bind at 1, await, try_catch, fileToBase64, bind, perform,
    ret, throw, emit.
  destruct (readAsDataURL (inl file) w) as [[result|error] w1] eqn:Hread; simpl.
  2: { unfold trace, outcome, attempts. simpl.
       split_and!; [lia | set_solver | done | done | done | by intros ? ? [= <- <-] | done]. }
  set (base64Audio := base64_of result). set (mimeType := getCorrectMimeType file).
  set (log := upload_log inherited_text file mimeType).
  pose proof (fun w' => transcription_attempt_cost mimeType base64Audio w') as Hcost.
  cbv zeta in Hcost.
  set (fn := transcription_attempt finish mimeType base64Audio) in *.
  pose proof (retry_loop_count fn attempts 1 default_retries
                default_retries 0 default_delayMs None w1 attempts_app attempts_cons_own
                (fun w' => proj1 (proj2 (Hcost w')))) as Hattempts.
  destruct (retry_loop_waits fn default_retries
              default_retries 0 default_delayMs None w1 (fun w' => proj1 (Hcost w')) eq_refl)
    as (n & Hn & Hwaits).
  pose proof (retry_loop_no_fetch fn default_retries
                default_retries 0 default_delayMs None w1
                (fun w' => proj1 (proj2 (proj2 (Hcost w'))))) as Hfetch.
  assert (Hgen : length (generations
                    (trace (retry_loop fn default_retries
                              default_retries 0 default_delayMs None w1))) <= 3 * 0).
  { apply (retry_loop_count fn (fun t => length (generations t)) 0).
    - intros. cbv beta. by rewrite generations_app, length_app.
    - apply generations_cons_own.
    - intros w'. destruct (Hcost w') as (_ & _ & _ & -> & _). done. }
  pose proof (retry_loop_success fn default_retries
                default_retries 0 default_delayMs None w1) as Hsuccess.
  pose proof (withRetry_first_failure fn default_retries default_delayMs w1) as Hfirst.
  unfold withRetry in *.
  destruct (retry_loop _ _ _ _ _ _ w1) as [[r w2] t]. unfold trace, outcome in *. simpl in *.
  split_and!.
  - done.
  - rewrite Hwaits. by apply default_waits.
  - done.
  - apply length_zero_iff_nil. lia.
  - intros v ->. destruct (Hsuccess v eq_refl) as [w' Hw'].
    destruct (Hcost w') as (_ & _ & _ & _ & Hgiven).
    destruct (Hgiven v Hw') as (response & text & parsed & ? & ? & ? & ? & ?).
    by exists result, w1, response, text, parsed.
  - done.
  - intros ? ? [= <- <-]. split.
    + intros Hkey.
      assert (Hrun : (r, w2, t) = (Abrupt (Some missing_key), w1, [])); [|by injection Hrun as -> -> ->].
      apply Hfirst; [unfold default_retries; lia | | done].
      unfold fn, transcription_attempt, bind. by rewrite getAi_missing.
    + intros Hkey response w'' Hrequest.
      assert (Hai : getAi w1 = (Normal (default "" (API_KEY process_env)), w1, [])).
      { unfold getAi, configured in *. destruct (API_KEY process_env) as [apiKey|]; [|done].
        by rewrite Hkey. }
      split.
      * intros Hempty.
        assert (Hrun : (r, w2, t)
                       = (Abrupt (Some (Error "Empty response from Gemini")), w'', [Invoked]));
          [|by injection Hrun as -> -> ->].
        apply Hfirst; [unfold default_retries; lia | | done].
        subst fn base64Audio mimeType.
        unfold transcription_attempt, bind, probe, bind, emit, perform, throw.
        rewrite Hai. simpl. rewrite Hrequest.
        by destruct Hempty as [-> | ->].
      * intros text Htext Hne Hparse.
        assert (Hrun : (r, w2, t)
                       = (Abrupt (Some parse_failure), w'',
                          [Invoked; Console LevelError "JSON Parse Error on text:"
                                      (Some (LogText (Some text)))]));
          [|by injection Hrun as -> -> ->].
        apply Hfirst; [unfold default_retries; lia | | done].
        subst fn base64Audio mimeType.
        unfold transcription_attempt, bind, probe, bind, emit, perform, throw.
        rewrite Hai. simpl. rewrite Hrequest, Htext.
        assert (Js.truthy text = true) as ->.
        { unfold Js.truthy. apply negb_true_iff. by apply String.eqb_neq. }
        unfold cleanAndParseJson, bind, emit, throw. simpl. by rewrite Hparse.
Qed.

End TranscriptionFacts.

Lemma transcribeAudio_budget_witness :
  outcome (@transcribeAudio nat nat keyless_platform sample_studio
             (fun key => key) (fun _ => Normal 0) (mkFile "talk.mp3" "") 0)
  = Abrupt (Some missing_key).
Proof.
  destruct (@transcribeAudio_budget nat nat keyless_platform sample_studio
              (fun key => key) (fun _ => Normal 0) (mkFile "talk.mp3" "") 0)
    as (_ & _ & _ & _ & _ & _ & Hread).
  destruct (Hread "data:audio/webm;base64,GkXfo59ChoEB" 1 eq_refl) as [Hkeyless _].
  rewrite Hkeyless; reflexivity.
Defined.

(** ** App *)

Lemma lower_char_digit a b :
  Json.is_digit b = true -> Ascii.eqb (Js.lower_char a) b = Ascii.eqb a b.
Proof.
  destruct b as [[] [] [] [] [] [] [] []]; try discriminate; intros _;
    by destruct a as [[] [] [] [] [] [] [] []].
Qed.

Lemma startsWith_lower_digits s p :
  forallb Json.is_digit (list_ascii_of_string p) = true ->
  Js.startsWith (Js.toLowerCase s) p = Js.startsWith s p.
Proof.
  revert s. induction p as [|b p IH]; intros s; [done|].
  simpl. intros [Hb Hp]%andb_true_iff. destruct s as [|a s]; [done|]. simpl.
  by rewrite lower_char_digit, IH.
Qed.

(** Lower-casing a message neither adds nor removes an occurrence of a
    number. *)
Lemma includes_lower_digits s p :
  forallb Json.is_digit (list_ascii_of_string p) = true ->
  Js.includes (Js.toLowerCase s) p = Js.includes s p.
Proof.
  intros Hp. induction s as [|a s IH].
  - simpl. rewrite !orb_false_r. by apply (startsWith_lower_digits EmptyString).
  - change (Js.toLowerCase (String a s)) with (String (Js.lower_char a) (Js.toLowerCase s)).
    cbn [Js.includes]. rewrite IH. f_equal.
    by apply (startsWith_lower_digits (String a s)).
Qed.

(** What the executor retries is what the application reports as an
    unavailable service, unless the message also carries an authentication
    signature, which is checked first. The report of an unavailable service
    says that three attempts were made; it is also given for a message with
    [overloaded], which the executor does not retry. Whatever is shown is
    shown again unchanged when it is itself the message. *)
Theorem errorDetails_for_retried (m : string) :
  (isInternalError (Error m) = true ->
     errorDetails_for m
     = if authentication_signature m then "API_KEY_MISSING" else "SERVICE_UNAVAILABLE")
  /\ (errorDetails_for m = "SERVICE_UNAVAILABLE" ->
        isInternalError (Error m) = true
        \/ Js.includes (Js.toLowerCase m) "overloaded" = true
        \/ m = "SERVICE_UNAVAILABLE")
  /\ (errorDetails_for "The model is overloaded" = "SERVICE_UNAVAILABLE"
      /\ isInternalError (Error "The model is overloaded") = false)
  /\ (errorDetails_for m = m
      \/ errorDetails_for m ∈ [ "API_KEY_MISSING"; "SERVICE_UNAVAILABLE"; "NETWORK_ERROR" ])
  /\ errorDetails_for (errorDetails_for m) = errorDetails_for m.
Proof.
  assert (Hretry : isInternalError (Error m)
                   = Js.includes (Js.toLowerCase m) "internal error"
                     || Js.includes (Js.toLowerCase m) "500"
                     || Js.includes (Js.toLowerCase m) "503").
  { unfold isInternalError. simpl message. cbv iota.
    by rewrite (includes_lower_digits m "500"), (includes_lower_digits m "503"). }
  unfold errorDetails_for, authentication_signature. cbv zeta. rewrite Hretry.
  destruct (Js.includes (Js.toLowerCase m) "api key is missing"
            || Js.includes (Js.toLowerCase m) "401"
            || Js.includes (Js.toLowerCase m) "unauthenticated"
            || Js.includes (Js.toLowerCase m) "invalid authentication") eqn:Hauth.
  { split_and!; try done. right. set_solver. }
  destruct (Js.includes (Js.toLowerCase m) "internal error"
            || Js.includes (Js.toLowerCase m) "500"
            || Js.includes (Js.toLowerCase m) "503") eqn:Hinternal; simpl orb.
  { split_and!; try done; [by left | right; set_solver]. }
  destruct (Js.includes (Js.toLowerCase m) "overloaded") eqn:Hover.
  { split_and!; try done; [by right; left | right; set_solver]. }
  destruct (Js.includes (Js.toLowerCase m) "fetch failed"
            || Js.includes (Js.toLowerCase m) "network"
            || Js.includes (Js.toLowerCase m) "failed to fetch") eqn:Hnet.
  { split_and!; try done. right. set_solver. }
  split_and!; try done; [by right; right | by left |].
  by rewrite Hauth, Hinternal, Hover, Hnet.
Qed.

Lemma errorDetails_for_retried_witness :
  errorDetails_for "got status: 503 Service Unavailable" = "SERVICE_UNAVAILABLE".
Proof.
  destruct (errorDetails_for_retried "got status: 503 Service Unavailable") as [Hretried _].
  rewrite Hretried; reflexivity.
Defined.

(** *** Favourites *)

Lemma toggled_involutive segment : toggled (toggled segment) = segment.
Proof. destruct segment. unfold toggled. simpl. by rewrite negb_involutive. Qed.

Lemma filter_insert_toggled (l : list TranscriptionSegment) i segment :
  l !! i = Some segment ->
  List.filter isFavorite (<[i := toggled segment]> l)
  = List.filter isFavorite (take i l)
    ++ (if isFavorite segment then [] else [toggled segment])
    ++ List.filter isFavorite (drop (S i) l).
Proof.
  intros Hi. rewrite insert_take_drop by (by eapply lookup_lt_Some).
  rewrite List.filter_app. f_equal. simpl. by destruct (isFavorite segment).
Qed.

(** Marking and unmarking a favourite. For an index inside the list the
    handler replaces that one segment by a copy whose favourite mark is
    flipped and touches nothing else; doing it again restores the
    transcription, a segment without a mark counting as not marked. On the favourites tab the segment then appears at its place
    among the favourites, or disappears from it. Past the end of the list the
    handler throws and sets nothing. *)
Theorem handleToggleFavorite_flips (index : nat) (t : TranscriptionResponse) :
  (forall segment, segments t !! index = Some segment ->
     exists t',
       handleToggleFavorite index (Some t) = Normal (Some t')
       /\ language t' = language t /\ meta t' = meta t
       /\ length (segments t') = length (segments t)
       /\ segments t' !! index = Some (toggled segment)
       /\ (forall j, j <> index -> segments t' !! j = segments t !! j)
       /\ handleToggleFavorite index (Some t') = Normal (Some t)
       /\ displayedSegments favorites (Some t')
          = List.filter isFavorite (take index (segments t))
            ++ (if isFavorite segment then [] else [toggled segment])
            ++ List.filter isFavorite (drop (S index) (segments t)))
  /\ (length (segments t) <= index ->
        handleToggleFavorite index (Some t) = Abrupt (ReadOfUndefined "isFavorite"))
  /\ handleToggleFavorite index None = Normal None.
Proof.
  split_and!; [|intros Hlen|done].
  - intros segment Hseg. unfold handleToggleFavorite. cbv zeta. rewrite Hseg.
    eexists. split; [reflexivity|]. simpl.
    pose proof (lookup_lt_Some _ _ _ Hseg) as Hlt.
    split_and!; try done.
    + by rewrite length_insert.
    + by rewrite list_lookup_insert_eq.
    + intros j Hj. by rewrite list_lookup_insert_ne.
    + rewrite list_lookup_insert_eq by done. rewrite list_insert_insert_eq, toggled_involutive.
      rewrite list_insert_id by done. by destruct t.
    + by apply filter_insert_toggled.
  - unfold handleToggleFavorite. cbv zeta. by rewrite lookup_ge_None_2.
Qed.

Lemma handleToggleFavorite_flips_witness :
  let s := mkSegment 0 1 "so I went to the store" "a" "" "" false in
  let t := mkTranscription "en-US" (mkMeta 6 "B1" "normal") [s] in
  displayedSegments favorites (Some t) = []
  /\ exists t', handleToggleFavorite 0 (Some t) = Normal (Some t')
                /\ displayedSegments favorites (Some t') = [toggled s].
Proof.
  intros s t. split; [reflexivity|].
  destruct (handleToggleFavorite_flips 0 t) as [Hin _].
  destruct (Hin s eq_refl) as (t' & Hset & _ & _ & _ & _ & _ & _ & Hshown).
  exists t'. split; [exact Hset | exact Hshown].
Defined.

(** ** historyDb *)

Module HistoryDbFacts.
Import HistoryDb.

(** *** The order of the keys *)

Lemma compare_refl s : String.compare s s = Eq.
Proof.
  induction s as [|c s IH]; [done|]. simpl.
  unfold Ascii.compare. by rewrite N.compare_refl.
Qed.

Lemma compare_lt_trans s1 s2 s3 :
  String.compare s1 s2 = Lt -> String.compare s2 s3 = Lt -> String.compare s1 s3 = Lt.
Proof.
  revert s2 s3. induction s1 as [|c1 s1 IH]; intros [|c2 s2] [|c3 s3]; simpl; try done.
  unfold Ascii.compare.
  destruct (N.compare_spec (N_of_ascii c1) (N_of_ascii c2)) as [H12|H12|H12]; [|clear IH|done].
  - rewrite H12. destruct (N_of_ascii c2 ?= N_of_ascii c3)%N; [apply IH|done|done].
  - intros _.
    destruct (N.compare_spec (N_of_ascii c2) (N_of_ascii c3)) as [H23|H23|H23]; [| |done].
    + intros _. rewrite <- H23. by apply N.compare_lt_iff in H12 as ->.
    + intros _. assert (N_of_ascii c1 < N_of_ascii c3)%N as ->%N.compare_lt_iff by lia. done.
Qed.

Lemma compare_lt_neq s1 s2 : String.compare s1 s2 = Lt -> s1 <> s2.
Proof. intros Hlt ->. by rewrite compare_refl in Hlt. Qed.

Lemma compare_gt_neq s1 s2 : String.compare s1 s2 = Gt -> s1 <> s2.
Proof. intros Hgt ->. by rewrite compare_refl in Hgt. Qed.

(** *** The sort *)

Lemma insert_by_date_perm entry sorted : insert_by_date entry sorted ≡ₚ entry :: sorted.
Proof.
  induction sorted as [|a sorted IH]; [done|]. simpl.
  destruct (date entry <? date a)%Z; [|done]. rewrite IH. apply Permutation_swap.
Qed.

Lemma sort_by_date_perm results : sort_by_date results ≡ₚ results.
Proof.
  induction results as [|a results IH]; [done|]. simpl.
  by rewrite insert_by_date_perm, IH.
Qed.

Lemma insert_by_date_latest_first entry sorted :
  latest_first sorted -> latest_first (insert_by_date entry sorted).
Proof.
  unfold latest_first. induction 1 as [|a sorted Hsorted IH Ha]; simpl.
  { by repeat constructor. }
  destruct (Z.ltb_spec (date entry) (date a)).
  - constructor; [done|]. rewrite insert_by_date_perm. constructor; [lia | done].
  - constructor; [by constructor|]. constructor; [lia|].
    eapply Forall_impl; [exact Ha|]. simpl. lia.
Qed.

Lemma sort_by_date_latest_first results : latest_first (sort_by_date results).
Proof.
  induction results as [|a results IH]; [constructor|]. simpl.
  by apply insert_by_date_latest_first.
Qed.

Lemma insert_by_date_dated d entry sorted :
  dated d (insert_by_date entry sorted) = dated d (entry :: sorted).
Proof.
  unfold dated. induction sorted as [|a sorted IH]; [done|]. simpl in *.
  destruct (Z.ltb_spec (date entry) (date a)); [|done]. simpl. rewrite IH.
  destruct (Z.eqb_spec (date entry) d), (Z.eqb_spec (date a) d); try done. lia.
Qed.

(** The sort is stable: the entries of one date keep their order. *)
Lemma sort_by_date_dated d results : dated d (sort_by_date results) = dated d results.
Proof.
  induction results as [|a results IH]; [done|]. simpl.
  rewrite insert_by_date_dated. unfold dated in *. simpl. by rewrite IH.
Qed.

Lemma insert_by_date_head entry sorted :
  Forall (fun a => (date a <= date entry)%Z) sorted ->
  insert_by_date entry sorted = entry :: sorted.
Proof.
  destruct 1 as [|a sorted Ha _]; [done|]. simpl.
  by destruct (Z.ltb_spec (date entry) (date a)); [lia|].
Qed.

Lemma insert_by_date_filter (keep : HistoryEntry -> bool) entry sorted :
  latest_first sorted ->
  List.filter keep (insert_by_date entry sorted)
  = if keep entry then insert_by_date entry (List.filter keep sorted)
    else List.filter keep sorted.
Proof.
  unfold latest_first. induction 1 as [|a sorted Hsorted IH Ha]; simpl.
  { by destruct (keep entry). }
  destruct (Z.ltb_spec (date entry) (date a)) as [Hlt|Hge]; simpl.
  - rewrite IH. destruct (keep a), (keep entry); simpl; try done.
    by destruct (Z.ltb_spec (date entry) (date a)); [|lia].
  - destruct (keep entry) eqn:Hentry; [|done]. destruct (keep a); simpl.
    + by destruct (Z.ltb_spec (date entry) (date a)); [lia|].
    + symmetry. apply insert_by_date_head.
      apply Forall_forall. intros b Hb.
      apply list_elem_of_In, filter_In in Hb as [Hb _]. apply list_elem_of_In in Hb.
      eapply Forall_forall in Ha; [|done]. simpl in Ha. lia.
Qed.

(** Sorting what is left after taking entries out is taking them out of the
    sorted list. *)
Lemma sort_by_date_filter (keep : HistoryEntry -> bool) results :
  sort_by_date (List.filter keep results) = List.filter keep (sort_by_date results).
Proof.
  induction results as [|a results IH]; [done|]. simpl.
  rewrite insert_by_date_filter by apply sort_by_date_latest_first.
  destruct (keep a); simpl; by rewrite IH.
Qed.

(** *** The store *)

Lemma elem_of_put_record entry stored a :
  keys_ascending stored ->
  a ∈ put_record entry stored <-> a = entry \/ (a ∈ stored /\ id a <> id entry).
Proof.
  unfold keys_ascending. induction 1 as [|b stored Hstored IH Hb]; simpl.
  { rewrite list_elem_of_singleton. split; [intros ->; by left|].
    intros [->|[Ha _]]; [done | by apply elem_of_nil in Ha]. }
  destruct (String.compare (id entry) (id b)) eqn:Hcmp.
  - apply String.compare_eq_iff in Hcmp. rewrite !elem_of_cons. split.
    + intros [->|Ha]; [by left|]. right. split; [by right|].
      eapply Forall_forall in Hb; [|done]. simpl in Hb. rewrite Hcmp.
      intros Heq. apply compare_lt_neq in Hb. congruence.
    + intros [->|[[->|Ha] Hne]]; [by left | congruence | by right].
  - rewrite !elem_of_cons. split.
    + intros [->|[->|Ha]]; [by left | |].
      * right. split; [by left|]. apply compare_lt_neq in Hcmp. congruence.
      * right. split; [by right|].
        eapply Forall_forall in Hb; [|done]. simpl in Hb.
        pose proof (compare_lt_trans _ _ _ Hcmp Hb) as Hlt%compare_lt_neq. congruence.
    + intros [->|[[->|Ha] _]]; auto.
  - rewrite !elem_of_cons, IH. split.
    + intros [->|[->|[Ha Hne]]]; [|by left|by right; split; [right|]].
      right. split; [by left|]. apply compare_gt_neq in Hcmp. congruence.
    + intros [->|[[->|Ha] Hne]]; auto.
Qed.

Lemma put_record_keys_ascending entry stored :
  keys_ascending stored -> keys_ascending (put_record entry stored).
Proof.
  unfold keys_ascending. induction 1 as [|b stored Hstored IH Hb]; simpl.
  { by repeat constructor. }
  destruct (String.compare (id entry) (id b)) eqn:Hcmp.
  - apply String.compare_eq_iff in Hcmp. constructor; [done|].
    eapply Forall_impl; [exact Hb|]. simpl. intros c. by rewrite Hcmp.
  - constructor; [by constructor|]. constructor; [done|].
    eapply Forall_impl; [exact Hb|]. simpl. intros c. by apply compare_lt_trans.
  - constructor; [done|]. apply Forall_forall. intros c Hc.
    apply elem_of_put_record in Hc as [->|[Hc _]]; [| |exact Hstored].
    + by rewrite String.compare_antisym, Hcmp.
    + by eapply Forall_forall in Hb.
Qed.

Lemma put_record_twice first second stored :
  id first = id second ->
  put_record second (put_record first stored) = put_record second stored.
Proof.
  intros Hid. induction stored as [|b stored IH]; simpl.
  { by rewrite <- Hid, compare_refl. }
  rewrite Hid. destruct (String.compare (id second) (id b)) eqn:Hcmp; simpl.
  - by rewrite <- Hid, compare_refl.
  - by rewrite <- Hid, compare_refl.
  - by rewrite Hcmp, IH.
Qed.

Lemma delete_record_absent key stored :
  Forall (fun a => id a <> key) stored -> delete_record key stored = stored.
Proof.
  unfold delete_record. induction 1 as [|a stored Ha _ IH]; [done|]. simpl.
  apply String.eqb_neq in Ha. by rewrite Ha, IH.
Qed.

Lemma delete_put_record entry stored :
  keys_ascending stored ->
  delete_record (id entry) (put_record entry stored) = delete_record (id entry) stored.
Proof.
  unfold keys_ascending, delete_record. induction 1 as [|b stored Hstored IH Hb]; simpl.
  { by rewrite String.eqb_refl. }
  destruct (String.compare (id entry) (id b)) eqn:Hcmp; simpl.
  - apply String.compare_eq_iff in Hcmp. by rewrite Hcmp, !String.eqb_refl.
  - by rewrite String.eqb_refl.
  - destruct (String.eqb (id b) (id entry)); simpl; by rewrite IH.
Qed.

(** *** Listing, saving and deleting *)

Lemma to_int_not_nil z : Z.to_int z <> Decimal.Pos Decimal.Nil /\ Z.to_int z <> Decimal.Neg Decimal.Nil.
Proof.
  destruct z as [|p|p]; simpl; split; try done; intros [= Hp];
    by apply DecimalPos.Unsigned.to_uint_nonnil in Hp.
Qed.

(** Two readings of the clock give the same key only when they are equal. *)
Lemma decimal_inj z1 z2 : decimal z1 = decimal z2 -> z1 = z2.
Proof.
  unfold decimal. intros Heq. apply DecimalZ.to_int_inj.
  destruct (to_int_not_nil z1) as [Hp1 Hn1], (to_int_not_nil z2) as [Hp2 Hn2].
  pose proof (NilZero.isi _ Hp1 Hn1) as H1. pose proof (NilZero.isi _ Hp2 Hn2) as H2.
  rewrite Heq in H1. congruence.
Qed.

Section AnyBrowser.
Context {W : Type} `{IndexedDB W}.

(** What [getAll] lists is what the store holds, latest first, the entries
    of one date in the order of the store; it fails exactly when opening the
    database or reading the store fails, with the error of the request. *)
Theorem getAll_latest_first (w : W) :
  (forall entries, outcome (getAll w) = Normal entries ->
     exists w1 results,
       idb_open w = (Normal tt, w1) /\ (store_getAll w1).1 = Normal results
       /\ entries ≡ₚ results /\ latest_first entries
       /\ forall d, dated d entries = dated d results)
  /\ (forall error, outcome (getAll w) = Abrupt error ->
        (idb_open w).1 = Abrupt error
        \/ exists w1, idb_open w = (Normal tt, w1) /\ (store_getAll w1).1 = Abrupt error).
Proof.
  unfold getAll, openDB, bind, perform, ret, outcome.
  destruct (idb_open w) as [[[]|e] w1]; simpl.
  - destruct (store_getAll w1) as [[results|e] w2] eqn:Hget; simpl.
    + split; [|done]. intros entries [= <-]. exists w1, results. rewrite Hget.
      split_and!; try done.
      * apply sort_by_date_perm.
      * apply sort_by_date_latest_first.
      * intros d. apply sort_by_date_dated.
    + split; [done|]. intros error [= <-]. right. exists w1. by rewrite Hget.
  - split; [done|]. intros error [= <-]. by left.
Qed.

End AnyBrowser.

Lemma getAll_latest_first_witness :
  latest_first
    (sort_by_date
       [ mkEntry "1" "a.mp3" 5 (mkFile "a.mp3" "") sample_transcription;
         mkEntry "2" "b.mp3" 7 (mkFile "b.mp3" "") sample_transcription ]).
Proof.
  set (stored := [ mkEntry "1" "a.mp3" 5 (mkFile "a.mp3" "") sample_transcription;
                   mkEntry "2" "b.mp3" 7 (mkFile "b.mp3" "") sample_transcription ]).
  destruct (@getAll_latest_first Browser browser (mkBrowser (fun _ => 0%Z) 0 stored))
    as [Hlisted _].
  destruct (Hlisted (sort_by_date stored) eq_refl) as (w1 & results & _ & _ & _ & Hsorted & _).
  exact Hsorted.
Defined.

Lemma listed_spec w : listed w = Normal (sort_by_date (records w)).
Proof. done. Qed.

Lemma after_save_records file result w :
  records (after_save file result w)
  = put_record (saved_entry (time w (reads w)) (time w (S (reads w))) file result) (records w)
  /\ time (after_save file result w) = time w
  /\ reads (after_save file result w) = S (S (reads w)).
Proof. done. Qed.

(** Saving a session in a browser that works. The entry is stored under the
    decimal text of the first clock reading and dated by the second; it is
    listed from then on, with every entry stored under another key, latest
    first; an entry already stored under that key is replaced. *)
Theorem save_then_getAll (file : File) (result : TranscriptionResponse) (w : Browser) :
  keys_ascending (records w) ->
  let entry := saved_entry (time w (reads w)) (time w (S (reads w))) file result in
  outcome (@save Browser browser file result w) = Normal tt
  /\ keys_ascending (records (after_save file result w))
  /\ exists entries,
       listed (after_save file result w) = Normal entries
       /\ latest_first entries
       /\ forall a, a ∈ entries <-> a = entry \/ (a ∈ records w /\ id a <> id entry).
Proof.
  intros Hkeys entry. split_and!; [done | by apply put_record_keys_ascending |].
  exists (sort_by_date (records (after_save file result w))). split_and!.
  - done.
  - apply sort_by_date_latest_first.
  - intros a. rewrite sort_by_date_perm.
    destruct (after_save_records file result w) as (-> & _). by apply elem_of_put_record.
Qed.

Lemma save_then_getAll_witness :
  listed (after_save (mkFile "talk.mp3" "audio/mpeg") sample_transcription fresh_browser)
  = Normal [ mkEntry "1700000000000" "talk.mp3" 1700000000001
               (mkFile "talk.mp3" "audio/mpeg") sample_transcription ].
Proof.
  destruct (save_then_getAll (mkFile "talk.mp3" "audio/mpeg") sample_transcription fresh_browser)
    as (_ & _ & entries & Hlisted & _).
  - constructor.
  - rewrite Hlisted. vm_compute in Hlisted. by injection Hlisted as <-.
Defined.

(** Two sessions saved one after the other are both kept exactly when the
    clock has moved on between the first reading of the one and the first
    reading of the other: within one millisecond the second session takes the
    place of the first. *)
Theorem saves_within_one_millisecond (file1 file2 : File)
    (result1 result2 : TranscriptionResponse) (w : Browser) :
  keys_ascending (records w) ->
  let first_time := time w (reads w) in
  let second_time := time w (S (S (reads w))) in
  let entry1 := saved_entry first_time (time w (S (reads w))) file1 result1 in
  let entry2 := saved_entry second_time (time w (S (S (S (reads w))))) file2 result2 in
  let w2 := after_save file2 result2 (after_save file1 result1 w) in
  (first_time = second_time ->
     records w2 = put_record entry2 (records w)
     /\ (entry1 ∈ records w2 -> entry1 = entry2))
  /\ (first_time <> second_time -> entry1 ∈ records w2 /\ entry2 ∈ records w2).
Proof.
  intros Hkeys first_time second_time entry1 entry2 w2.
  assert (Hw2 : records w2 = put_record entry2 (put_record entry1 (records w))) by done.
  pose proof (put_record_keys_ascending entry1 _ Hkeys) as Hkeys1.
  rewrite Hw2. split.
  - intros Htime. rewrite put_record_twice.
    2: { unfold entry1, entry2, saved_entry. simpl. by rewrite Htime. }
    split; [done|]. intros [Heq|[_ Hne]]%elem_of_put_record; [done| |done].
    exfalso. apply Hne. unfold entry1, entry2, saved_entry. simpl. by rewrite Htime.
  - intros Htime. split.
    + apply elem_of_put_record; [done|]. right. split.
      * apply elem_of_put_record; [done|]. by left.
      * unfold entry1, entry2, saved_entry. simpl. intros Heq%decimal_inj. done.
    + apply elem_of_put_record; [done|]. by left.
Qed.

Lemma saves_within_one_millisecond_witness :
  records (after_save (mkFile "b.mp3" "") sample_transcription
             (after_save (mkFile "a.mp3" "") sample_transcription fast_browser))
  = [ mkEntry "1700000000000" "b.mp3" 1700000000000 (mkFile "b.mp3" "") sample_transcription ].
Proof.
  destruct (saves_within_one_millisecond (mkFile "a.mp3" "") (mkFile "b.mp3" "")
              sample_transcription sample_transcription fast_browser) as [Hsame _].
  - constructor.
  - destruct Hsame as [Hrecords _]; [reflexivity|]. rewrite Hrecords. reflexivity.
Defined.

(** Deleting in a browser that works: the list loses the entry stored under
    the key and keeps every other entry at its place; a key that is not in the
    store changes nothing; and deleting the entry just saved under a new key
    gives back the store as it was. *)
Theorem delete_then_getAll (key : string) (w : Browser) :
  outcome (@delete Browser browser key w) = Normal tt
  /\ (forall entries, listed w = Normal entries ->
        listed (after_delete key w)
        = Normal (List.filter (fun a => negb (String.eqb (id a) key)) entries))
  /\ (Forall (fun a => id a <> key) (records w) ->
        records (after_delete key w) = records w)
  /\ (forall file result,
        let entry := saved_entry (time w (reads w)) (time w (S (reads w))) file result in
        key = id entry ->
        keys_ascending (records w) ->
        Forall (fun a => id a <> key) (records w) ->
        records (after_delete key (after_save file result w)) = records w).
Proof.
  split_and!.
  - done.
  - intros entries. rewrite !listed_spec. intros [= <-]. f_equal.
    apply (sort_by_date_filter (fun a => negb (String.eqb (id a) key))).
  - apply delete_record_absent.
  - intros file result entry -> Hkeys Habsent.
    change (records (after_delete (id entry) (after_save file result w)))
      with (delete_record (id entry) (put_record entry (records w))).
    rewrite delete_put_record by done. by apply delete_record_absent.
Qed.

Lemma delete_then_getAll_witness :
  records (after_delete "1700000000000"
             (after_save (mkFile "talk.mp3" "audio/mpeg") sample_transcription fresh_browser))
  = [].
Proof.
  destruct (delete_then_getAll "1700000000000" fresh_browser) as (_ & _ & _ & Hround).
  apply (Hround (mkFile "talk.mp3" "audio/mpeg") sample_transcription).
  - reflexivity.
  - constructor.
  - constructor.
Defined.

End HistoryDbFacts.

(** ** App: the state of the application *)

Lemma favorite_toggled_keeps index m :
  appState (favorite_toggled index m) = appState m
  /\ audioFile (favorite_toggled index m) = audioFile m
  /\ errorDetails (favorite_toggled index m) = errorDetails m
  /\ is_set (transcription (favorite_toggled index m)) = is_set (transcription m)
  /\ (transcription m = None -> transcription (favorite_toggled index m) = None).
Proof.
  unfold favorite_toggled, handleToggleFavorite.
  destruct (transcription m) as [t|] eqn:Ht; simpl; [|done].
  destruct (segments t !! index); simpl; by rewrite ?Ht.
Qed.

Lemma happen_consistent h m pending m' pending' :
  consistent m -> happen h (m, pending) = Some (m', pending') -> consistent m'.
Proof.
  intros Hm. unfold consistent in *. destruct h; simpl.
  - destruct (appState m); intros [= <- <-]; done.
  - destruct pending; intros [= <- <-]; done.
  - destruct pending; [done|]. intros [= <- <-]. by destruct msg.
  - intros [= <- <-]. done.
  - intros [= <- <-]. done.
  - intros [= <- <-]. done.
  - intros [= <- <-]. done.
  - intros [= <- <-]. done.
  - intros [= <- <-].
    destruct (favorite_toggled_keeps index m) as (-> & -> & -> & -> & Hnone).
    destruct (appState m); try done. destruct Hm as (? & ? & ?). by rewrite Hnone.
  - intros [= <- <-]. done.
  - destruct (appState m) eqn:Hstate; try done.
    destruct (is_set (audioFile m)); [|done]. intros [= <- <-]. done.
  - destruct (appState m) eqn:Hstate; try done.
    destruct (is_set (transcription m)) eqn:Hshown; [|done]. intros [= <- <-]. done.
Qed.

(** Whatever the user does and however the analyses end, in whatever order:
    in [IDLE] there is no audio file, no transcription and no error; in
    [PROCESSING] there is an audio file and no error; in [READY] and
    [SHADOWING] there is a transcription; in [ERROR] there is an error text. *)
Theorem application_stays_consistent (hs : list Happening) (m : Model) (pending : nat) :
  happenings hs (initial, 0) = Some (m, pending) -> consistent m.
Proof.
  assert (Hgen : forall s, consistent s.1 -> happenings hs s = Some (m, pending) -> consistent m).
  { induction hs as [|h hs IH]; intros [m0 p0] H0; cbn [happenings].
    - by intros [= <- <-].
    - destruct (happen h (m0, p0)) as [[m1 p1]|] eqn:Hstep; [|done].
      apply IH. simpl. by eapply happen_consistent. }
  intros Hrun. apply (Hgen (initial, 0)); [by repeat split | exact Hrun].
Qed.

Lemma application_stays_consistent_witness :
  consistent
    (selection_rejected "Failed to fetch"
       (selection_started (mkFile "talk.mp3" "audio/mpeg") 1024 "blob:1" initial)).
Proof.
  apply (application_stays_consistent
           [FileSelected (mkFile "talk.mp3" "audio/mpeg") 1024 "blob:1";
            AnalysisRejected (Some "Failed to fetch")]
           _ 0).
  reflexivity.
Defined.

(** Going back does not cancel an analysis. When the user selects a file,
    goes back while it is analysed, and the analysis then succeeds, the
    application is [READY] with the transcription and without an audio file,
    and the main area renders nothing. When the user selects a second file in
    between, the transcription of the first file is shown with the audio of
    the second. Left alone, a selection ends in [READY] with the file and its
    transcription, or in [ERROR] with the error text. *)
Theorem back_does_not_cancel (file file' : File) (size size' : Z) (url url' : string)
    (result : TranscriptionResponse) (msg : string) :
  (exists m,
     happenings [FileSelected file size url; BackPressed; AnalysisResolved result] (initial, 0)
     = Some (m, 0)
     /\ appState m = READY /\ transcription m = Some result /\ audioFile m = None
     /\ renders_content m = false)
  /\ (exists m,
        happenings [FileSelected file size url; BackPressed; FileSelected file' size' url';
                    AnalysisResolved result] (initial, 0)
        = Some (m, 1)
        /\ appState m = READY /\ transcription m = Some result
        /\ audioFile m = Some (mkAudioFile (name file') size' (type file') url' file')
        /\ renders_content m = true)
  /\ (exists m,
        happenings [FileSelected file size url; AnalysisResolved result] (initial, 0)
        = Some (m, 0)
        /\ appState m = READY /\ transcription m = Some result
        /\ audioFile m = Some (mkAudioFile (name file) size (type file) url file)
        /\ errorDetails m = None)
  /\ (exists m,
        happenings [FileSelected file size url; AnalysisRejected (Some msg)] (initial, 0)
        = Some (m, 0)
        /\ appState m = ERROR /\ errorDetails m = Some (errorDetails_for msg)).
Proof. split_and!; eexists; split_and!; reflexivity. Qed.
